(** * Coordinate geometry of [app/lib/core/inference.server.ts]

    A shallow embedding of the bounding-box arithmetic, the crop planners and
    the resolution matcher, with the properties of the specification proved
    or refuted on it.

    A JavaScript [number] is an IEEE 754 binary64 value.  The functions are
    written once, over an interface [Number] of the arithmetic they use, and
    read at two instances:
    - [Binary64]: Rocq's primitive floats, which are binary64 with
      round-to-nearest-even, so evaluation agrees bit for bit with the
      JavaScript engine;
    - [Exact]: rationals without rounding, where a division by zero has no
      value; this is the arithmetic the specification reasons in when it
      speaks of "exactly". *)

From Stdlib Require Import ZArith QArith Qround Qabs Qpower Bool List Permutation Lia Lqa Floats.
From Stdlib Require String.
Import ListNotations.

(** ** The arithmetic interface *)

Class Number (num : Type) : Type := {
  num0 : num;                       (* the literal 0 *)
  num1 : num;                       (* the literal 1 *)
  num2 : num;                       (* the literal 2 *)
  nadd : num -> num -> num;         (* a + b *)
  nsub : num -> num -> num;         (* a - b *)
  nmul : num -> num -> num;         (* a * b *)
  ndiv : num -> num -> num;         (* a / b *)
  nlt : num -> num -> bool;         (* a < b *)
  Math_max : num -> num -> num;     (* Math.max(a, b) *)
  Math_min : num -> num -> num;     (* Math.min(a, b) *)
  Math_round : num -> num           (* Math.round(a) *)
}.

Declare Scope js_scope.
Delimit Scope js_scope with js.
Notation "a + b" := (nadd a b) : js_scope.
Notation "a - b" := (nsub a b) : js_scope.
Notation "a * b" := (nmul a b) : js_scope.
Notation "a / b" := (ndiv a b) : js_scope.
Notation "a <? b" := (nlt a b) (at level 70, no associativity) : js_scope.
(* [a > b] is [b < a] on numbers, NaN included: both are false there. *)
Notation "a >? b" := (nlt b a) (at level 70, no associativity) : js_scope.

(** ** Data model *)

(** [type BBox = [number, number, number, number]], read [[x1, y1, x2, y2]]. *)
Record BBox (num : Type) : Type := mkBBox {
  x1 : num; y1 : num; x2 : num; y2 : num
}.
Arguments mkBBox {num} x1 y1 x2 y2.
Arguments x1 {num} b.
Arguments y1 {num} b.
Arguments x2 {num} b.
Arguments y2 {num} b.

(** [type Vector2 = [number, number]]. *)
Definition Vector2 (num : Type) : Type := (num * num)%type.

(** [sharp.Region]: [{ left, top, width, height }]. *)
Module Region.
Record t (num : Type) : Type := mk {
  left : num; top : num; width : num; height : num
}.
Arguments mk {num} left top width height.
Arguments left {num} t.
Arguments top {num} t.
Arguments width {num} t.
Arguments height {num} t.
End Region.

(** One element of [FaceDetectionOutput]. *)
Record Face (num : Type) : Type := mkFace {
  embedding : list num;
  bbox : BBox num;
  det_score : num;
  gender : num;
  age : num
}.
Arguments mkFace {num} embedding bbox det_score gender age.
Arguments embedding {num} f.
Arguments bbox {num} f.
Arguments det_score {num} f.
Arguments gender {num} f.
Arguments age {num} f.

(** What a call yields: a value, or a thrown error. *)
Inductive error : Type := TypeError.

Inductive completion (A : Type) : Type :=
| Return (a : A)
| Throw (e : error).
Arguments Return {A} a.
Arguments Throw {A} e.

(** [Array.prototype.reduce] without an initial value: the first element
    starts the accumulator, the callback runs on the rest from left to right,
    and an empty array throws a [TypeError]. *)
Definition reduce {A : Type} (callback : A -> A -> A) (arr : list A) : completion A :=
  match arr with
  | [] => Throw TypeError
  | first :: rest => Return (fold_left callback rest first)
  end.

(** ** The functions of [inference.server.ts] *)

Section Geometry.
Context {num : Type} {N : Number num}.
Local Open Scope js_scope.

Definition getBBoxArea (b : BBox num) : num :=
  (x2 b - x1 b) * (y2 b - y1 b).

Definition extractBiggestFace (faces : list (Face num)) : completion (Face num) :=
  reduce (fun prev curr =>
            let prevArea := getBBoxArea (bbox prev) in
            let currArea := getBBoxArea (bbox curr) in
            if prevArea >? currArea then prev else curr)
         faces.

Definition resizeBBox (b : BBox num) (originalSize newSize : Vector2 num) : BBox num :=
  let new_x1 := (x1 b * fst newSize) / fst originalSize in
  let new_y1 := (y1 b * snd newSize) / snd originalSize in
  let new_x2 := (x2 b * fst newSize) / fst originalSize in
  let new_y2 := (y2 b * snd newSize) / snd originalSize in
  mkBBox new_x1 new_y1 new_x2 new_y2.

Definition clipBBox (b : BBox num) (imageWidth imageHeight : num) : BBox num :=
  let new_x1 := Math_max num0 (Math_min (x1 b) imageWidth) in
  let new_y1 := Math_max num0 (Math_min (y1 b) imageHeight) in
  let new_x2 := Math_max num0 (Math_min (x2 b) imageWidth) in
  let new_y2 := Math_max num0 (Math_min (y2 b) imageHeight) in
  mkBBox new_x1 new_y1 new_x2 new_y2.

Definition cropBBox (b : BBox num) (region : Region.t num) : BBox num :=
  let new_x1 := x1 b - Region.left region in
  let new_y1 := y1 b - Region.top region in
  let new_x2 := x2 b - Region.left region in
  let new_y2 := y2 b - Region.top region in
  clipBBox (mkBBox new_x1 new_y1 new_x2 new_y2) (Region.width region) (Region.height region).

(** The body of the loop of [lerpBBox] at one index. *)
Definition lerp (start end_ alpha : num) : num :=
  start + alpha * (end_ - start).

(** [alphas = [alpha[0], alpha[1], alpha[0], alpha[1]]]; the loop over the
    four indices is written out. *)
Definition lerpBBox (startBox endBox : BBox num) (alpha : Vector2 num) : BBox num :=
  mkBBox (lerp (x1 startBox) (x1 endBox) (fst alpha))
         (lerp (y1 startBox) (y1 endBox) (snd alpha))
         (lerp (x2 startBox) (x2 endBox) (fst alpha))
         (lerp (y2 startBox) (y2 endBox) (snd alpha)).

Definition getBBoxFromAlpha (imageWidth imageHeight boxWidth boxHeight : num)
    (boxAlpha : Vector2 num) : BBox num :=
  let topLeftBox := mkBBox num0 num0 boxWidth boxHeight in
  let bottomRightBox :=
    mkBBox (imageWidth - boxWidth) (imageHeight - boxHeight) imageWidth imageHeight in
  lerpBBox topLeftBox bottomRightBox boxAlpha.

Definition getAlphaFromBBox (b : BBox num) (imageWidth imageHeight : num) : Vector2 num :=
  let sizeX := x2 b - x1 b in
  let sizeY := y2 b - y1 b in
  let alphaX := x1 b / (imageWidth - sizeX) in
  let alphaY := y1 b / (imageHeight - sizeY) in
  (alphaX, alphaY).

(** The four [if]s run in the order of the source; each one reads the
    coordinates the earlier ones left. *)
Definition shiftCoordinates (b : BBox num) (imageWidth imageHeight : num) : BBox num :=
  let bboxWidth := x2 b - x1 b in
  let bboxHeight := y2 b - y1 b in
  let '(x1, x2) := if x1 b <? num0 then (num0, num0 + bboxWidth) else (x1 b, x2 b) in
  let '(y1, y2) := if y1 b <? num0 then (num0, num0 + bboxHeight) else (y1 b, y2 b) in
  let '(x1, x2) := if x2 >? imageWidth then (imageWidth - bboxWidth, imageWidth) else (x1, x2) in
  let '(y1, y2) := if y2 >? imageHeight then (imageHeight - bboxHeight, imageHeight) else (y1, y2) in
  mkBBox x1 y1 x2 y2.

Definition getMaxCropSize (imageWidth imageHeight whAspectRatio : num) : Vector2 num :=
  if imageWidth / imageHeight >? whAspectRatio
  then (imageHeight * whAspectRatio, imageHeight)
  else (imageWidth, imageWidth / whAspectRatio).

(** Rounding of the four fields, as both planners do in their [return]. *)
Definition roundRegion (left_ top_ width height : num) : Region.t num :=
  Region.mk (Math_round left_) (Math_round top_) (Math_round width) (Math_round height).

Definition getResponsiveCropRegion (imageWidth imageHeight whAspectRatio : num)
    (b : BBox num) : Region.t num :=
  let '(cropWidth, cropHeight) := getMaxCropSize imageWidth imageHeight whAspectRatio in
  let topLeftCrop :=
    shiftCoordinates (mkBBox (x2 b - cropWidth) (y2 b - cropHeight) (x2 b) (y2 b))
                     imageWidth imageHeight in
  let bottomRightCrop :=
    shiftCoordinates (mkBBox (x1 b) (y1 b) (x1 b + cropWidth) (y1 b + cropHeight))
                     imageWidth imageHeight in
  let alpha := getAlphaFromBBox b imageWidth imageHeight in
  let middleCrop := lerpBBox bottomRightCrop topLeftCrop alpha in
  roundRegion (x1 middleCrop) (y1 middleCrop) cropWidth cropHeight.

(** [getRelativeCropRegion] up to its [return]: the values of [left], [top],
    [width] and [height] before they are rounded. *)
Definition relativeCrop (imageWidth imageHeight whAspectRatio : num)
    (b : BBox num) (zoom : num) : num * num * num * num :=
  let x := (x1 b + x2 b) / num2 in
  let y := (y1 b + y2 b) / num2 in
  let xp := x / imageWidth in
  let yp := y / imageHeight in
  let '(cropWidth, cropHeight) := getMaxCropSize imageWidth imageHeight whAspectRatio in
  let left_ := x - xp * cropWidth in
  let top_ := y - yp * cropHeight in
  let width := cropWidth in
  let height := cropHeight in
  let zoom := num1 / zoom in
  if zoom <? num1
  then (x - (x - left_) * zoom, y - (y - top_) * zoom, width * zoom, height * zoom)
  else (left_, top_, width, height).

Definition getRelativeCropRegion (imageWidth imageHeight whAspectRatio : num)
    (b : BBox num) (zoom : num) : Region.t num :=
  let '(left_, top_, width, height) :=
    relativeCrop imageWidth imageHeight whAspectRatio b zoom in
  roundRegion left_ top_ width height.

(** The distance the matcher compares: [Math.max(a, ar) / Math.min(a, ar)]. *)
Definition arDistance (ar : num) (res : Vector2 num) : num :=
  let a := fst res / snd res in
  Math_max a ar / Math_min a ar.

Definition getClosestSupportedResolution (imageWidth imageHeight : num)
    (supportedResolutions : list (Vector2 num)) : completion (Vector2 num) :=
  let ar := imageWidth / imageHeight in
  reduce (fun prev curr =>
            let prevRatio := arDistance ar prev in
            let currRatio := arDistance ar curr in
            if prevRatio <? currRatio then prev else curr)
         supportedResolutions.

End Geometry.

(** ** Instance 1: binary64, the arithmetic of the JavaScript engine *)

Module Binary64.

(** [Math.round] on the decoded value [(-1)^s * m * 2^e]: the integer nearest
    to it, a tie going to the larger one, that is [floor (v + 1/2)] computed
    on integers; a value that is already integral, an infinity or NaN is
    returned as it is, and a result of zero keeps the sign of the argument
    (so [Math.round(-0.2)] is [-0]). *)
Definition SFround (x : spec_float) : spec_float :=
  match x with
  | S754_finite s m e =>
      if (0 <=? e)%Z then x
      else
        let n := ((cond_Zopp s (Zpos m) + 2 ^ (- e - 1)) / 2 ^ (- e))%Z in
        match n with
        | Z0 => S754_zero s
        | _ => binary_normalize prec emax n 0 false
        end
  | _ => x
  end.

Definition round (x : float) : float := SF2Prim (SFround (Prim2SF x)).

(** [Math.max]: NaN if an argument is NaN, else the larger argument, [+0]
    counting as larger than [-0]. *)
Definition max (a b : float) : float :=
  if is_nan a || is_nan b then nan
  else if (a <? b)%float then b
  else if (b <? a)%float then a
  else if get_sign a then b else a.

(** [Math.min]: NaN if an argument is NaN, else the smaller argument, [-0]
    counting as smaller than [+0]. *)
Definition min (a b : float) : float :=
  if is_nan a || is_nan b then nan
  else if (a <? b)%float then a
  else if (b <? a)%float then b
  else if get_sign a then a else b.

#[global] Instance number : Number float := {|
  num0 := 0%float;
  num1 := 1%float;
  num2 := 2%float;
  nadd := PrimFloat.add;
  nsub := PrimFloat.sub;
  nmul := PrimFloat.mul;
  ndiv := PrimFloat.div;
  nlt := PrimFloat.ltb;
  Math_max := max;
  Math_min := min;
  Math_round := round
|}.

(** [a == b] on numbers: false on NaN, true on [+0] and [-0]. *)
Definition jseq (a b : float) : Prop := (a =? b)%float = true.

Definition bbox_jseq (a b : BBox float) : Prop :=
  jseq (x1 a) (x1 b) /\ jseq (y1 a) (y1 b) /\ jseq (x2 a) (x2 b) /\ jseq (y2 a) (y2 b).

Definition region_jseq (a b : Region.t float) : Prop :=
  jseq (Region.left a) (Region.left b) /\ jseq (Region.top a) (Region.top b) /\
  jseq (Region.width a) (Region.width b) /\ jseq (Region.height a) (Region.height b).

(** [a <= b] on numbers. *)
Definition jsle (a b : float) : Prop := (a <=? b)%float = true.

End Binary64.

(** ** Instance 2: exact rational arithmetic *)

Module Exact.

(** A rational, or no value: what a division by zero gives, and what every
    operation on it gives again. *)
Abbreviation xnum := (option Q).

Definition lift2 (f : Q -> Q -> Q) (a b : xnum) : xnum :=
  match a, b with
  | Some p, Some q => Some (f p q)
  | _, _ => None
  end.

Definition xdiv (a b : xnum) : xnum :=
  match a, b with
  | Some p, Some q => if Qeq_bool q 0 then None else Some (p / q)%Q
  | _, _ => None
  end.

Definition Qltb (p q : Q) : bool := negb (Qle_bool q p).

Definition xlt (a b : xnum) : bool :=
  match a, b with
  | Some p, Some q => Qltb p q
  | _, _ => false
  end.

Definition Qmax (p q : Q) : Q := if Qltb p q then q else p.
Definition Qmin (p q : Q) : Q := if Qltb p q then p else q.

(** The nearest integer, a tie going to the larger one. *)
Definition Qround (q : Q) : Q := inject_Z (Qfloor (q + (1 # 2))).

#[global] Instance number : Number xnum := {|
  num0 := Some 0%Q;
  num1 := Some 1%Q;
  num2 := Some 2%Q;
  nadd := lift2 Qplus;
  nsub := lift2 Qminus;
  nmul := lift2 Qmult;
  ndiv := xdiv;
  nlt := xlt;
  Math_max := lift2 Qmax;
  Math_min := lift2 Qmin;
  Math_round := option_map Qround
|}.

(** Equality of values: both are defined and equal as rationals. *)
Definition xeq (a b : xnum) : Prop :=
  match a, b with
  | Some p, Some q => (p == q)%Q
  | _, _ => False
  end.

Definition bbox_xeq (a b : BBox xnum) : Prop :=
  xeq (x1 a) (x1 b) /\ xeq (y1 a) (y1 b) /\ xeq (x2 a) (x2 b) /\ xeq (y2 a) (y2 b).

Definition region_xeq (a b : Region.t xnum) : Prop :=
  xeq (Region.left a) (Region.left b) /\ xeq (Region.top a) (Region.top b) /\
  xeq (Region.width a) (Region.width b) /\ xeq (Region.height a) (Region.height b).

(** A box of rationals as a box of values. *)
Definition box (a b c d : Q) : BBox xnum := mkBBox (Some a) (Some b) (Some c) (Some d).

End Exact.

(** ** The order of binary64 values

    [key] sends every value that is not NaN to a triple of integers whose
    lexicographic order is the order [<] of the values; [+0] and [-0] share a
    key.  Order facts about floats then become linear arithmetic on keys. *)

Module FloatOrder.

Local Open Scope Z_scope.

Definition key (f : spec_float) : Z * Z * Z :=
  match f with
  | S754_nan => (0, 0, 0)
  | S754_zero _ => (0, 0, 0)
  | S754_infinity true => (-2, 0, 0)
  | S754_infinity false => (2, 0, 0)
  | S754_finite true m e => (-1, - e, - Zpos m)
  | S754_finite false m e => (1, e, Zpos m)
  end.

Definition klt (a b : Z * Z * Z) : Prop :=
  fst (fst a) < fst (fst b) \/
  (fst (fst a) = fst (fst b) /\
   (snd (fst a) < snd (fst b) \/ (snd (fst a) = snd (fst b) /\ snd a < snd b))).

Definition keq (a b : Z * Z * Z) : Prop :=
  fst (fst a) = fst (fst b) /\ snd (fst a) = snd (fst b) /\ snd a = snd b.

Definition fkey (x : float) : Z * Z * Z := key (Prim2SF x).

Lemma SFltb_key (f g : spec_float) :
  f <> S754_nan -> g <> S754_nan ->
  (SFltb f g = true <-> klt (key f) (key g)).
Proof.
  intros Hf Hg. unfold SFltb, klt.
  destruct f as [[|]|[|]| |[|] m e], g as [[|]|[|]| |[|] m' e'];
    try congruence; cbn;
    try (split; [discriminate | lia]);
    try (split; [lia | reflexivity]);
    change (Pos.compare_cont Eq m m') with (Pos.compare m m');
    destruct (Z.compare_spec e e'); destruct (Pos.compare_spec m m'); cbn;
    split; intros; try discriminate; try reflexivity; lia.
Qed.

Lemma SFeqb_key (f g : spec_float) :
  f <> S754_nan -> g <> S754_nan ->
  (SFeqb f g = true <-> keq (key f) (key g)).
Proof.
  intros Hf Hg. unfold SFeqb, keq.
  destruct f as [[|]|[|]| |[|] m e], g as [[|]|[|]| |[|] m' e'];
    try congruence; cbn;
    try (split; [discriminate | lia]);
    try (split; [lia | reflexivity]);
    change (Pos.compare_cont Eq m m') with (Pos.compare m m');
    destruct (Z.compare_spec e e'); destruct (Pos.compare_spec m m'); cbn;
    split; intros; try discriminate; try reflexivity; lia.
Qed.

Lemma SFleb_key (f g : spec_float) :
  f <> S754_nan -> g <> S754_nan ->
  (SFleb f g = true <-> ~ klt (key g) (key f)).
Proof.
  intros Hf Hg. unfold SFleb, klt.
  destruct f as [[|]|[|]| |[|] m e], g as [[|]|[|]| |[|] m' e'];
    try congruence; cbn;
    try (split; [discriminate | lia]);
    try (split; [lia | reflexivity]);
    change (Pos.compare_cont Eq m m') with (Pos.compare m m');
    destruct (Z.compare_spec e e'); destruct (Pos.compare_spec m m'); cbn;
    split; intros; try discriminate; try reflexivity; lia.
Qed.

Lemma SFcompare_refl (f : spec_float) : f <> S754_nan -> SFcompare f f = Some Eq.
Proof.
  destruct f as [[|]|[|]| |[|] m e]; try congruence; intros _; cbn;
    try reflexivity;
    change (Pos.compare_cont Eq m m) with (Pos.compare m m);
    now rewrite Z.compare_refl, Pos.compare_refl.
Qed.

Lemma is_nan_spec (x : float) : is_nan x = true <-> Prim2SF x = S754_nan.
Proof.
  unfold is_nan. rewrite eqb_spec. unfold SFeqb.
  destruct (Prim2SF x) eqn:E;
    try (rewrite SFcompare_refl by congruence; cbn; split; congruence).
  cbn. now split.
Qed.

Lemma not_nan_spec (x : float) : is_nan x = false <-> Prim2SF x <> S754_nan.
Proof.
  rewrite <- is_nan_spec. destruct (is_nan x); split; congruence.
Qed.

Lemma ltb_key (x y : float) :
  is_nan x = false -> is_nan y = false ->
  ((x <? y)%float = true <-> klt (fkey x) (fkey y)).
Proof.
  intros Hx Hy. rewrite ltb_spec. now apply SFltb_key; apply not_nan_spec.
Qed.

Lemma ltb_key_false (x y : float) :
  is_nan x = false -> is_nan y = false ->
  ((x <? y)%float = false <-> ~ klt (fkey x) (fkey y)).
Proof.
  intros Hx Hy. rewrite <- (ltb_key x y Hx Hy). destruct (x <? y)%float; split; congruence.
Qed.

Lemma leb_key (x y : float) :
  is_nan x = false -> is_nan y = false ->
  ((x <=? y)%float = true <-> ~ klt (fkey y) (fkey x)).
Proof.
  intros Hx Hy. rewrite leb_spec. now apply SFleb_key; apply not_nan_spec.
Qed.

Lemma eqb_key (x y : float) :
  is_nan x = false -> is_nan y = false ->
  ((x =? y)%float = true <-> keq (fkey x) (fkey y)).
Proof.
  intros Hx Hy. rewrite eqb_spec. now apply SFeqb_key; apply not_nan_spec.
Qed.

(** A comparison with NaN is false. *)
Lemma ltb_nan_l (x y : float) : is_nan x = true -> (x <? y)%float = false.
Proof.
  intros H. apply is_nan_spec in H. rewrite ltb_spec, H. reflexivity.
Qed.

Lemma ltb_nan_r (x y : float) : is_nan y = true -> (x <? y)%float = false.
Proof.
  intros H. apply is_nan_spec in H. rewrite ltb_spec, H. unfold SFltb.
  now destruct (Prim2SF x).
Qed.

Lemma leb_nan_l (x y : float) : is_nan x = true -> (x <=? y)%float = false.
Proof.
  intros H. apply is_nan_spec in H. rewrite leb_spec, H. reflexivity.
Qed.

Lemma leb_nan_r (x y : float) : is_nan y = true -> (x <=? y)%float = false.
Proof.
  intros H. apply is_nan_spec in H. rewrite leb_spec, H. unfold SFleb.
  now destruct (Prim2SF x).
Qed.

(** [Math.max] and [Math.min] of two numbers return one of them. *)
Lemma max_cases (a b : float) :
  is_nan a = false -> is_nan b = false ->
  (Binary64.max a b = a /\ ~ klt (fkey a) (fkey b)) \/
  (Binary64.max a b = b /\ ~ klt (fkey b) (fkey a)).
Proof.
  intros Ha Hb. unfold Binary64.max. rewrite Ha, Hb. cbn [orb].
  destruct (a <? b)%float eqn:Hab.
  - right. split; [reflexivity|]. apply (ltb_key a b Ha Hb) in Hab. unfold klt in *. lia.
  - apply (ltb_key_false a b Ha Hb) in Hab.
    destruct (b <? a)%float eqn:Hba.
    + left. now split.
    + apply (ltb_key_false b a Hb Ha) in Hba. destruct (get_sign a); [right|left]; now split.
Qed.

Lemma min_cases (a b : float) :
  is_nan a = false -> is_nan b = false ->
  (Binary64.min a b = a /\ ~ klt (fkey b) (fkey a)) \/
  (Binary64.min a b = b /\ ~ klt (fkey a) (fkey b)).
Proof.
  intros Ha Hb. unfold Binary64.min. rewrite Ha, Hb. cbn [orb].
  destruct (a <? b)%float eqn:Hab.
  - left. split; [reflexivity|]. apply (ltb_key a b Ha Hb) in Hab. unfold klt in *. lia.
  - apply (ltb_key_false a b Ha Hb) in Hab.
    destruct (b <? a)%float eqn:Hba.
    + right. now split.
    + apply (ltb_key_false b a Hb Ha) in Hba. destruct (get_sign a); [left|right]; now split.
Qed.

Lemma max_not_nan (a b : float) :
  is_nan a = false -> is_nan b = false -> is_nan (Binary64.max a b) = false.
Proof.
  intros Ha Hb. destruct (max_cases a b Ha Hb) as [[-> _]|[-> _]]; assumption.
Qed.

Lemma min_not_nan (a b : float) :
  is_nan a = false -> is_nan b = false -> is_nan (Binary64.min a b) = false.
Proof.
  intros Ha Hb. destruct (min_cases a b Ha Hb) as [[-> _]|[-> _]]; assumption.
Qed.

End FloatOrder.

Module FloatArith.

Import FloatOrder.
Local Open Scope Z_scope.

(** ** Special cases of binary64 arithmetic *)

Lemma key_eq_cases (f g : spec_float) :
  f <> S754_nan -> g <> S754_nan -> keq (key f) (key g) ->
  f = g \/ (exists s s', f = S754_zero s /\ g = S754_zero s').
Proof.
  unfold keq.
  destruct f as [[|]|[|]| |[|] m e], g as [[|]|[|]| |[|] m' e'];
    try congruence; cbn; intros _ _ H;
    try (exfalso; lia); try (left; reflexivity); try (right; eauto; fail);
    left; f_equal; lia.
Qed.

Lemma is_zero_spec (x : float) :
  is_zero x = true <-> exists s, Prim2SF x = S754_zero s.
Proof.
  unfold is_zero. rewrite eqb_spec.
  change (Prim2SF zero) with (S754_zero false).
  destruct (Prim2SF x) as [s|s| |s m e]; cbn; split;
    try discriminate; try (intros [? ?]; discriminate); eauto;
    destruct s; discriminate.
Qed.

Lemma is_infinity_spec (x : float) :
  is_infinity x = true <-> exists s, Prim2SF x = S754_infinity s.
Proof.
  unfold is_infinity. rewrite eqb_spec, abs_spec.
  change (Prim2SF infinity) with (S754_infinity false).
  destruct (Prim2SF x) as [s|s| |s m e]; cbn; split;
    try discriminate; try (intros [? ?]; discriminate); eauto.
Qed.

(** A quotient by zero is NaN when the dividend is zero or NaN, and an
    infinity otherwise. *)
Lemma div_by_zero (x d : float) :
  is_zero d = true ->
  (if is_zero x || is_nan x then is_nan (x / d)%float
   else is_infinity (x / d)%float) = true.
Proof.
  intros Hd. apply is_zero_spec in Hd as [s Hd].
  destruct (is_zero x) eqn:Hz.
  - apply is_zero_spec in Hz as [s' Hz]. cbn.
    apply is_nan_spec. now rewrite div_spec, Hz, Hd.
  - destruct (is_nan x) eqn:Hn; cbn.
    + apply is_nan_spec in Hn. apply is_nan_spec. now rewrite div_spec, Hn.
    + apply is_infinity_spec. rewrite div_spec, Hd.
      apply not_nan_spec in Hn.
      destruct (Prim2SF x) as [s'|s'| |s' m e] eqn:E; cbn; eauto; try congruence.
      exfalso. assert (is_zero x = true) by (apply is_zero_spec; eauto). congruence.
Qed.

Lemma is_finite_spec (x : float) :
  is_finite x = true <->
  (exists s, Prim2SF x = S754_zero s) \/ (exists s m e, Prim2SF x = S754_finite s m e).
Proof.
  unfold is_finite.
  destruct (is_nan x) eqn:Hn; cbn [negb orb].
  - apply is_nan_spec in Hn. rewrite Hn. split; [discriminate|].
    intros [[? ?]|[? [? [? ?]]]]; discriminate.
  - apply not_nan_spec in Hn.
    destruct (is_infinity x) eqn:Hi; cbn [negb orb].
    + apply is_infinity_spec in Hi as [s Hi]. rewrite Hi. split; [discriminate|].
      intros [[? ?]|[? [? [? ?]]]]; discriminate.
    + split; [intros _|reflexivity].
      destruct (Prim2SF x) as [s|s| |s m e] eqn:E; eauto 6; try congruence.
      exfalso. assert (is_infinity x = true) by (apply is_infinity_spec; eauto). congruence.
Qed.

Lemma shl_align_same (m : positive) (e : Z) : shl_align m e e = (m, e).
Proof. unfold shl_align. now rewrite Z.sub_diag. Qed.

(** [x - x] is [+0] for a finite [x]. *)
Lemma SFsub_diag (f : spec_float) :
  (exists s, f = S754_zero s) \/ (exists s m e, f = S754_finite s m e) ->
  SF64sub f f = S754_zero false.
Proof.
  intros [[s ->]|[s [m [e ->]]]].
  - now destruct s.
  - unfold SF64sub, SFsub. rewrite Z.min_id, shl_align_same. cbn [fst].
    now rewrite Z.sub_diag.
Qed.

(** The difference of two equal finite numbers is a zero. *)
Lemma sub_eq_zero (x y : float) :
  is_finite x = true -> (x =? y)%float = true -> is_zero (x - y)%float = true.
Proof.
  intros Hx Hxy. apply is_zero_spec. rewrite sub_spec.
  assert (Hnx : is_nan x = false).
  { unfold is_finite in Hx. now destruct (is_nan x). }
  assert (Hny : is_nan y = false).
  { destruct (is_nan y) eqn:E; [|reflexivity].
    apply is_nan_spec in E. rewrite eqb_spec, E in Hxy. unfold SFeqb in Hxy.
    now destruct (Prim2SF x). }
  apply (eqb_key x y Hnx Hny) in Hxy.
  apply key_eq_cases in Hxy; try (now apply not_nan_spec).
  destruct Hxy as [E | [s [s' [E1 E2]]]].
  - rewrite <- E. exists false. apply SFsub_diag. now apply is_finite_spec.
  - rewrite E1, E2. destruct s, s'; cbn; eauto.
Qed.

Lemma mul_zero_l (d : float) :
  is_finite d = true -> is_zero (0 * d)%float = true.
Proof.
  intros Hd. apply is_zero_spec. rewrite mul_spec.
  change (Prim2SF 0) with (S754_zero false).
  apply is_finite_spec in Hd as [[s ->]|[s [m [e ->]]]]; cbn; eauto.
Qed.

Lemma add_zero_r (a z : float) :
  is_nan a = false -> is_zero z = true -> (a + z =? a)%float = true.
Proof.
  intros Ha Hz. apply is_zero_spec in Hz as [s Hz].
  rewrite eqb_spec, add_spec, Hz. apply not_nan_spec in Ha.
  destruct (Prim2SF a) as [[|]|[|]| |[|] m e]; try congruence; destruct s; cbn;
    try reflexivity;
    change (Pos.compare_cont Eq m m) with (Pos.compare m m);
    unfold SFeqb, SFcompare;
    change (Pos.compare_cont Eq m m) with (Pos.compare m m);
    now rewrite Z.compare_refl, Pos.compare_refl.
Qed.

Lemma sub_nan_r (b a : float) : is_nan a = true -> is_nan (b - a)%float = true.
Proof.
  intros H. apply is_nan_spec in H. apply is_nan_spec. rewrite sub_spec, H.
  unfold SF64sub, SFsub. now destruct (Prim2SF b).
Qed.

Lemma is_finite_not_nan (x : float) : is_finite x = true -> is_nan x = false.
Proof. unfold is_finite. now destruct (is_nan x). Qed.

(** Shifting out the fifty-two zero bits that a multiplication by one adds. *)
Lemma shr_52 (m : positive) :
  iter_pos shr_1 52 (Build_shr_record (Zpos (4503599627370496 * m)) false false)
  = Build_shr_record (Zpos m) false false.
Proof. reflexivity. Qed.

Lemma digits_52 (m : positive) :
  Zpos (digits2_pos (4503599627370496 * m)) = (Zpos (digits2_pos m) + 52)%Z.
Proof. cbn. lia. Qed.

(** A multiplication by one returns the other factor, bit for bit. *)
Lemma SFmul_one_l (f : spec_float) :
  valid_binary f = true ->
  SF64mul (S754_finite false 4503599627370496 (-52)) f = f.
Proof.
  destruct f as [s|s| |s m e]; try reflexivity.
  intros Hv. cbn in Hv. unfold bounded, canonical_mantissa in Hv.
  apply andb_prop in Hv as [Hc Hb].
  apply Z.eqb_eq in Hc. apply Z.leb_le in Hb.
  unfold SF64mul, SFmul. cbn [xorb].
  unfold binary_round_aux, shr_fexp.
  cbn [Zdigits2 shr_record_of_loc]. rewrite digits_52.
  replace (Z.pos (digits2_pos m) + 52 + (-52 + e))%Z with (Z.pos (digits2_pos m) + e)%Z by lia.
  rewrite Hc.
  replace (e - (-52 + e))%Z with 52%Z by lia.
  unfold shr at 1. rewrite shr_52.
  cbn [shr_m loc_of_shr_record round_nearest_even Zdigits2].
  replace (-52 + e + 52)%Z with e by lia.
  rewrite Hc, Z.sub_diag. cbn [shr shr_m shr_record_of_loc].
  apply Z.leb_le in Hb. now rewrite Hb.
Qed.

Lemma mul_one_l (d : float) : (1 * d)%float = d.
Proof.
  apply Prim2SF_inj. rewrite mul_spec.
  change (Prim2SF 1) with (S754_finite false 4503599627370496 (-52)).
  apply SFmul_one_l, Prim2SF_valid.
Qed.

End FloatArith.

(** ** Integers in binary64

    Pixel coordinates and image sizes are integers far below 2^53.  On such
    values the sums, differences, products and comparisons of binary64 are
    those of the integers: nothing is rounded. *)

Module FloatInt.

Import FloatOrder FloatArith.
Local Open Scope Z_scope.


Definition Z2SF (z : Z) : spec_float := binary_normalize prec emax z 0 false.
Definition ofZ (z : Z) : float := SF2Prim (Z2SF z).

(** [p] with [k] zero bits appended. *)
Definition shl (p : positive) (k : nat) : positive := Nat.iter k xO p.

(** The mantissa of a positive integer of at most 53 bits: the integer
    padded with zeros to 53 bits. *)
Definition pad (p : positive) : positive :=
  shl p (Z.to_nat (53 - Zpos (digits2_pos p))).

Lemma shl_S (p : positive) (k : nat) : shl p (S k) = xO (shl p k).
Proof. reflexivity. Qed.

Lemma digits_shl (p : positive) (k : nat) :
  Zpos (digits2_pos (shl p k)) = Zpos (digits2_pos p) + Z.of_nat k.
Proof.
  induction k as [|k IH].
  - cbn. lia.
  - rewrite shl_S. cbn [digits2_pos]. rewrite Pos2Z.inj_succ, IH. lia.
Qed.

Lemma Zpos_shl (p : positive) (k : nat) : Zpos (shl p k) = Zpos p * 2 ^ Z.of_nat k.
Proof.
  induction k as [|k IH].
  - cbn. lia.
  - rewrite shl_S, (Pos2Z.inj_xO (shl p k)), IH, Nat2Z.inj_succ, Z.pow_succ_r by lia. ring.
Qed.

Lemma shl_add (p : positive) (j k : nat) : shl (shl p j) k = shl p (j + k).
Proof.
  unfold shl. rewrite Nat.add_comm. symmetry. apply Nat.iter_add.
Qed.

Lemma iter_xO_shl (p k : positive) : Pos.iter xO p k = shl p (Pos.to_nat k).
Proof. unfold shl. now rewrite Pos2Nat.inj_iter. Qed.

Lemma iter_pos_nat {A : Type} (f : A -> A) (n : positive) (x : A) :
  iter_pos f n x = Nat.iter (Pos.to_nat n) f x.
Proof.
  revert x. induction n as [n IH|n IH|]; intros x; cbn [iter_pos].
  - rewrite !IH, Pos2Nat.inj_xI.
    replace (2 * Pos.to_nat n)%nat with (Pos.to_nat n + Pos.to_nat n)%nat by lia.
    now rewrite Nat.iter_succ_r, Nat.iter_add.
  - rewrite !IH, Pos2Nat.inj_xO.
    replace (2 * Pos.to_nat n)%nat with (Pos.to_nat n + Pos.to_nat n)%nat by lia.
    now rewrite Nat.iter_add.
  - reflexivity.
Qed.

(** Shifting out zero bits is exact. *)
Lemma shr_shl (p : positive) (j k : nat) :
  (j <= k)%nat ->
  Nat.iter j shr_1 (Build_shr_record (Zpos (shl p k)) false false)
  = Build_shr_record (Zpos (shl p (k - j))) false false.
Proof.
  induction j as [|j IH]; intros Hjk.
  - now rewrite Nat.sub_0_r.
  - rewrite Nat.iter_succ, IH by lia.
    replace (k - j)%nat with (S (k - S j)) by lia.
    rewrite shl_S. reflexivity.
Qed.

Lemma digits_pad (p : positive) :
  Zpos (digits2_pos p) <= 53 -> Zpos (digits2_pos (pad p)) = 53.
Proof. intros H. unfold pad. rewrite digits_shl. lia. Qed.

Lemma fexp_small (e : Z) : -1021 <= e -> fexp prec emax e = e - 53.
Proof. unfold fexp, FloatOps.emin, SpecFloat.emin, prec, emax. lia. Qed.

(** A mantissa of 53 bits with its exponent in range goes through the
    rounding of [binary_round_aux] unchanged. *)
Lemma binary_round_aux_53 (s : bool) (m : positive) (e : Z) :
  Zpos (digits2_pos m) = 53 -> -1074 <= e <= 971 ->
  binary_round_aux prec emax s (Zpos m) e loc_Exact = S754_finite s m e.
Proof.
  intros Hd He.
  assert (Hf : fexp prec emax (Zpos (digits2_pos m) + e) = e).
  { unfold fexp, FloatOps.emin, SpecFloat.emin, prec, emax. lia. }
  unfold binary_round_aux, shr_fexp.
  cbn [Zdigits2 shr_record_of_loc]. rewrite Hf, Z.sub_diag.
  cbn [shr shr_m loc_of_shr_record round_nearest_even Zdigits2].
  rewrite Hf, Z.sub_diag. cbn [shr shr_m].
  replace (e <=? emax - prec) with true; [reflexivity|].
  symmetry. apply Z.leb_le. unfold emax, prec. lia.
Qed.

(** An integer of at most 53 bits, given with [k] more zero bits and the
    exponent [-k], rounds to itself in canonical form. *)
Lemma binary_round_shl (s : bool) (p : positive) (k : nat) :
  Zpos (digits2_pos p) <= 53 -> (k <= 1000)%nat ->
  binary_round prec emax s (shl p k) (- Z.of_nat k)
  = S754_finite s (pad p) (Zpos (digits2_pos p) - 53).
Proof.
  intros Hd Hk. unfold binary_round.
  pose proof (Pos2Z.is_pos (digits2_pos p)) as Hpos.
  rewrite digits_shl.
  replace (Zpos (digits2_pos p) + Z.of_nat k + - Z.of_nat k) with (Zpos (digits2_pos p)) by lia.
  rewrite fexp_small by lia.
  unfold shl_align.
  destruct (Zpos (digits2_pos p) - 53 - - Z.of_nat k) as [| t | t] eqn:E.
  - (* exactly 53 bits already *)
    rewrite binary_round_aux_53; [|rewrite digits_shl; lia|lia].
    f_equal; [|lia]. unfold pad. f_equal. lia.
  - (* more than 53 bits: the extra zeros are shifted out *)
    unfold binary_round_aux, shr_fexp. cbn [Zdigits2 shr_record_of_loc].
    rewrite digits_shl.
    replace (Zpos (digits2_pos p) + Z.of_nat k + - Z.of_nat k) with (Zpos (digits2_pos p)) by lia.
    rewrite fexp_small by lia. rewrite E. cbn [shr].
    rewrite iter_pos_nat, shr_shl by lia.
    cbn [shr_m loc_of_shr_record round_nearest_even Zdigits2].
    rewrite digits_shl.
    replace (fexp prec emax (Zpos (digits2_pos p) + Z.of_nat (k - Pos.to_nat t)
                             + (- Z.of_nat k + Zpos t)))
      with (- Z.of_nat k + Zpos t)
      by (unfold fexp, FloatOps.emin, SpecFloat.emin, prec, emax; lia).
    rewrite Z.sub_diag. cbn [shr shr_m].
    replace (- Z.of_nat k + Zpos t <=? emax - prec) with true
      by (symmetry; apply Z.leb_le; unfold emax, prec; lia).
    f_equal; [|lia]. unfold pad. f_equal. lia.
  - (* fewer than 53 bits: zeros are appended *)
    rewrite iter_xO_shl, shl_add.
    rewrite binary_round_aux_53; [|rewrite digits_shl; lia|lia].
    f_equal. unfold pad. f_equal. lia.
Qed.

(** *** Digits and size *)

Lemma digits_lower (p : positive) : 2 ^ (Zpos (digits2_pos p) - 1) <= Zpos p.
Proof.
  induction p as [p IH|p IH|]; cbn [digits2_pos].
  - rewrite Pos2Z.inj_succ, (Pos2Z.inj_xI p).
    replace (Z.succ (Zpos (digits2_pos p)) - 1) with (Z.succ (Zpos (digits2_pos p) - 1)) by lia.
    rewrite Z.pow_succ_r by lia. lia.
  - rewrite Pos2Z.inj_succ, (Pos2Z.inj_xO p).
    replace (Z.succ (Zpos (digits2_pos p)) - 1) with (Z.succ (Zpos (digits2_pos p) - 1)) by lia.
    rewrite Z.pow_succ_r by lia. lia.
  - cbn. lia.
Qed.

Lemma digits_upper (p : positive) : Zpos p < 2 ^ Zpos (digits2_pos p).
Proof.
  induction p as [p IH|p IH|]; cbn [digits2_pos].
  - rewrite Pos2Z.inj_succ, (Pos2Z.inj_xI p), Z.pow_succ_r by lia. lia.
  - rewrite Pos2Z.inj_succ, (Pos2Z.inj_xO p), Z.pow_succ_r by lia. lia.
  - cbn. lia.
Qed.

Lemma digits_le_53 (p : positive) : Zpos p < 2 ^ 53 -> Zpos (digits2_pos p) <= 53.
Proof.
  intros H. pose proof (digits_lower p) as L.
  destruct (Z_le_gt_dec (Zpos (digits2_pos p)) 53) as [|G]; [assumption|exfalso].
  assert (2 ^ 53 <= 2 ^ (Zpos (digits2_pos p) - 1)) by (apply Z.pow_le_mono_r; lia).
  lia.
Qed.

Lemma digits_monotone (p q : positive) :
  Zpos p <= Zpos q -> Zpos (digits2_pos p) <= Zpos (digits2_pos q).
Proof.
  intros H. pose proof (digits_lower p) as L. pose proof (digits_upper q) as U.
  destruct (Z_le_gt_dec (Zpos (digits2_pos p)) (Zpos (digits2_pos q))) as [|G];
    [assumption|exfalso].
  assert (2 ^ Zpos (digits2_pos q) <= 2 ^ (Zpos (digits2_pos p) - 1))
    by (apply Z.pow_le_mono_r; lia).
  lia.
Qed.

(** *** The canonical form of an integer below 2^53 *)

(** The integers that binary64 holds without rounding. *)
Definition safe (z : Z) : Prop := - 2 ^ 53 < z < 2 ^ 53.

Lemma Z2SF_pos (p : positive) :
  Zpos p < 2 ^ 53 ->
  Z2SF (Zpos p) = S754_finite false (pad p) (Zpos (digits2_pos p) - 53).
Proof.
  intros H. unfold Z2SF, binary_normalize.
  apply (binary_round_shl false p 0); [now apply digits_le_53 | lia].
Qed.

Lemma Z2SF_neg (p : positive) :
  Zpos p < 2 ^ 53 ->
  Z2SF (Zneg p) = S754_finite true (pad p) (Zpos (digits2_pos p) - 53).
Proof.
  intros H. unfold Z2SF, binary_normalize.
  apply (binary_round_shl true p 0); [now apply digits_le_53 | lia].
Qed.

Lemma Z2SF_opp (z : Z) : safe z -> z <> 0 -> Z2SF (- z) = SFopp (Z2SF z).
Proof.
  unfold safe. intros H Hz. destruct z as [|p|p]; [congruence| |]; cbn [Z.opp].
  - rewrite Z2SF_neg, Z2SF_pos by lia. reflexivity.
  - rewrite Z2SF_neg, Z2SF_pos by lia. reflexivity.
Qed.

Lemma Z2SF_valid (z : Z) : safe z -> valid_binary (Z2SF z) = true.
Proof.
  unfold safe. intros H. destruct z as [|p|p]; [reflexivity| |].
  - rewrite Z2SF_pos by lia. cbn [SpecFloat.valid_binary].
    assert (D := digits_le_53 p ltac:(lia)).
    pose proof (Pos2Z.is_pos (digits2_pos p)).
    unfold bounded, canonical_mantissa. rewrite digits_pad by assumption.
    apply andb_true_intro. split.
    + apply Z.eqb_eq. unfold fexp, FloatOps.emin, SpecFloat.emin, prec, emax. lia.
    + apply Z.leb_le. unfold prec, emax. lia.
  - rewrite Z2SF_neg by lia. cbn [SpecFloat.valid_binary].
    assert (D := digits_le_53 p ltac:(lia)).
    pose proof (Pos2Z.is_pos (digits2_pos p)).
    unfold bounded, canonical_mantissa. rewrite digits_pad by assumption.
    apply andb_true_intro. split.
    + apply Z.eqb_eq. unfold fexp, FloatOps.emin, SpecFloat.emin, prec, emax. lia.
    + apply Z.leb_le. unfold prec, emax. lia.
Qed.

Lemma Prim2SF_ofZ (z : Z) : safe z -> Prim2SF (ofZ z) = Z2SF z.
Proof. intros H. apply Prim2SF_SF2Prim. now apply Z2SF_valid. Qed.

(** An integer below 2^53 given with [K] more zero bits and the exponent
    [-K] normalizes to the canonical form of the integer. *)
Lemma binary_normalize_scaled (n K : Z) :
  safe n -> 0 <= K <= 1000 ->
  binary_normalize prec emax (n * 2 ^ K) (- K) false = Z2SF n.
Proof.
  unfold safe. intros Hn HK.
  destruct n as [|p|p].
  - reflexivity.
  - rewrite Z2SF_pos by lia.
    replace (Zpos p * 2 ^ K) with (Zpos (shl p (Z.to_nat K)))
      by (rewrite Zpos_shl, Z2Nat.id by lia; reflexivity).
    replace (- K) with (- Z.of_nat (Z.to_nat K)) by lia.
    cbn [binary_normalize]. apply binary_round_shl; [apply digits_le_53|]; lia.
  - rewrite Z2SF_neg by lia.
    replace (Zneg p * 2 ^ K) with (Zneg (shl p (Z.to_nat K))).
    2:{ change (Zneg (shl p (Z.to_nat K))) with (- Zpos (shl p (Z.to_nat K))).
        rewrite Zpos_shl, Z2Nat.id by lia. lia. }
    replace (- K) with (- Z.of_nat (Z.to_nat K)) by lia.
    cbn [binary_normalize]. apply binary_round_shl; [apply digits_le_53|]; lia.
Qed.

(** The mantissa of the canonical form, aligned on a smaller exponent, is
    the integer scaled by a power of two. *)
Lemma shl_align_pad (p : positive) (ez : Z) :
  Zpos p < 2 ^ 53 -> -60 <= ez <= Zpos (digits2_pos p) - 53 ->
  Zpos (fst (shl_align (pad p) (Zpos (digits2_pos p) - 53) ez)) = Zpos p * 2 ^ (- ez).
Proof.
  intros Hp He. assert (D := digits_le_53 p Hp).
  unfold shl_align.
  destruct (ez - (Zpos (digits2_pos p) - 53)) as [|t|t] eqn:E; try lia; cbn [fst].
  - unfold pad. rewrite Zpos_shl, Z2Nat.id by lia. f_equal. f_equal. lia.
  - rewrite iter_xO_shl. unfold pad. rewrite shl_add, Zpos_shl.
    f_equal. f_equal. lia.
Qed.

(** *** Addition, subtraction and order of integers below 2^53 *)

(** The sign, mantissa and exponent of the canonical form of a non-zero
    integer. *)
Lemma Z2SF_nonzero (z : Z) :
  safe z -> z <> 0 ->
  exists s p, Zpos p < 2 ^ 53 /\ z = cond_Zopp s (Zpos p) /\
              Z2SF z = S754_finite s (pad p) (Zpos (digits2_pos p) - 53).
Proof.
  unfold safe. intros H Hz. destruct z as [|p|p]; [congruence| |].
  - exists false, p. repeat split; [lia|]. apply Z2SF_pos. lia.
  - exists true, p. repeat split; [lia|]. apply Z2SF_neg. lia.
Qed.

Lemma exponent_range (p : positive) :
  Zpos p < 2 ^ 53 -> -52 <= Zpos (digits2_pos p) - 53 <= 0.
Proof.
  intros H. pose proof (digits_le_53 p H). pose proof (Pos2Z.is_pos (digits2_pos p)). lia.
Qed.

Lemma SFadd_Z2SF (a b : Z) :
  safe a -> safe b -> safe (a + b) ->
  SF64add (Z2SF a) (Z2SF b) = Z2SF (a + b).
Proof.
  intros Ha Hb Hab.
  destruct (Z.eq_dec a 0) as [->|Na].
  { rewrite Z.add_0_l. change (Z2SF 0) with (S754_zero false).
    destruct (Z.eq_dec b 0) as [->|Nb]; [reflexivity|].
    destruct (Z2SF_nonzero b Hb Nb) as (s & p & _ & _ & ->). reflexivity. }
  destruct (Z.eq_dec b 0) as [->|Nb].
  { rewrite Z.add_0_r. change (Z2SF 0) with (S754_zero false).
    destruct (Z2SF_nonzero a Ha Na) as (s & p & _ & _ & ->). reflexivity. }
  destruct (Z2SF_nonzero a Ha Na) as (sa & pa & Hpa & Ea & ->).
  destruct (Z2SF_nonzero b Hb Nb) as (sb & pb & Hpb & Eb & ->).
  pose proof (exponent_range pa Hpa). pose proof (exponent_range pb Hpb).
  unfold SF64add, SFadd.
  set (ez := Z.min (Zpos (digits2_pos pa) - 53) (Zpos (digits2_pos pb) - 53)).
  rewrite (shl_align_pad pa ez), (shl_align_pad pb ez) by (unfold ez; lia).
  replace (cond_Zopp sa (Zpos pa * 2 ^ (- ez)) + cond_Zopp sb (Zpos pb * 2 ^ (- ez)))
    with ((a + b) * 2 ^ (- ez))
    by (rewrite Ea, Eb; destruct sa, sb; cbn [cond_Zopp]; ring).
  replace ez with (- - ez) at 2 by lia.
  apply binary_normalize_scaled; [assumption | unfold ez; lia].
Qed.

Lemma SFsub_Z2SF (a b : Z) :
  safe a -> safe b -> safe (a - b) ->
  SF64sub (Z2SF a) (Z2SF b) = Z2SF (a - b).
Proof.
  intros Ha Hb Hab.
  destruct (Z.eq_dec b 0) as [->|Nb].
  { rewrite Z.sub_0_r. change (Z2SF 0) with (S754_zero false).
    destruct (Z.eq_dec a 0) as [->|Na]; [reflexivity|].
    destruct (Z2SF_nonzero a Ha Na) as (s & p & _ & _ & ->). reflexivity. }
  destruct (Z.eq_dec a 0) as [->|Na].
  { rewrite Z.sub_0_l, Z2SF_opp by assumption.
    change (Z2SF 0) with (S754_zero false).
    destruct (Z2SF_nonzero b Hb Nb) as (s & p & _ & _ & ->). reflexivity. }
  destruct (Z2SF_nonzero a Ha Na) as (sa & pa & Hpa & Ea & ->).
  destruct (Z2SF_nonzero b Hb Nb) as (sb & pb & Hpb & Eb & ->).
  pose proof (exponent_range pa Hpa). pose proof (exponent_range pb Hpb).
  unfold SF64sub, SFsub.
  set (ez := Z.min (Zpos (digits2_pos pa) - 53) (Zpos (digits2_pos pb) - 53)).
  rewrite (shl_align_pad pa ez), (shl_align_pad pb ez) by (unfold ez; lia).
  replace (cond_Zopp sa (Zpos pa * 2 ^ (- ez)) - cond_Zopp sb (Zpos pb * 2 ^ (- ez)))
    with ((a - b) * 2 ^ (- ez))
    by (rewrite Ea, Eb; destruct sa, sb; cbn [cond_Zopp]; ring).
  replace ez with (- - ez) at 2 by lia.
  apply binary_normalize_scaled; [assumption | unfold ez; lia].
Qed.

(** The order of the keys of integers is the order of the integers. *)
Lemma key_Z2SF_lt (a b : Z) :
  safe a -> safe b -> a < b -> klt (key (Z2SF a)) (key (Z2SF b)).
Proof.
  unfold safe. intros Ha Hb Hlt. unfold klt.
  destruct a as [|p|p], b as [|q|q]; try lia;
    rewrite ?Z2SF_pos, ?Z2SF_neg by lia;
    change (Z2SF 0) with (S754_zero false); cbn [key fst snd]; try lia.
  - (* 0 < p < q *)
    pose proof (digits_monotone p q ltac:(lia)) as M.
    assert (Dp := digits_le_53 p ltac:(lia)). assert (Dq := digits_le_53 q ltac:(lia)).
    destruct (Z.eq_dec (Zpos (digits2_pos p)) (Zpos (digits2_pos q))) as [E|E]; [|lia].
    right. split; [reflexivity|]. right. split; [lia|].
    unfold pad. rewrite !Zpos_shl, E.
    apply Z.mul_lt_mono_pos_r; [apply Z.pow_pos_nonneg; lia | lia].
  - (* - p < - q < 0 *)
    pose proof (digits_monotone q p ltac:(lia)) as M.
    assert (Dp := digits_le_53 p ltac:(lia)). assert (Dq := digits_le_53 q ltac:(lia)).
    destruct (Z.eq_dec (Zpos (digits2_pos p)) (Zpos (digits2_pos q))) as [E|E]; [|lia].
    right. split; [reflexivity|]. right. split; [lia|].
    unfold pad.
    change (Zneg (shl p (Z.to_nat (53 - Zpos (digits2_pos p)))))
      with (- Zpos (shl p (Z.to_nat (53 - Zpos (digits2_pos p))))).
    change (Zneg (shl q (Z.to_nat (53 - Zpos (digits2_pos q)))))
      with (- Zpos (shl q (Z.to_nat (53 - Zpos (digits2_pos q))))).
    rewrite !Zpos_shl, E. apply -> Z.opp_lt_mono.
    apply Z.mul_lt_mono_pos_r; [apply Z.pow_pos_nonneg; lia | lia].
Qed.

Lemma Z2SF_not_nan (z : Z) : safe z -> Z2SF z <> S754_nan.
Proof.
  unfold safe. intros H. destruct z as [|p|p].
  - discriminate.
  - rewrite Z2SF_pos by lia. discriminate.
  - rewrite Z2SF_neg by lia. discriminate.
Qed.

(** *** The same at the level of the primitive floats *)

Lemma ofZ_not_nan (z : Z) : safe z -> is_nan (ofZ z) = false.
Proof.
  intros H. apply not_nan_spec. rewrite Prim2SF_ofZ by assumption.
  now apply Z2SF_not_nan.
Qed.

Lemma ofZ_add (a b : Z) :
  safe a -> safe b -> safe (a + b) -> (ofZ a + ofZ b)%float = ofZ (a + b).
Proof.
  intros Ha Hb Hab. apply Prim2SF_inj.
  rewrite add_spec, !Prim2SF_ofZ by assumption. now apply SFadd_Z2SF.
Qed.

Lemma ofZ_sub (a b : Z) :
  safe a -> safe b -> safe (a - b) -> (ofZ a - ofZ b)%float = ofZ (a - b).
Proof.
  intros Ha Hb Hab. apply Prim2SF_inj.
  rewrite sub_spec, !Prim2SF_ofZ by assumption. now apply SFsub_Z2SF.
Qed.

Lemma ofZ_ltb (a b : Z) :
  safe a -> safe b -> (ofZ a <? ofZ b)%float = (a <? b).
Proof.
  intros Ha Hb.
  pose proof (ofZ_not_nan a Ha) as Na. pose proof (ofZ_not_nan b Hb) as Nb.
  destruct (a <? b) eqn:E.
  - apply Z.ltb_lt in E. apply (ltb_key _ _ Na Nb). unfold fkey.
    rewrite !Prim2SF_ofZ by assumption. now apply key_Z2SF_lt.
  - apply Z.ltb_ge in E. apply (ltb_key_false _ _ Na Nb). unfold fkey.
    rewrite !Prim2SF_ofZ by assumption.
    destruct (Z.eq_dec a b) as [->|Hne].
    + unfold klt. lia.
    + pose proof (key_Z2SF_lt b a Hb Ha ltac:(lia)) as K. unfold klt in *. lia.
Qed.

Lemma ofZ_leb (a b : Z) :
  safe a -> safe b -> (ofZ a <=? ofZ b)%float = (a <=? b).
Proof.
  intros Ha Hb.
  pose proof (ofZ_not_nan a Ha) as Na. pose proof (ofZ_not_nan b Hb) as Nb.
  pose proof (ofZ_ltb b a Hb Ha) as L.
  destruct (a <=? b) eqn:E.
  - apply Z.leb_le in E. apply (leb_key _ _ Na Nb).
    apply (ltb_key_false _ _ Nb Na). rewrite L. apply Z.ltb_ge. lia.
  - apply Z.leb_gt in E.
    destruct (ofZ a <=? ofZ b)%float eqn:F; [|reflexivity].
    apply (leb_key _ _ Na Nb) in F. apply (ltb_key_false _ _ Nb Na) in F.
    rewrite L in F. apply Z.ltb_ge in F. lia.
Qed.

Lemma ofZ_0 : ofZ 0 = 0%float.
Proof. reflexivity. Qed.

(** *** Multiplication *)

Lemma binary_round_no_shl (s : bool) (m : positive) (e : Z) :
  e <= fexp prec emax (Zpos (digits2_pos m) + e) ->
  binary_round prec emax s m e = binary_round_aux prec emax s (Zpos m) e loc_Exact.
Proof.
  intros H. unfold binary_round, shl_align.
  destruct (fexp prec emax (Zpos (digits2_pos m) + e) - e) eqn:E; try reflexivity. lia.
Qed.

Lemma digits_mul (p q : positive) :
  Zpos (digits2_pos p) + Zpos (digits2_pos q) - 1 <= Zpos (digits2_pos (p * q)).
Proof.
  pose proof (digits_lower p) as Lp. pose proof (digits_lower q) as Lq.
  pose proof (digits_upper (p * q)) as U.
  pose proof (Pos2Z.is_pos (digits2_pos p)). pose proof (Pos2Z.is_pos (digits2_pos q)).
  destruct (Z_le_gt_dec (Zpos (digits2_pos p) + Zpos (digits2_pos q) - 1)
                        (Zpos (digits2_pos (p * q)))) as [|G]; [assumption|exfalso].
  assert (E : 2 ^ (Zpos (digits2_pos p) - 1) * 2 ^ (Zpos (digits2_pos q) - 1)
              = 2 ^ (Zpos (digits2_pos p) + Zpos (digits2_pos q) - 2)).
  { rewrite <- Z.pow_add_r by lia. f_equal. lia. }
  assert (M : 2 ^ Zpos (digits2_pos (p * q))
              <= 2 ^ (Zpos (digits2_pos p) + Zpos (digits2_pos q) - 2))
    by (apply Z.pow_le_mono_r; lia).
  rewrite Pos2Z.inj_mul in U.
  assert (2 ^ (Zpos (digits2_pos p) - 1) * 2 ^ (Zpos (digits2_pos q) - 1)
          <= Zpos p * Zpos q).
  { apply Z.mul_le_mono_nonneg; try assumption; apply Z.pow_nonneg; lia. }
  lia.
Qed.

(** The product of two non-zero integers, when it is below 2^53. *)
Lemma SFmul_Z2SF (a b : Z) :
  safe a -> safe b -> safe (a * b) -> a <> 0 -> b <> 0 ->
  SF64mul (Z2SF a) (Z2SF b) = Z2SF (a * b).
Proof.
  intros Ha Hb Hab Na Nb.
  destruct (Z2SF_nonzero a Ha Na) as (sa & pa & Hpa & Ea & ->).
  destruct (Z2SF_nonzero b Hb Nb) as (sb & pb & Hpb & Eb & ->).
  assert (Hp : Zpos (pa * pb) < 2 ^ 53).
  { unfold safe in Hab. rewrite Ea, Eb in Hab. rewrite Pos2Z.inj_mul.
    destruct sa, sb; cbn [cond_Zopp] in Hab; lia. }
  assert (Eab : a * b = cond_Zopp (xorb sa sb) (Zpos (pa * pb))).
  { rewrite Ea, Eb, Pos2Z.inj_mul. destruct sa, sb; cbn [cond_Zopp xorb]; lia. }
  assert (Da := digits_le_53 pa Hpa). assert (Db := digits_le_53 pb Hpb).
  assert (Dab := digits_le_53 (pa * pb) Hp).
  pose proof (digits_mul pa pb) as Dm.
  pose proof (Pos2Z.is_pos (digits2_pos pa)). pose proof (Pos2Z.is_pos (digits2_pos pb)).
  pose proof (Pos2Z.is_pos (digits2_pos (pa * pb))).
  set (k := (Z.to_nat (53 - Zpos (digits2_pos pa)) + Z.to_nat (53 - Zpos (digits2_pos pb)))%nat).
  assert (Em : (pad pa * pad pb)%positive = shl (pa * pb) k).
  { apply Pos2Z.inj. unfold pad, k.
    rewrite Pos2Z.inj_mul, !Zpos_shl, Pos2Z.inj_mul, Nat2Z.inj_add, Z.pow_add_r by lia.
    ring. }
  unfold SF64mul, SFmul. rewrite Em.
  replace (Zpos (digits2_pos pa) - 53 + (Zpos (digits2_pos pb) - 53))
    with (- Z.of_nat k) by (unfold k; lia).
  rewrite <- binary_round_no_shl.
  - rewrite binary_round_shl by (unfold k; lia).
    rewrite Eab. destruct (xorb sa sb); cbn [cond_Zopp].
    + change (- Zpos (pa * pb)) with (Zneg (pa * pb)). now rewrite Z2SF_neg.
    + now rewrite Z2SF_pos.
  - rewrite digits_shl.
    unfold fexp, FloatOps.emin, SpecFloat.emin, prec, emax, k. lia.
Qed.

Lemma ofZ_mul (a b : Z) :
  safe a -> safe b -> safe (a * b) -> a <> 0 -> b <> 0 ->
  (ofZ a * ofZ b)%float = ofZ (a * b).
Proof.
  intros Ha Hb Hab Na Nb. apply Prim2SF_inj.
  rewrite mul_spec, !Prim2SF_ofZ by assumption. now apply SFmul_Z2SF.
Qed.

Lemma ofZ_is_finite (z : Z) : safe z -> is_finite (ofZ z) = true.
Proof.
  intros H. apply is_finite_spec. rewrite Prim2SF_ofZ by assumption.
  destruct (Z.eq_dec z 0) as [->|N].
  - left. now exists false.
  - right. destruct (Z2SF_nonzero z H N) as (s & p & _ & _ & ->). eauto.
Qed.

End FloatInt.

(** ** Boxes of integer pixel coordinates in binary64 *)

Module Pixels.

Import FloatOrder FloatArith FloatInt.
Local Open Scope Z_scope.

(** A coordinate or size in pixels: an integer of magnitude at most 2^51,
    so that sums and differences of two of them stay below 2^53. *)
Definition pixel (z : Z) : Prop := - 2 ^ 51 <= z <= 2 ^ 51.

Definition Zbox (a b c d : Z) : BBox float := mkBBox (ofZ a) (ofZ b) (ofZ c) (ofZ d).

Lemma pixel_safe (z : Z) : pixel z -> safe z.
Proof. unfold pixel, safe. lia. Qed.

Lemma pixel_sub_safe (a b : Z) : pixel a -> pixel b -> safe (a - b).
Proof. unfold pixel, safe. lia. Qed.

Lemma pixel_add_safe (a b : Z) : pixel a -> pixel b -> safe (a + b).
Proof. unfold pixel, safe. lia. Qed.

Lemma ofZ_max (a b : Z) :
  safe a -> safe b -> Binary64.max (ofZ a) (ofZ b) = ofZ (Z.max a b).
Proof.
  intros Ha Hb. unfold Binary64.max.
  rewrite (ofZ_not_nan a Ha), (ofZ_not_nan b Hb), !ofZ_ltb by assumption. cbn [orb].
  destruct (a <? b) eqn:E1.
  - apply Z.ltb_lt in E1. now rewrite Z.max_r by lia.
  - apply Z.ltb_ge in E1. destruct (b <? a) eqn:E2.
    + apply Z.ltb_lt in E2. now rewrite Z.max_l by lia.
    + apply Z.ltb_ge in E2. assert (a = b) by lia. subst b.
      rewrite Z.max_id. now destruct (get_sign (ofZ a)).
Qed.

Lemma ofZ_min (a b : Z) :
  safe a -> safe b -> Binary64.min (ofZ a) (ofZ b) = ofZ (Z.min a b).
Proof.
  intros Ha Hb. unfold Binary64.min.
  rewrite (ofZ_not_nan a Ha), (ofZ_not_nan b Hb), !ofZ_ltb by assumption. cbn [orb].
  destruct (a <? b) eqn:E1.
  - apply Z.ltb_lt in E1. now rewrite Z.min_l by lia.
  - apply Z.ltb_ge in E1. destruct (b <? a) eqn:E2.
    + apply Z.ltb_lt in E2. now rewrite Z.min_r by lia.
    + apply Z.ltb_ge in E2. assert (a = b) by lia. subst b.
      rewrite Z.min_id. now destruct (get_sign (ofZ a)).
Qed.

Lemma mul_zero_r (d : float) :
  is_finite d = true -> is_zero (d * 0)%float = true.
Proof.
  intros Hd. apply is_zero_spec. rewrite mul_spec.
  change (Prim2SF 0) with (S754_zero false).
  apply is_finite_spec in Hd as [[s ->]|[s [m [e ->]]]]; cbn; eauto.
Qed.

(** The product of two integers one of which is zero is a zero. *)
Lemma ofZ_mul_zero (a b : Z) :
  safe a -> safe b -> a = 0 \/ b = 0 -> is_zero (ofZ a * ofZ b)%float = true.
Proof.
  intros Ha Hb [-> | ->].
  - apply mul_zero_l. now apply ofZ_is_finite.
  - apply mul_zero_r. now apply ofZ_is_finite.
Qed.

End Pixels.


(** ** Binary64 beyond the integers: values and rounding errors

    The value of a finite binary64 number as a rational, and the error of a
    division, a multiplication and a subtraction of positive normal numbers:
    each result is within [2^-52] of the exact one, relatively. *)

Module FloatValue.

Import FloatOrder FloatArith FloatInt.
Local Open Scope Z_scope.


(** *** Shifting right *)

Lemma shr_1_m (r : shr_record) : 0 <= shr_m r -> shr_m (shr_1 r) = shr_m r / 2.
Proof.
  destruct r as [m b c]. cbn [shr_m]. intros H.
  destruct m as [|p|p]; [reflexivity| |lia].
  destruct p as [p|p|]; cbn [shr_1 shr_m].
  - rewrite (Pos2Z.inj_xI p). apply Z.div_unique with (r := 1); lia.
  - rewrite (Pos2Z.inj_xO p). apply Z.div_unique with (r := 0); lia.
  - reflexivity.
Qed.

Lemma shr_nat_m (n : nat) (r : shr_record) :
  0 <= shr_m r -> shr_m (Nat.iter n shr_1 r) = shr_m r / 2 ^ Z.of_nat n.
Proof.
  intros H. induction n as [|n IH].
  - cbn. now rewrite Z.div_1_r.
  - rewrite Nat.iter_succ, shr_1_m, IH.
    + rewrite Nat2Z.inj_succ, Z.pow_succ_r, Z.div_div by lia. f_equal. lia.
    + rewrite IH. apply Z.div_pos; [assumption|]. apply Z.pow_pos_nonneg; lia.
Qed.

(** The mantissa and exponent after [shr]. *)
Lemma shr_m_e (r : shr_record) (e k : Z) :
  0 <= shr_m r -> 0 <= k ->
  shr_m (fst (shr r e k)) = shr_m r / 2 ^ k /\ snd (shr r e k) = e + k.
Proof.
  intros Hm Hk. unfold shr. destruct k as [|p|p]; try lia; cbn [fst snd].
  - rewrite Z.div_1_r. split; [reflexivity|lia].
  - rewrite iter_pos_nat, shr_nat_m, positive_nat_Z by assumption. split; reflexivity.
Qed.

Lemma shr_record_of_loc_m (m : Z) (l : location) : shr_m (shr_record_of_loc m l) = m.
Proof. destruct l as [|[| |]]; reflexivity. Qed.

(** The number of digits is determined by the binade. *)
Lemma digits_unique (p : positive) (n : Z) :
  2 ^ (n - 1) <= Zpos p < 2 ^ n -> Zpos (digits2_pos p) = n.
Proof.
  intros [L U]. pose proof (digits_lower p) as L'. pose proof (digits_upper p) as U'.
  pose proof (Pos2Z.is_pos (digits2_pos p)) as P.
  assert (0 < n).
  { destruct (Z_lt_le_dec 0 n); [assumption|exfalso].
    rewrite (Z.pow_neg_r 2 (n - 1)) in L by lia.
    destruct (Z.eq_dec n 0) as [->|]; [cbn in U; lia|].
    rewrite (Z.pow_neg_r 2 n) in U by lia. lia. }
  destruct (Z.lt_trichotomy (Zpos (digits2_pos p)) n) as [Hlt|[Heq|Hgt]];
    [exfalso|assumption|exfalso].
  - assert (2 ^ Zpos (digits2_pos p) <= 2 ^ (n - 1)) by (apply Z.pow_le_mono_r; lia). lia.
  - assert (2 ^ n <= 2 ^ (Zpos (digits2_pos p) - 1)) by (apply Z.pow_le_mono_r; lia). lia.
Qed.

Lemma round_nearest_even_cases (m : Z) (l : location) :
  round_nearest_even m l = m \/ round_nearest_even m l = m + 1.
Proof.
  destruct l as [|[| |]]; cbn; auto. destruct (Z.even m); auto.
Qed.

(** *** The result of [binary_round_aux]

    A mantissa [m] of [d >= 53] digits with exponent [e] and any location is
    rounded to a mantissa of 53 digits whose value is [m / 2^(d-53)],
    rounded down, or that plus one, in units of [2^(d+e-53)]. *)
Lemma binary_round_aux_bracket (s : bool) (m : positive) (e : Z) (l : location) :
  let d := Zpos (digits2_pos m) in
  let g := d + e - 53 in
  let q := Zpos m / 2 ^ (d - 53) in
  53 <= d -> -1021 <= d + e <= 1023 ->
  exists mr er,
    binary_round_aux prec emax s (Zpos m) e l = S754_finite s mr er /\
    Zpos (digits2_pos mr) = 53 /\
    (er = g \/ er = g + 1) /\
    (Zpos mr * 2 ^ (er - g) = q \/ Zpos mr * 2 ^ (er - g) = q + 1).
Proof.
  intros d g q Hd He.
  pose proof (digits_lower m) as Lm. pose proof (digits_upper m) as Um. fold d in Lm, Um.
  assert (Hq : 2 ^ 52 <= q < 2 ^ 53).
  { unfold q. split.
    - apply Z.div_le_lower_bound; [apply Z.pow_pos_nonneg; lia|].
      rewrite <- Z.pow_add_r by lia. replace (d - 53 + 52) with (d - 1) by lia. assumption.
    - apply Z.div_lt_upper_bound; [apply Z.pow_pos_nonneg; lia|].
      rewrite <- Z.pow_add_r by lia. replace (d - 53 + 53) with d by lia. assumption. }
  unfold binary_round_aux, shr_fexp. cbn [Zdigits2]. fold d.
  replace (fexp prec emax (d + e) - e) with (d - 53)
    by (unfold fexp, FloatOps.emin, SpecFloat.emin, prec, emax; lia).
  destruct (shr_m_e (shr_record_of_loc (Zpos m) l) e (d - 53)) as [E1 E2];
    [rewrite shr_record_of_loc_m; lia | lia |].
  rewrite shr_record_of_loc_m in E1. fold q in E1.
  destruct (shr (shr_record_of_loc (Zpos m) l) e (d - 53)) as [mrs' e'].
  cbn [fst snd] in E1, E2. subst e'. rewrite E1.
  replace (e + (d - 53)) with g by (unfold g; lia).
  set (mr0 := round_nearest_even q (loc_of_shr_record mrs')).
  assert (Hr : mr0 = q \/ mr0 = q + 1) by apply round_nearest_even_cases.
  destruct (Z.eq_dec mr0 (2 ^ 53)) as [Etop|Ntop].
  - (* the rounding carried into a 54th bit *)
    rewrite Etop. change (2 ^ 53) with 9007199254740992.
    change (Zdigits2 9007199254740992) with 54.
    replace (fexp prec emax (54 + g) - g) with 1
      by (unfold fexp, FloatOps.emin, SpecFloat.emin, prec, emax; unfold g; lia).
    change (shr (shr_record_of_loc 9007199254740992 loc_Exact) g 1)
      with (Build_shr_record 4503599627370496 false false, g + 1).
    cbn [shr_m].
    replace (g + 1 <=? emax - prec) with true
      by (symmetry; apply Z.leb_le; unfold emax, prec, g; lia).
    exists 4503599627370496%positive, (g + 1). split; [reflexivity|].
    split; [reflexivity|]. split; [now right|].
    replace (g + 1 - g) with 1 by lia.
    change (4503599627370496 * 2 ^ 1) with (2 ^ 53). rewrite <- Etop. lia.
  - assert (Hm : 2 ^ 52 <= mr0 < 2 ^ 53) by lia.
    destruct mr0 as [|pr|pr] eqn:Epr; try lia.
    assert (Dr : Zpos (digits2_pos pr) = 53) by (apply digits_unique; lia).
    cbn [Zdigits2]. rewrite Dr.
    replace (fexp prec emax (53 + g) - g) with 0
      by (unfold fexp, FloatOps.emin, SpecFloat.emin, prec, emax; unfold g; lia).
    cbn [shr fst snd shr_m shr_record_of_loc].
    replace (g <=? emax - prec) with true
      by (symmetry; apply Z.leb_le; unfold emax, prec, g; lia).
    exists pr, g. split; [reflexivity|]. split; [assumption|]. split; [now left|].
    rewrite Z.sub_diag, Z.pow_0_r, Z.mul_1_r. assumption.
Qed.

(** *** Values *)

Local Open Scope Q_scope.

(** The rational that a finite binary64 value stands for. *)
Definition SF2Q (f : spec_float) : Q :=
  match f with
  | S754_finite s m e => (if s then -1 else 1) * inject_Z (Zpos m) * 2 ^ e
  | _ => 0
  end.

Definition F2Q (x : float) : Q := SF2Q (Prim2SF x).

Lemma pow2_pos (e : Z) : 0 < 2 ^ e.
Proof. apply Qpower_0_lt. reflexivity. Qed.

Lemma pow2_add (a b : Z) : 2 ^ (a + b) == 2 ^ a * 2 ^ b.
Proof. apply Qpower_plus. discriminate. Qed.

Lemma pow2_Z (n : Z) : (0 <= n)%Z -> inject_Z (2 ^ n) == 2 ^ n.
Proof. intros H. now rewrite Zpower_Qpower. Qed.

Lemma pow2_le (a b : Z) : (a <= b)%Z -> 2 ^ a <= 2 ^ b.
Proof. intros H. apply Qpower_le_compat_l; [assumption|discriminate]. Qed.

Lemma pow2_sub (a b : Z) : 2 ^ (a - b) == 2 ^ a / 2 ^ b.
Proof.
  unfold Z.sub. rewrite pow2_add, Qpower_opp. reflexivity.
Qed.

(** The rounded value in relative terms: any exact value [v] between
    [m * 2^e] and [(m + 1) * 2^e] is met within [2^-52 * v]. *)
Lemma binary_round_aux_relative (s : bool) (m : positive) (e : Z) (l : location) (v : Q) :
  let d := Zpos (digits2_pos m) in
  (53 <= d)%Z -> (-1021 <= d + e <= 1023)%Z ->
  inject_Z (Zpos m) * 2 ^ e <= v <= inject_Z (Zpos m + 1) * 2 ^ e ->
  exists mr er,
    binary_round_aux prec emax s (Zpos m) e l = S754_finite s mr er /\
    Zpos (digits2_pos mr) = 53%Z /\
    (er = d + e - 53 \/ er = d + e - 52)%Z /\
    Qabs (inject_Z (Zpos mr) * 2 ^ er - v) <= 2 ^ (-52) * v.
Proof.
  intros d Hd He [Hlo Hhi].
  destruct (binary_round_aux_bracket s m e l Hd He) as (mr & er & E & D & Her & Hv).
  fold d in Her, Hv.
  set (g := (d + e - 53)%Z) in *. set (k := (d - 53)%Z) in *.
  set (q := (Zpos m / 2 ^ k)%Z) in *.
  exists mr, er. split; [assumption|]. split; [assumption|].
  split; [unfold g in Her; lia|].
  (* bounds on q *)
  assert (Pk : (0 < 2 ^ k)%Z) by (apply Z.pow_pos_nonneg; unfold k; lia).
  assert (Q1 : (q * 2 ^ k <= Zpos m)%Z).
  { unfold q. rewrite Z.mul_comm. apply Z.mul_div_le. assumption. }
  assert (Q2 : (Zpos m + 1 <= (q + 1) * 2 ^ k)%Z).
  { unfold q. pose proof (Z.mod_pos_bound (Zpos m) (2 ^ k) Pk).
    pose proof (Z.div_mod (Zpos m) (2 ^ k) ltac:(lia)). nia. }
  pose proof (digits_lower m) as Lm. fold d in Lm.
  assert (Q3 : (2 ^ 52 <= q)%Z).
  { unfold q. apply Z.div_le_lower_bound; [assumption|].
    rewrite <- Z.pow_add_r by (unfold k; lia).
    replace (k + 52)%Z with (d - 1)%Z by (unfold k; lia). assumption. }
  (* the same in Q, in units of 2^g *)
  assert (Eg : 2 ^ g == 2 ^ e * inject_Z (2 ^ k)).
  { rewrite pow2_Z by (unfold k; lia). rewrite <- pow2_add. unfold g, k.
    replace (d + e - 53)%Z with (e + (d - 53))%Z by lia. reflexivity. }
  pose proof (pow2_pos e) as Pe. pose proof (pow2_pos g) as Pg.
  assert (V1 : inject_Z q * 2 ^ g <= inject_Z (Zpos m) * 2 ^ e).
  { rewrite Eg. rewrite Zle_Qle, inject_Z_mult in Q1.
    setoid_replace (inject_Z q * (2 ^ e * inject_Z (2 ^ k)))
      with (inject_Z q * inject_Z (2 ^ k) * 2 ^ e) by ring.
    apply Qmult_le_compat_r; [assumption|lra]. }
  assert (V2 : inject_Z (Zpos m + 1) * 2 ^ e <= inject_Z (q + 1) * 2 ^ g).
  { rewrite Eg. rewrite Zle_Qle, inject_Z_mult in Q2.
    setoid_replace (inject_Z (q + 1) * (2 ^ e * inject_Z (2 ^ k)))
      with (inject_Z (q + 1) * inject_Z (2 ^ k) * 2 ^ e) by ring.
    apply Qmult_le_compat_r; [assumption|lra]. }
  assert (V3 : 2 ^ 52 * 2 ^ g <= inject_Z q * 2 ^ g).
  { apply Qmult_le_compat_r; [|lra].
    rewrite Zle_Qle in Q3. rewrite pow2_Z in Q3 by lia. assumption. }
  assert (Er : inject_Z (Zpos mr) * 2 ^ er == inject_Z (Zpos mr * 2 ^ (er - g)) * 2 ^ g).
  { rewrite inject_Z_mult, pow2_Z by lia.
    setoid_replace (inject_Z (Zpos mr) * 2 ^ (er - g) * 2 ^ g)
      with (inject_Z (Zpos mr) * (2 ^ (er - g) * 2 ^ g)) by ring.
    rewrite <- pow2_add. replace (er - g + g)%Z with er by lia. reflexivity. }
  assert (Hu : 2 ^ g <= 2 ^ (-52) * v).
  { assert (E52 : 2 ^ (-52) * (2 ^ 52 * 2 ^ g) == 2 ^ g).
    { rewrite Qmult_assoc, <- pow2_add. change (2 ^ (-52 + 52)) with 1. ring. }
    rewrite <- E52 at 1.
    apply Qmult_le_l; [apply pow2_pos|]. lra. }
  assert (V2' : v <= inject_Z q * 2 ^ g + 2 ^ g).
  { apply Qle_trans with (1 := Hhi). apply Qle_trans with (1 := V2).
    rewrite inject_Z_plus. change (inject_Z 1) with 1. apply Qle_lteq. right. ring. }
  assert (V1' : inject_Z q * 2 ^ g <= v) by (apply Qle_trans with (1 := V1); assumption).
  apply Qabs_Qle_condition. rewrite Er.
  destruct Hv as [-> | ->].
  - set (A := inject_Z q * 2 ^ g) in *. set (G := 2 ^ g) in *.
    set (U := 2 ^ (-52) * v) in *. split; lra.
  - rewrite inject_Z_plus. change (inject_Z 1) with 1.
    setoid_replace ((inject_Z q + 1) * 2 ^ g) with (inject_Z q * 2 ^ g + 2 ^ g) by ring.
    set (A := inject_Z q * 2 ^ g) in *. set (G := 2 ^ g) in *.
    set (U := 2 ^ (-52) * v) in *. split; lra.
Qed.

(** *** Positive normal numbers *)

(** [x] is a positive normal number whose exponent lies within [r] of 0. *)
Definition PN (r : Z) (x : float) : Prop :=
  exists m e, Prim2SF x = S754_finite false m e /\
              Zpos (digits2_pos m) = 53%Z /\ (- r <= e <= r)%Z.

Lemma PN_value (r : Z) (x : float) : PN r x -> 0 < F2Q x.
Proof.
  intros (m & e & E & _ & _). unfold F2Q. rewrite E. cbn [SF2Q].
  apply Qmult_lt_0_compat; [|apply pow2_pos]. reflexivity.
Qed.

Lemma PN_weaken (r r' : Z) (x : float) : (r <= r')%Z -> PN r x -> PN r' x.
Proof.
  intros H (m & e & E & D & He). exists m, e. repeat split; trivial; lia.
Qed.

Lemma digits_53_bounds (m : positive) :
  Zpos (digits2_pos m) = 53%Z -> (2 ^ 52 <= Zpos m < 2 ^ 53)%Z.
Proof.
  intros D. pose proof (digits_lower m) as L. pose proof (digits_upper m) as U.
  rewrite D in L, U. exact (conj L U).
Qed.

Lemma digits_ge (p : positive) (n : Z) :
  (2 ^ (n - 1) <= Zpos p)%Z -> (n <= Zpos (digits2_pos p))%Z.
Proof.
  intros H. pose proof (digits_upper p) as U.
  destruct (Z_le_gt_dec n (Zpos (digits2_pos p))) as [|G]; [assumption|exfalso].
  assert (2 ^ Zpos (digits2_pos p) <= 2 ^ (n - 1))%Z by (apply Z.pow_le_mono_r; lia).
  lia.
Qed.

Lemma digits_le (p : positive) (n : Z) :
  (0 <= n)%Z -> (Zpos p < 2 ^ n)%Z -> (Zpos (digits2_pos p) <= n)%Z.
Proof.
  intros Hn H. pose proof (digits_lower p) as L.
  destruct (Z_le_gt_dec (Zpos (digits2_pos p)) n) as [|G]; [assumption|exfalso].
  assert (2 ^ n <= 2 ^ (Zpos (digits2_pos p) - 1))%Z by (apply Z.pow_le_mono_r; lia).
  lia.
Qed.

(** *** Division *)

Lemma SFdiv_core_53 (m1 m2 : positive) (e1 e2 : Z) :
  Zpos (digits2_pos m1) = 53%Z -> Zpos (digits2_pos m2) = 53%Z ->
  (-1021 <= e1 - e2)%Z ->
  SFdiv_core_binary prec emax (Zpos m1) e1 (Zpos m2) e2
  = ((Zpos m1 * 2 ^ 53 / Zpos m2)%Z, (e1 - e2 - 53)%Z,
     new_location (Zpos m2) ((Zpos m1 * 2 ^ 53) mod Zpos m2)%Z).
Proof.
  intros D1 D2 He. unfold SFdiv_core_binary. cbn [Zdigits2]. rewrite D1, D2.
  replace (Z.min (fexp prec emax (53 + e1 - (53 + e2))) (e1 - e2))%Z with (e1 - e2 - 53)%Z
    by (unfold fexp, FloatOps.emin, SpecFloat.emin, prec, emax; lia).
  replace (e1 - e2 - (e1 - e2 - 53))%Z with 53%Z by lia.
  rewrite Z.shiftl_mul_pow2 by lia.
  unfold Z.div, Z.modulo.
  destruct (Z.div_eucl (Zpos m1 * 2 ^ 53) (Zpos m2)). reflexivity.
Qed.

Lemma div_relative (r1 r2 : Z) (x y : float) :
  PN r1 x -> PN r2 y -> (0 <= r1)%Z -> (0 <= r2)%Z -> (r1 + r2 <= 900)%Z ->
  PN (r1 + r2 + 53) (x / y)%float /\
  Qabs (F2Q (x / y)%float - F2Q x / F2Q y) <= 2 ^ (-52) * (F2Q x / F2Q y).
Proof.
  intros (m1 & e1 & E1 & D1 & R1) (m2 & e2 & E2 & D2 & R2) P1 P2 Hr.
  unfold PN, F2Q. rewrite div_spec, E1, E2. unfold SF64div, SFdiv.
  rewrite SFdiv_core_53 by (trivial; lia). cbn [xorb SF2Q].
  destruct (digits_53_bounds m1 D1) as [L1 U1]. destruct (digits_53_bounds m2 D2) as [L2 U2].
  set (q := (Zpos m1 * 2 ^ 53 / Zpos m2)%Z).
  assert (Hq1 : (q * Zpos m2 <= Zpos m1 * 2 ^ 53)%Z).
  { unfold q. rewrite Z.mul_comm. apply Z.mul_div_le. lia. }
  assert (Hq2 : (Zpos m1 * 2 ^ 53 < (q + 1) * Zpos m2)%Z).
  { unfold q. pose proof (Z.mod_pos_bound (Zpos m1 * 2 ^ 53) (Zpos m2) ltac:(lia)).
    pose proof (Z.div_mod (Zpos m1 * 2 ^ 53) (Zpos m2) ltac:(lia)). nia. }
  assert (Hq3 : (2 ^ 52 <= q)%Z).
  { unfold q. apply Z.div_le_lower_bound; [lia|]. nia. }
  assert (Hq4 : (q < 2 ^ 54)%Z).
  { unfold q. apply Z.div_lt_upper_bound; [lia|]. nia. }
  destruct q as [|pq|pq] eqn:Eq; try lia.
  assert (Dq1 : (53 <= Zpos (digits2_pos pq))%Z) by (apply digits_ge; exact Hq3).
  assert (Dq2 : (Zpos (digits2_pos pq) <= 54)%Z) by (apply digits_le; lia).
  set (v := 1 * inject_Z (Zpos m1) * 2 ^ e1 / (1 * inject_Z (Zpos m2) * 2 ^ e2)).
  assert (Ev : v == inject_Z (Zpos m1 * 2 ^ 53) / inject_Z (Zpos m2) * 2 ^ (e1 - e2 - 53)).
  { unfold v. rewrite inject_Z_mult, pow2_Z by lia.
    replace (e1 - e2 - 53)%Z with (e1 + (- e2 + -53))%Z by lia.
    rewrite !pow2_add, !Qpower_opp.
    pose proof (pow2_pos e2) as Pe2. pose proof (pow2_pos 53) as P53.
    assert (Nm2 : ~ inject_Z (Zpos m2) == 0).
    { change 0 with (inject_Z 0). rewrite inject_Z_injective. lia. }
    assert (CD : 2 ^ 53 * 2 ^ (-53) == 1) by reflexivity.
    set (A := 2 ^ e1) in *. set (B := 2 ^ e2) in *.
    set (C := 2 ^ 53) in *. set (D := 2 ^ (-53)) in *.
    set (i1 := inject_Z (Zpos m1)) in *. set (i2 := inject_Z (Zpos m2)) in *.
    setoid_replace (i1 * C / i2 * (A * (/ B * D))) with (i1 / i2 * (A / B) * (C * D))
      by (field; split; trivial; lra).
    rewrite CD. field. split; trivial; lra. }
  assert (Pm2 : 0 < inject_Z (Zpos m2)).
  { change 0 with (inject_Z 0). rewrite <- Zlt_Qlt. lia. }
  pose proof (pow2_pos (e1 - e2 - 53)) as Pp.
  destruct (binary_round_aux_relative false pq (e1 - e2 - 53)
              (new_location (Zpos m2) ((Zpos m1 * 2 ^ 53) mod Zpos m2)) v)
    as (mr & er & E & D & Her & Hv); [lia | lia | |].
  { rewrite Ev. split.
    - apply Qmult_le_compat_r; [|lra].
      apply Qle_shift_div_l; [assumption|].
      rewrite <- inject_Z_mult, <- Zle_Qle. assumption.
    - apply Qmult_le_compat_r; [|lra].
      apply Qle_shift_div_r; [assumption|].
      rewrite <- inject_Z_mult, <- Zle_Qle. lia. }
  cbv beta iota. rewrite E. cbn [SF2Q]. split.
  - exists mr, er. repeat split; trivial; lia.
  - setoid_replace (1 * inject_Z (Zpos mr) * 2 ^ er) with (inject_Z (Zpos mr) * 2 ^ er) by ring.
    exact Hv.
Qed.

(** *** Multiplication *)

Lemma mul_relative (r1 r2 : Z) (x y : float) :
  PN r1 x -> PN r2 y -> (0 <= r1)%Z -> (0 <= r2)%Z -> (r1 + r2 <= 900)%Z ->
  PN (r1 + r2 + 54) (x * y)%float /\
  Qabs (F2Q (x * y)%float - F2Q x * F2Q y) <= 2 ^ (-52) * (F2Q x * F2Q y).
Proof.
  intros (m1 & e1 & E1 & D1 & R1) (m2 & e2 & E2 & D2 & R2) P1 P2 Hr.
  unfold PN, F2Q. rewrite mul_spec, E1, E2. unfold SF64mul, SFmul. cbn [xorb SF2Q].
  destruct (digits_53_bounds m1 D1) as [L1 U1]. destruct (digits_53_bounds m2 D2) as [L2 U2].
  assert (Dm1 : (105 <= Zpos (digits2_pos (m1 * m2)))%Z).
  { apply digits_ge. rewrite Pos2Z.inj_mul. change (2 ^ (105 - 1))%Z with (2 ^ 52 * 2 ^ 52)%Z. nia. }
  assert (Dm2 : (Zpos (digits2_pos (m1 * m2)) <= 106)%Z).
  { apply digits_le; [lia|]. rewrite Pos2Z.inj_mul. change (2 ^ 106)%Z with (2 ^ 53 * 2 ^ 53)%Z. nia. }
  set (v := 1 * inject_Z (Zpos m1) * 2 ^ e1 * (1 * inject_Z (Zpos m2) * 2 ^ e2)).
  assert (Ev : v == inject_Z (Zpos (m1 * m2)) * 2 ^ (e1 + e2)).
  { unfold v. rewrite Pos2Z.inj_mul, inject_Z_mult, pow2_add. ring. }
  pose proof (pow2_pos (e1 + e2)) as Pp.
  destruct (binary_round_aux_relative false (m1 * m2) (e1 + e2) loc_Exact v)
    as (mr & er & E & D & Her & Hv); [lia | lia | |].
  { rewrite Ev. split; [apply Qle_refl|].
    apply Qmult_le_compat_r; [|lra]. rewrite <- Zle_Qle. lia. }
  rewrite E. cbn [SF2Q]. split.
  - exists mr, er. repeat split; trivial; lia.
  - setoid_replace (1 * inject_Z (Zpos mr) * 2 ^ er) with (inject_Z (Zpos mr) * 2 ^ er) by ring.
    exact Hv.
Qed.

(** *** Normalization of an integer mantissa *)

Lemma Zpos_iter_xO (p k : positive) :
  inject_Z (Zpos (Pos.iter xO p k)) == inject_Z (Zpos p) * 2 ^ Zpos k.
Proof.
  rewrite iter_xO_shl, Zpos_shl, inject_Z_mult, positive_nat_Z, pow2_Z by lia. reflexivity.
Qed.

Lemma binary_round_relative (s : bool) (p : positive) (e : Z) :
  (-1000 <= e)%Z -> (Zpos (digits2_pos p) + e <= 1023)%Z ->
  exists mr er,
    binary_round prec emax s p e = S754_finite s mr er /\
    Zpos (digits2_pos mr) = 53%Z /\
    (e - 53 <= er <= Zpos (digits2_pos p) + e - 52)%Z /\
    Qabs (inject_Z (Zpos mr) * 2 ^ er - inject_Z (Zpos p) * 2 ^ e)
    <= 2 ^ (-52) * (inject_Z (Zpos p) * 2 ^ e).
Proof.
  intros He Hd. pose proof (Pos2Z.is_pos (digits2_pos p)) as Pd.
  set (d := Zpos (digits2_pos p)) in *.
  assert (Pv : 0 < inject_Z (Zpos p) * 2 ^ e).
  { apply Qmult_lt_0_compat; [reflexivity|apply pow2_pos]. }
  assert (Hu : 0 <= 2 ^ (-52) * (inject_Z (Zpos p) * 2 ^ e)).
  { apply Qmult_le_0_compat; [discriminate|lra]. }
  unfold binary_round. fold d.
  replace (fexp prec emax (d + e)) with (d + e - 53)%Z
    by (unfold fexp, FloatOps.emin, SpecFloat.emin, prec, emax; lia).
  unfold shl_align.
  destruct (d + e - 53 - e)%Z as [|t|t] eqn:Et.
  - (* 53 digits: nothing to round *)
    rewrite binary_round_aux_53 by (fold d; lia).
    exists p, e. split; [reflexivity|]. split; [fold d; lia|]. split; [lia|].
    setoid_replace (inject_Z (Zpos p) * 2 ^ e - inject_Z (Zpos p) * 2 ^ e) with 0 by ring.
    exact Hu.
  - (* more than 53 digits: rounded *)
    destruct (binary_round_aux_relative s p e loc_Exact (inject_Z (Zpos p) * 2 ^ e))
      as (mr & er & E & D & Her & Hv); [fold d; lia | fold d; lia | |].
    { split; [apply Qle_refl|]. apply Qmult_le_compat_r; [|apply Qlt_le_weak, pow2_pos].
      rewrite <- Zle_Qle. lia. }
    fold d in Her. exists mr, er. split; [assumption|]. split; [assumption|].
    split; [lia|assumption].
  - (* fewer than 53 digits: padded *)
    rewrite binary_round_aux_53.
    + exists (Pos.iter xO p t), (d + e - 53)%Z. split; [reflexivity|].
      split; [rewrite iter_xO_shl, digits_shl; fold d; lia|]. split; [lia|].
      rewrite Zpos_iter_xO.
      setoid_replace (inject_Z (Zpos p) * 2 ^ Zpos t * 2 ^ (d + e - 53))
        with (inject_Z (Zpos p) * (2 ^ Zpos t * 2 ^ (d + e - 53))) by ring.
      rewrite <- pow2_add. replace (Zpos t + (d + e - 53))%Z with e by lia.
      setoid_replace (inject_Z (Zpos p) * 2 ^ e - inject_Z (Zpos p) * 2 ^ e) with 0 by ring.
      exact Hu.
    + rewrite iter_xO_shl, digits_shl. fold d. lia.
    + lia.
Qed.

(** *** Subtraction of positive normal numbers *)

Lemma shl_align_value (m : positive) (e ez : Z) :
  (ez <= e)%Z ->
  inject_Z (Zpos (fst (shl_align m e ez))) * 2 ^ ez == inject_Z (Zpos m) * 2 ^ e.
Proof.
  intros H. unfold shl_align.
  destruct (ez - e)%Z as [|t|t] eqn:Et; try lia; cbn [fst].
  - replace ez with e by lia. reflexivity.
  - rewrite Zpos_iter_xO.
    setoid_replace (inject_Z (Zpos m) * 2 ^ Zpos t * 2 ^ ez)
      with (inject_Z (Zpos m) * (2 ^ Zpos t * 2 ^ ez)) by ring.
    rewrite <- pow2_add. replace (Zpos t + ez)%Z with e by lia. reflexivity.
Qed.

Lemma shl_align_digits (m : positive) (e ez : Z) :
  (ez <= e)%Z ->
  Zpos (digits2_pos (fst (shl_align m e ez))) = (Zpos (digits2_pos m) + (e - ez))%Z.
Proof.
  intros H. unfold shl_align.
  destruct (ez - e)%Z as [|t|t] eqn:Et; try lia; cbn [fst].
  - lia.
  - rewrite iter_xO_shl, digits_shl. lia.
Qed.

Lemma sub_relative (r1 r2 : Z) (x y : float) :
  PN r1 x -> PN r2 y -> (0 <= r1 <= 900)%Z -> (0 <= r2 <= 900)%Z ->
  is_finite (x - y)%float = true /\
  Qabs (F2Q (x - y)%float - (F2Q x - F2Q y)) <= 2 ^ (-52) * Qabs (F2Q x - F2Q y).
Proof.
  intros (m1 & e1 & E1 & D1 & R1) (m2 & e2 & E2 & D2 & R2) P1 P2.
  rewrite is_finite_spec. unfold F2Q. rewrite sub_spec, E1, E2.
  unfold SF64sub, SFsub. cbn [cond_Zopp SF2Q].
  set (ez := Z.min e1 e2).
  pose proof (shl_align_value m1 e1 ez ltac:(unfold ez; lia)) as V1.
  pose proof (shl_align_value m2 e2 ez ltac:(unfold ez; lia)) as V2.
  pose proof (shl_align_digits m1 e1 ez ltac:(unfold ez; lia)) as G1.
  pose proof (shl_align_digits m2 e2 ez ltac:(unfold ez; lia)) as G2.
  set (a1 := fst (shl_align m1 e1 ez)) in *. set (a2 := fst (shl_align m2 e2 ez)) in *.
  assert (Ev : 1 * inject_Z (Zpos m1) * 2 ^ e1 - 1 * inject_Z (Zpos m2) * 2 ^ e2
               == inject_Z (Zpos a1 - Zpos a2) * 2 ^ ez).
  { unfold Z.sub. rewrite inject_Z_plus, inject_Z_opp.
    setoid_replace ((inject_Z (Zpos a1) + - inject_Z (Zpos a2)) * 2 ^ ez)
      with (inject_Z (Zpos a1) * 2 ^ ez - inject_Z (Zpos a2) * 2 ^ ez) by ring.
    rewrite V1, V2. ring. }
  rewrite Ev. pose proof (pow2_pos ez) as Pz.
  pose proof (digits_upper a1) as U1. pose proof (digits_upper a2) as U2.
  assert (Hdig : forall p, (Zpos p < Zpos a1 \/ Zpos p < Zpos a2)%Z ->
                           (Zpos (digits2_pos p) + ez <= 1023)%Z).
  { intros p Hp.
    assert (Zpos (digits2_pos p) <= Z.max (Zpos (digits2_pos a1)) (Zpos (digits2_pos a2)))%Z.
    { destruct Hp as [Hp|Hp].
      - pose proof (digits_monotone p a1 ltac:(lia)). lia.
      - pose proof (digits_monotone p a2 ltac:(lia)). lia. }
    unfold ez in *. lia. }
  destruct (Zpos a1 - Zpos a2)%Z as [|p|p] eqn:EM.
  - (* equal: the difference is +0 *)
    cbn [binary_normalize SF2Q]. split; [left; eauto|].
    setoid_replace (inject_Z 0 * 2 ^ ez) with 0 by ring.
    vm_compute. discriminate.
  - cbn [binary_normalize].
    destruct (binary_round_relative false p ez) as (mr & er & E & D & Her & Hv);
      [unfold ez; lia | apply Hdig; lia |].
    rewrite E. cbn [SF2Q]. split; [right; eauto|].
    rewrite (Qabs_pos (inject_Z (Zpos p) * 2 ^ ez))
      by (apply Qmult_le_0_compat; [discriminate|lra]).
    setoid_replace (1 * inject_Z (Zpos mr) * 2 ^ er) with (inject_Z (Zpos mr) * 2 ^ er) by ring.
    exact Hv.
  - cbn [binary_normalize].
    destruct (binary_round_relative true p ez) as (mr & er & E & D & Her & Hv);
      [unfold ez; lia | apply Hdig; lia |].
    rewrite E. cbn [SF2Q]. split; [right; eauto|].
    change (Zneg p) with (- Zpos p)%Z. rewrite inject_Z_opp.
    setoid_replace (-1 * inject_Z (Zpos mr) * 2 ^ er - - inject_Z (Zpos p) * 2 ^ ez)
      with (- (inject_Z (Zpos mr) * 2 ^ er - inject_Z (Zpos p) * 2 ^ ez)) by ring.
    setoid_replace (- inject_Z (Zpos p) * 2 ^ ez) with (- (inject_Z (Zpos p) * 2 ^ ez)) by ring.
    rewrite !Qabs_opp.
    rewrite (Qabs_pos (inject_Z (Zpos p) * 2 ^ ez))
      by (apply Qmult_le_0_compat; [discriminate|lra]).
    exact Hv.
Qed.

(** *** Integers and their values *)

Lemma SF2Q_Z2SF (z : Z) : safe z -> SF2Q (Z2SF z) == inject_Z z.
Proof.
  intros Hs. assert (Hs' := Hs). unfold safe in Hs'.
  assert (P : forall p, (Zpos p < 2 ^ 53)%Z ->
                        inject_Z (Zpos (pad p)) * 2 ^ (Zpos (digits2_pos p) - 53)
                        == inject_Z (Zpos p)).
  { intros p Hp. pose proof (digits_le_53 p Hp). pose proof (Pos2Z.is_pos (digits2_pos p)).
    unfold pad. rewrite Zpos_shl, inject_Z_mult, pow2_Z, Z2Nat.id by lia.
    setoid_replace (inject_Z (Zpos p) * 2 ^ (53 - Zpos (digits2_pos p))
                    * 2 ^ (Zpos (digits2_pos p) - 53))
      with (inject_Z (Zpos p) * (2 ^ (53 - Zpos (digits2_pos p))
                                 * 2 ^ (Zpos (digits2_pos p) - 53))) by ring.
    rewrite <- pow2_add.
    replace (53 - Zpos (digits2_pos p) + (Zpos (digits2_pos p) - 53))%Z with 0%Z by lia.
    change (2 ^ 0) with 1. ring. }
  destruct z as [|p|p].
  - reflexivity.
  - rewrite Z2SF_pos by lia. cbn [SF2Q]. rewrite <- (P p) by lia. ring.
  - rewrite Z2SF_neg by lia. cbn [SF2Q].
    change (Zneg p) with (- Zpos p)%Z. rewrite inject_Z_opp, <- (P p) by lia. ring.
Qed.

Lemma F2Q_ofZ (z : Z) : safe z -> F2Q (ofZ z) == inject_Z z.
Proof.
  intros H. unfold F2Q. rewrite Prim2SF_ofZ by assumption. now apply SF2Q_Z2SF.
Qed.

Lemma PN_ofZ (z : Z) : (0 < z < 2 ^ 53)%Z -> PN 52 (ofZ z).
Proof.
  intros H. unfold PN. rewrite Prim2SF_ofZ by (unfold safe; lia).
  destruct z as [|p|p]; try lia.
  rewrite Z2SF_pos by lia.
  pose proof (digits_le_53 p ltac:(lia)). pose proof (Pos2Z.is_pos (digits2_pos p)).
  exists (pad p), (Zpos (digits2_pos p) - 53)%Z.
  split; [reflexivity|]. split; [now apply digits_pad|lia].
Qed.

(** *** [Math.round] *)

Lemma round_zero (x : float) :
  is_zero x = true -> is_zero (Binary64.round x) = true.
Proof.
  intros H. apply is_zero_spec in H as [s H]. apply is_zero_spec.
  unfold Binary64.round. rewrite H. cbn [Binary64.SFround].
  exists s. now destruct s.
Qed.

(** A finite number of magnitude below one half rounds to a zero. *)
Lemma round_small (x : float) :
  is_finite x = true -> Qabs (F2Q x) < 1 # 2 -> is_zero (Binary64.round x) = true.
Proof.
  intros Hf Hv. apply is_finite_spec in Hf as [[s Hz]|(s & m & e & E)].
  - apply round_zero. apply is_zero_spec. eauto.
  - apply is_zero_spec. unfold Binary64.round. unfold F2Q in Hv. rewrite E in *.
    cbn [SF2Q Binary64.SFround] in *.
    assert (Hm : inject_Z (Zpos m) * 2 ^ e < 1 # 2).
    { destruct s.
      - setoid_replace (-1 * inject_Z (Zpos m) * 2 ^ e)
          with (- (inject_Z (Zpos m) * 2 ^ e)) in Hv by ring.
        rewrite Qabs_opp in Hv. apply Qabs_Qlt_condition in Hv. tauto.
      - setoid_replace (1 * inject_Z (Zpos m) * 2 ^ e)
          with (inject_Z (Zpos m) * 2 ^ e) in Hv by ring.
        apply Qabs_Qlt_condition in Hv. tauto. }
    assert (He : (e < 0)%Z).
    { destruct (Z_lt_le_dec e 0) as [|Hge]; [assumption|exfalso].
      assert (1 <= 2 ^ e) by (change 1 with (2 ^ 0); now apply pow2_le).
      assert (1 <= inject_Z (Zpos m)).
      { change 1 with (inject_Z 1). rewrite <- Zle_Qle. lia. }
      assert (1 * 1 <= inject_Z (Zpos m) * 2 ^ e) by (apply Qmult_le_compat_nonneg; split; lra).
      lra. }
    replace (0 <=? e)%Z with false by (symmetry; apply Z.leb_gt; assumption).
    assert (Hz : (2 * Zpos m < 2 ^ (- e))%Z).
    { pose proof (pow2_pos e) as Pe.
      assert (Hq : inject_Z (2 ^ (- e)) * 2 ^ e == 1).
      { rewrite pow2_Z by lia. rewrite <- pow2_add.
        replace (- e + e)%Z with 0%Z by lia. reflexivity. }
      rewrite Zlt_Qlt, inject_Z_mult. change (inject_Z 2) with 2.
      apply Qmult_lt_r with (z := 2 ^ e); [assumption|].
      rewrite Hq. lra. }
    assert (Hpow : (2 ^ (- e) = 2 * 2 ^ (- e - 1))%Z).
    { rewrite <- Z.pow_succ_r by lia. f_equal. lia. }
    replace ((cond_Zopp s (Zpos m) + 2 ^ (- e - 1)) / 2 ^ (- e))%Z with 0%Z.
    + exists s. now rewrite Prim2SF_SF2Prim.
    + symmetry. apply Z.div_small. destruct s; cbn [cond_Zopp]; lia.
Qed.

(** A finite number within one half of a positive integer below 2^52
    rounds to that integer. *)
Lemma round_near (x : float) (n : Z) :
  is_finite x = true -> (0 < n < 2 ^ 52)%Z -> Qabs (F2Q x - inject_Z n) < 1 # 2 ->
  Binary64.round x = ofZ n.
Proof.
  intros Hf Hn Hv. pose proof (Prim2SF_valid x) as Hval.
  apply is_finite_spec in Hf as [[s Hz]|(s & m & e & E)].
  - exfalso. unfold F2Q in Hv. rewrite Hz in Hv. cbn [SF2Q] in Hv.
    apply Qabs_Qlt_condition in Hv.
    assert (1 <= inject_Z n) by (change 1 with (inject_Z 1); rewrite <- Zle_Qle; lia).
    lra.
  - unfold F2Q in Hv. rewrite E in Hv, Hval. cbn [SF2Q] in Hv.
    apply Qabs_Qlt_condition in Hv.
    assert (N1 : 1 <= inject_Z n) by (change 1 with (inject_Z 1); rewrite <- Zle_Qle; lia).
    pose proof (pow2_pos e) as Pe.
    assert (Pm : 0 < inject_Z (Zpos m) * 2 ^ e).
    { apply Qmult_lt_0_compat; [reflexivity|assumption]. }
    destruct s.
    { exfalso. setoid_replace (-1 * inject_Z (Zpos m) * 2 ^ e)
        with (- (inject_Z (Zpos m) * 2 ^ e)) in Hv by ring. lra. }
    setoid_replace (1 * inject_Z (Zpos m) * 2 ^ e)
      with (inject_Z (Zpos m) * 2 ^ e) in Hv by ring.
    assert (He : (e < 0)%Z).
    { destruct (Z_lt_le_dec e 0) as [|Hge]; [assumption|exfalso].
      cbn [SpecFloat.valid_binary] in Hval. unfold bounded, canonical_mantissa in Hval.
      apply andb_prop in Hval as [Hc _]. apply Z.eqb_eq in Hc.
      assert (D : Zpos (digits2_pos m) = 53%Z).
      { unfold fexp, FloatOps.emin, SpecFloat.emin, prec, emax in Hc. lia. }
      destruct (digits_53_bounds m D) as [Lm _].
      assert (2 ^ 52 <= inject_Z (Zpos m)) by (rewrite <- pow2_Z by lia; now rewrite <- Zle_Qle).
      assert (1 <= 2 ^ e) by (change 1 with (2 ^ 0); now apply pow2_le).
      assert (2 ^ 52 * 1 <= inject_Z (Zpos m) * 2 ^ e).
      { apply Qmult_le_compat_nonneg; split; lra. }
      assert (inject_Z n <= inject_Z (2 ^ 52 - 1)) by (rewrite <- Zle_Qle; lia).
      change (inject_Z (2 ^ 52 - 1)) with (4503599627370495 # 1) in *.
      change (2 ^ 52) with (4503599627370496 # 1) in *. lra. }
    unfold Binary64.round. rewrite E. cbn [Binary64.SFround cond_Zopp].
    replace (0 <=? e)%Z with false by (symmetry; apply Z.leb_gt; assumption).
    assert (Hpow : (2 ^ (- e) = 2 * 2 ^ (- e - 1))%Z).
    { rewrite <- Z.pow_succ_r by lia. f_equal. lia. }
    assert (Pp : (0 < 2 ^ (- e - 1))%Z) by (apply Z.pow_pos_nonneg; lia).
    (* the hypothesis, in integers: | 2 m - 2 n 2^(-e) | < 2^(-e) *)
    assert (Hq : inject_Z (2 ^ (- e)) * 2 ^ e == 1).
    { rewrite pow2_Z by lia. rewrite <- pow2_add.
      replace (- e + e)%Z with 0%Z by lia. reflexivity. }
    assert (H1 : (2 * n * 2 ^ (- e) - 2 ^ (- e) < 2 * Zpos m)%Z).
    { rewrite Zlt_Qlt. unfold Z.sub. rewrite inject_Z_plus, inject_Z_opp, !inject_Z_mult.
      change (inject_Z 2) with 2.
      apply Qmult_lt_r with (z := 2 ^ e); [assumption|].
      setoid_replace ((2 * inject_Z n * inject_Z (2 ^ (- e)) + - inject_Z (2 ^ (- e))) * 2 ^ e)
        with ((2 * inject_Z n - 1) * (inject_Z (2 ^ (- e)) * 2 ^ e)) by ring.
      rewrite Hq. lra. }
    assert (H2 : (2 * Zpos m < 2 * n * 2 ^ (- e) + 2 ^ (- e))%Z).
    { rewrite Zlt_Qlt. rewrite inject_Z_plus, !inject_Z_mult.
      change (inject_Z 2) with 2.
      apply Qmult_lt_r with (z := 2 ^ e); [assumption|].
      setoid_replace ((2 * inject_Z n * inject_Z (2 ^ (- e)) + inject_Z (2 ^ (- e))) * 2 ^ e)
        with ((2 * inject_Z n + 1) * (inject_Z (2 ^ (- e)) * 2 ^ e)) by ring.
      rewrite Hq. lra. }
    replace ((Zpos m + 2 ^ (- e - 1)) / 2 ^ (- e))%Z with n.
    + destruct n; try lia. reflexivity.
    + apply Z.div_unique with (r := (Zpos m + 2 ^ (- e - 1) - 2 ^ (- e) * n)%Z); nia.
Qed.

(** *** Intervals of relative error

    [approx r a b x v]: the float [x] is a positive normal number whose
    value lies in [[v * a, v * b]].  The factors [a] and [b] are closed
    rationals; each operation multiplies them by its own rounding. *)

Definition eps : Q := 2 ^ (-52).

Definition approx (r : Z) (a b : Q) (x : float) (v : Q) : Prop :=
  PN r x /\ v * a <= F2Q x <= v * b.

Ltac qconst := vm_compute; first [reflexivity | discriminate].

Lemma Qinv_le_contra (a b : Q) : 0 < a -> a <= b -> / b <= / a.
Proof.
  intros Ha H. apply Qle_lteq in H as [H|H].
  - assert (Hb : 0 < b) by lra.
    apply Qlt_le_weak. now apply (proj1 (Qinv_lt_contravar a b Ha Hb)).
  - rewrite H. apply Qle_refl.
Qed.

Lemma Qdiv_bounds (lo1 hi1 lo2 hi2 X Y : Q) :
  0 < lo1 -> lo1 <= X <= hi1 -> 0 < lo2 -> lo2 <= Y <= hi2 ->
  lo1 / hi2 <= X / Y <= hi1 / lo2.
Proof.
  intros P1 [L1 U1] P2 [L2 U2]. unfold Qdiv.
  assert (0 < / hi2) by (apply Qinv_lt_0_compat; lra).
  assert (/ hi2 <= / Y) by (apply Qinv_le_contra; lra).
  assert (/ Y <= / lo2) by (apply Qinv_le_contra; lra).
  split; apply Qmult_le_compat_nonneg; split; lra.
Qed.

Lemma Qmul_bounds (lo1 hi1 lo2 hi2 X Y : Q) :
  0 < lo1 -> lo1 <= X <= hi1 -> 0 < lo2 -> lo2 <= Y <= hi2 ->
  lo1 * lo2 <= X * Y <= hi1 * hi2.
Proof.
  intros P1 [L1 U1] P2 [L2 U2].
  split; apply Qmult_le_compat_nonneg; split; lra.
Qed.

Lemma approx_ofZ (z : Z) : (0 < z < 2 ^ 53)%Z -> approx 52 1 1 (ofZ z) (inject_Z z).
Proof.
  intros H. split; [now apply PN_ofZ|].
  rewrite F2Q_ofZ by (unfold safe; lia). lra.
Qed.

Lemma approx_value (r : Z) (a b : Q) (x : float) (v v' : Q) :
  v == v' -> approx r a b x v -> approx r a b x v'.
Proof. intros E [P B]. split; [assumption|]. now rewrite <- E. Qed.

Lemma approx_div (r1 r2 : Z) (a1 b1 a2 b2 : Q) (x y : float) (vx vy : Q) :
  approx r1 a1 b1 x vx -> approx r2 a2 b2 y vy ->
  (0 <= r1)%Z -> (0 <= r2)%Z -> (r1 + r2 <= 900)%Z ->
  0 < vx -> 0 < vy -> 0 < a1 -> 0 < a2 -> 0 < b2 ->
  approx (r1 + r2 + 53) (a1 / b2 * (1 - eps)) (b1 / a2 * (1 + eps))
         (x / y)%float (vx / vy).
Proof.
  intros [Px Bx] [Py By] R1 R2 R Vx Vy A1 A2 B2.
  destruct (div_relative r1 r2 x y Px Py R1 R2 R) as [P E].
  split; [assumption|].
  assert (L1 : 0 < vx * a1) by now apply Qmult_lt_0_compat.
  assert (L2 : 0 < vy * a2) by now apply Qmult_lt_0_compat.
  pose proof (Qdiv_bounds _ _ _ _ _ _ L1 Bx L2 By) as [Lo Hi].
  apply Qabs_Qle_condition in E.
  setoid_replace (vx / vy * (a1 / b2 * (1 - eps)))
    with (vx * a1 / (vy * b2) * (1 - eps)) by (field; split; lra).
  setoid_replace (vx / vy * (b1 / a2 * (1 + eps)))
    with (vx * b1 / (vy * a2) * (1 + eps)) by (field; split; lra).
  unfold eps. change (2 ^ (-52)) with (1 # 4503599627370496) in *.
  set (Z := F2Q x / F2Q y) in *. set (F := F2Q (x / y)%float) in *.
  set (L := vx * a1 / (vy * b2)) in *. set (U := vx * b1 / (vy * a2)) in *.
  lra.
Qed.

Lemma approx_mul (r1 r2 : Z) (a1 b1 a2 b2 : Q) (x y : float) (vx vy : Q) :
  approx r1 a1 b1 x vx -> approx r2 a2 b2 y vy ->
  (0 <= r1)%Z -> (0 <= r2)%Z -> (r1 + r2 <= 900)%Z ->
  0 < vx -> 0 < vy -> 0 < a1 -> 0 < a2 ->
  approx (r1 + r2 + 54) (a1 * a2 * (1 - eps)) (b1 * b2 * (1 + eps))
         (x * y)%float (vx * vy).
Proof.
  intros [Px Bx] [Py By] R1 R2 R Vx Vy A1 A2.
  destruct (mul_relative r1 r2 x y Px Py R1 R2 R) as [P E].
  split; [assumption|].
  assert (L1 : 0 < vx * a1) by now apply Qmult_lt_0_compat.
  assert (L2 : 0 < vy * a2) by now apply Qmult_lt_0_compat.
  pose proof (Qmul_bounds _ _ _ _ _ _ L1 Bx L2 By) as [Lo Hi].
  apply Qabs_Qle_condition in E.
  setoid_replace (vx * vy * (a1 * a2 * (1 - eps)))
    with (vx * a1 * (vy * a2) * (1 - eps)) by ring.
  setoid_replace (vx * vy * (b1 * b2 * (1 + eps)))
    with (vx * b1 * (vy * b2) * (1 + eps)) by ring.
  unfold eps. change (2 ^ (-52)) with (1 # 4503599627370496) in *.
  set (Z := F2Q x * F2Q y) in *. set (F := F2Q (x * y)%float) in *.
  set (L := vx * a1 * (vy * a2)) in *. set (U := vx * b1 * (vy * b2)) in *.
  lra.
Qed.

(** An approximation of [v <= B] with factors close enough to 1 is within
    one half of [v]. *)
Lemma approx_near (r : Z) (a b : Q) (x : float) (v B : Q) :
  approx r a b x v -> 0 < v <= B -> a <= 1 -> 1 <= b ->
  B * (1 - a) < 1 # 2 -> B * (b - 1) < 1 # 2 ->
  Qabs (F2Q x - v) < 1 # 2.
Proof.
  intros [_ [Lo Hi]] [V0 VB] A1 B1 HA HB.
  assert (v * (1 - a) <= B * (1 - a)) by (apply Qmult_le_compat_r; lra).
  assert (v * (b - 1) <= B * (b - 1)) by (apply Qmult_le_compat_r; lra).
  apply Qabs_Qlt_condition. split.
  - setoid_replace (F2Q x - v) with (F2Q x - v * a - v * (1 - a)) by ring. lra.
  - setoid_replace (F2Q x - v) with (F2Q x - v * b + v * (b - 1)) by ring. lra.
Qed.

(** The difference of two approximations of the same [v <= B] is finite
    and below one half. *)
Lemma approx_sub_small (r1 r2 : Z) (a1 b1 a2 b2 : Q) (x y : float) (v B : Q) :
  approx r1 a1 b1 x v -> approx r2 a2 b2 y v ->
  (0 <= r1 <= 900)%Z -> (0 <= r2 <= 900)%Z ->
  0 < v <= B -> a2 <= b1 -> a1 <= b2 ->
  (1 + eps) * (B * (b1 - a2)) < 1 # 2 -> (1 + eps) * (B * (b2 - a1)) < 1 # 2 ->
  is_finite (x - y)%float = true /\ Qabs (F2Q (x - y)%float) < 1 # 2.
Proof.
  intros [Px [Lx Ux]] [Py [Ly Uy]] R1 R2 [V0 VB] A B' H1 H2.
  destruct (sub_relative r1 r2 x y Px Py R1 R2) as [Fin E].
  split; [assumption|].
  assert (v * (b1 - a2) <= B * (b1 - a2)) by (apply Qmult_le_compat_r; lra).
  assert (v * (b2 - a1) <= B * (b2 - a1)) by (apply Qmult_le_compat_r; lra).
  unfold eps in *. change (2 ^ (-52)) with (1 # 4503599627370496) in *.
  set (X := F2Q x) in *. set (Y := F2Q y) in *. set (F := F2Q (x - y)%float) in *.
  set (P1 := B * (b1 - a2)) in *. set (P2 := B * (b2 - a1)) in *.
  assert (D1 : X - Y <= P1).
  { setoid_replace (X - Y) with ((X - v * b1) + (v * a2 - Y) + v * (b1 - a2)) by ring. lra. }
  assert (D2 : - P2 <= X - Y).
  { setoid_replace (X - Y) with ((X - v * a1) + (v * b2 - Y) - v * (b2 - a1)) by ring. lra. }
  apply Qabs_Qle_condition in E.
  apply Qabs_Qlt_condition.
  destruct (Qlt_le_dec (X - Y) 0) as [Neg|Pos].
  - rewrite (Qabs_neg (X - Y)) in E by lra. lra.
  - rewrite (Qabs_pos (X - Y)) in E by lra. lra.
Qed.

(** *** The error of [Math.round] *)
(** A finite number is valid: its mantissa has at most 53 bits. *)
Lemma finite_mantissa (x : float) (s : bool) (m : positive) (e : Z) :
  Prim2SF x = S754_finite s m e -> (Zpos m < 2 ^ 53)%Z.
Proof.
  intros E. pose proof (Prim2SF_valid x) as V. rewrite E in V.
  cbn [SpecFloat.valid_binary] in V. unfold bounded, canonical_mantissa in V.
  apply andb_prop in V as [Hc _]. apply Z.eqb_eq in Hc.
  assert (D : (Zpos (digits2_pos m) <= 53)%Z).
  { unfold fexp, FloatOps.emin, SpecFloat.emin, prec, emax in Hc. lia. }
  pose proof (digits_upper m) as U.
  apply Z.lt_le_trans with (1 := U). apply Z.pow_le_mono_r; lia.
Qed.

(** [Math.round] moves a finite number by at most one half. *)
Lemma round_error (x : float) :
  is_finite x = true ->
  is_finite (Binary64.round x) = true /\
  Qabs (F2Q (Binary64.round x) - F2Q x) <= 1 # 2.
Proof.
  intros Hf. assert (Hf' := Hf).
  apply is_finite_spec in Hf' as [[s Hz]|(s & m & e & E)].
  - unfold Binary64.round, F2Q. rewrite Hz. cbn [Binary64.SFround].
    split.
    + apply is_finite_spec. left. exists s. now rewrite Prim2SF_SF2Prim.
    + rewrite Prim2SF_SF2Prim by reflexivity. discriminate.
  - destruct (Z_lt_le_dec e 0) as [He|He].
    2:{ assert (R : Binary64.round x = x).
        { unfold Binary64.round. rewrite E. cbn [Binary64.SFround].
          replace (0 <=? e)%Z with true by (symmetry; now apply Z.leb_le).
          rewrite <- E. apply SF2Prim_Prim2SF. }
        rewrite R. split; [assumption|].
        setoid_replace (F2Q x - F2Q x) with 0 by ring. discriminate. }
    pose proof (finite_mantissa x s m e E) as Hm.
    set (A := cond_Zopp s (Zpos m)).
    set (P := (2 ^ (- e - 1))%Z).
    assert (Hpow : (2 ^ (- e) = 2 * P)%Z).
    { unfold P. rewrite <- Z.pow_succ_r by lia. f_equal. lia. }
    assert (PP : (1 <= P)%Z) by (unfold P; apply (Z.pow_le_mono_r 2 0); lia).
    set (N := ((A + P) / 2 ^ (- e))%Z).
    assert (HN : (2 * P * N <= A + P < 2 * P * N + 2 * P)%Z).
    { pose proof (Z.div_mod (A + P) (2 ^ (- e)) ltac:(lia)) as DM.
      pose proof (Z.mod_pos_bound (A + P) (2 ^ (- e)) ltac:(lia)) as MB.
      fold N in DM. rewrite Hpow in *. lia. }
    assert (HA : (- 2 ^ 53 < A < 2 ^ 53)%Z) by (unfold A; destruct s; cbn [cond_Zopp]; lia).
    assert (SN : safe N) by (unfold safe; nia).
    assert (V : F2Q x == inject_Z A * 2 ^ e).
    { unfold F2Q. rewrite E. cbn [SF2Q]. unfold A.
      destruct s; cbn [cond_Zopp];
        [change (inject_Z (- Zpos m)) with (- inject_Z (Zpos m))|]; ring. }
    pose proof (pow2_pos e) as Pe.
    assert (Hq : inject_Z (2 * P) * 2 ^ e == 1).
    { rewrite <- Hpow, pow2_Z by lia. rewrite <- pow2_add.
      replace (- e + e)%Z with 0%Z by lia. reflexivity. }
    assert (D : Qabs (inject_Z N - F2Q x) <= 1 # 2).
    { rewrite V. apply Qabs_Qle_condition.
      set (K := inject_Z (2 * P)) in *. set (T := 2 ^ e) in *.
      set (n := inject_Z N). set (a := inject_Z A).
      assert (L : 2 * n * K <= 2 * a + K).
      { unfold n, a, K. change 2 with (inject_Z 2).
        rewrite <- !inject_Z_mult, <- inject_Z_plus, <- Zle_Qle. lia. }
      assert (U : 2 * a + K <= (2 * n + 2) * K - 2).
      { unfold n, a, K, Qminus. change (- (2)) with (inject_Z (- 2)). change 2 with (inject_Z 2).
        rewrite <- !inject_Z_mult, <- !inject_Z_plus, <- inject_Z_mult,
          <- inject_Z_plus, <- Zle_Qle. lia. }
      apply (Qmult_le_compat_r _ _ T) in L; [|lra].
      apply (Qmult_le_compat_r _ _ T) in U; [|lra].
      setoid_replace (2 * n * K * T) with (2 * n * (K * T)) in L by ring.
      setoid_replace ((2 * a + K) * T) with (2 * (a * T) + K * T) in L by ring.
      setoid_replace ((2 * a + K) * T) with (2 * (a * T) + K * T) in U by ring.
      setoid_replace (((2 * n + 2) * K - 2) * T)
        with ((2 * n + 2) * (K * T) - 2 * T) in U by ring.
      rewrite Hq in L, U. set (v := a * T) in *. split; lra. }
    unfold Binary64.round. rewrite E. cbn [Binary64.SFround].
    replace (0 <=? e)%Z with false by (symmetry; now apply Z.leb_gt).
    fold A. fold P. fold N.
    destruct N as [|p|p] eqn:EN.
    + split.
      * apply is_finite_spec. left. exists s. now rewrite Prim2SF_SF2Prim.
      * unfold F2Q at 1. rewrite Prim2SF_SF2Prim by reflexivity. exact D.
    + change (SF2Prim (binary_normalize prec emax (Zpos p) 0 false)) with (ofZ (Zpos p)).
      split; [now apply ofZ_is_finite|]. now rewrite F2Q_ofZ.
    + change (SF2Prim (binary_normalize prec emax (Zneg p) 0 false)) with (ofZ (Zneg p)).
      split; [now apply ofZ_is_finite|]. now rewrite F2Q_ofZ.
Qed.

(** *** More on intervals of relative error *)

Lemma approx_self (r : Z) (x : float) : PN r x -> approx r 1 1 x (F2Q x).
Proof. intros P. split; [assumption|]. lra. Qed.

Lemma approx_weaken (r r' : Z) (a b a' b' : Q) (x : float) (v : Q) :
  approx r a b x v -> 0 <= v -> (r <= r')%Z -> a' <= a -> b <= b' ->
  approx r' a' b' x v.
Proof.
  intros [P [L U]] V R A B. split; [now apply (PN_weaken r)|].
  assert (v * a' <= v * a) by (rewrite !(Qmult_comm v); now apply Qmult_le_compat_r).
  assert (v * b <= v * b') by (rewrite !(Qmult_comm v); now apply Qmult_le_compat_r).
  lra.
Qed.

(** The ratio of two approximated numbers. *)
Lemma approx_ratio (r1 r2 : Z) (a1 b1 a2 b2 : Q) (x y : float) (A v : Q) :
  approx r1 a1 b1 x (A * v) -> approx r2 a2 b2 y v ->
  0 < A -> 0 < v -> 0 < a1 -> 0 < a2 -> 0 < b2 ->
  A * (a1 / b2) <= F2Q x / F2Q y <= A * (b1 / a2).
Proof.
  intros [_ Bx] [_ By] PA Pv A1 A2 B2.
  assert (L1 : 0 < A * v * a1) by (repeat apply Qmult_lt_0_compat; assumption).
  assert (L2 : 0 < v * a2) by now apply Qmult_lt_0_compat.
  pose proof (Qdiv_bounds _ _ _ _ _ _ L1 Bx L2 By) as [Lo Hi].
  setoid_replace (A * (a1 / b2)) with (A * v * a1 / (v * b2)) by (field; split; lra).
  setoid_replace (A * (b1 / a2)) with (A * v * b1 / (v * a2)) by (field; split; lra).
  split; assumption.
Qed.

(** *** Addition *)

Lemma digits_below (p : positive) (k : Z) :
  (0 <= k)%Z -> (Zpos p < 2 ^ k)%Z -> (Zpos (digits2_pos p) <= k)%Z.
Proof.
  intros Hk H. pose proof (digits_lower p) as L.
  pose proof (Pos2Z.is_pos (digits2_pos p)).
  destruct (Z_le_gt_dec (Zpos (digits2_pos p)) k) as [|G]; [assumption|exfalso].
  assert (2 ^ k <= 2 ^ (Zpos (digits2_pos p) - 1))%Z by (apply Z.pow_le_mono_r; lia).
  lia.
Qed.

Lemma add_relative (r1 r2 : Z) (x y : float) :
  PN r1 x -> PN r2 y -> (0 <= r1 <= 900)%Z -> (0 <= r2 <= 900)%Z ->
  PN (Z.max r1 r2 + 53) (x + y)%float /\
  Qabs (F2Q (x + y)%float - (F2Q x + F2Q y)) <= 2 ^ (-52) * (F2Q x + F2Q y).
Proof.
  intros (m1 & e1 & E1 & D1 & R1) (m2 & e2 & E2 & D2 & R2) P1 P2.
  unfold PN, F2Q. rewrite add_spec, E1, E2.
  unfold SF64add, SFadd. cbn [cond_Zopp SF2Q].
  set (ez := Z.min e1 e2).
  pose proof (shl_align_value m1 e1 ez ltac:(unfold ez; lia)) as V1.
  pose proof (shl_align_value m2 e2 ez ltac:(unfold ez; lia)) as V2.
  pose proof (shl_align_digits m1 e1 ez ltac:(unfold ez; lia)) as G1.
  pose proof (shl_align_digits m2 e2 ez ltac:(unfold ez; lia)) as G2.
  set (a1 := fst (shl_align m1 e1 ez)) in *. set (a2 := fst (shl_align m2 e2 ez)) in *.
  change (Zpos a1 + Zpos a2)%Z with (Zpos (a1 + a2)). cbn [binary_normalize].
  assert (Ev : 1 * inject_Z (Zpos m1) * 2 ^ e1 + 1 * inject_Z (Zpos m2) * 2 ^ e2
               == inject_Z (Zpos (a1 + a2)) * 2 ^ ez).
  { rewrite Pos2Z.inj_add, inject_Z_plus.
    setoid_replace ((inject_Z (Zpos a1) + inject_Z (Zpos a2)) * 2 ^ ez)
      with (inject_Z (Zpos a1) * 2 ^ ez + inject_Z (Zpos a2) * 2 ^ ez) by ring.
    rewrite V1, V2. ring. }
  rewrite Ev.
  pose proof (digits_upper a1) as U1. pose proof (digits_upper a2) as U2.
  set (D := Z.max (Zpos (digits2_pos a1)) (Zpos (digits2_pos a2))).
  assert (HD : (Zpos (digits2_pos (a1 + a2)) <= D + 1)%Z).
  { apply digits_below; [unfold D; lia|].
    rewrite Z.pow_add_r by (unfold D; lia). rewrite Pos2Z.inj_add.
    assert (2 ^ Zpos (digits2_pos a1) <= 2 ^ D)%Z by (apply Z.pow_le_mono_r; unfold D; lia).
    assert (2 ^ Zpos (digits2_pos a2) <= 2 ^ D)%Z by (apply Z.pow_le_mono_r; unfold D; lia).
    lia. }
  destruct (binary_round_relative false (a1 + a2) ez) as (mr & er & E & Dr & Her & Hv);
    [unfold ez; lia | unfold D, ez in *; lia |].
  rewrite E. cbn [SF2Q]. split.
  - exists mr, er. split; [reflexivity|]. split; [assumption|]. unfold D, ez in *. lia.
  - setoid_replace (1 * inject_Z (Zpos mr) * 2 ^ er) with (inject_Z (Zpos mr) * 2 ^ er) by ring.
    exact Hv.
Qed.

Lemma approx_add (r1 r2 : Z) (a b : Q) (x y : float) (vx vy : Q) :
  approx r1 a b x vx -> approx r2 a b y vy ->
  (0 <= r1 <= 900)%Z -> (0 <= r2 <= 900)%Z ->
  approx (Z.max r1 r2 + 53) (a * (1 - eps)) (b * (1 + eps)) (x + y)%float (vx + vy).
Proof.
  intros [Px Bx] [Py By] R1 R2.
  destruct (add_relative r1 r2 x y Px Py R1 R2) as [P E].
  split; [assumption|].
  apply Qabs_Qle_condition in E.
  pose proof (PN_value _ _ Px). pose proof (PN_value _ _ Py).
  unfold eps. change (2 ^ (-52)) with (1 # 4503599627370496) in *.
  setoid_replace ((vx + vy) * (a * (1 - (1 # 4503599627370496))))
    with ((vx * a + vy * a) * (1 - (1 # 4503599627370496))) by ring.
  setoid_replace ((vx + vy) * (b * (1 + (1 # 4503599627370496))))
    with ((vx * b + vy * b) * (1 + (1 # 4503599627370496))) by ring.
  set (X := F2Q x) in *. set (Y := F2Q y) in *. set (F := F2Q (x + y)%float) in *.
  set (xa := vx * a) in *. set (xb := vx * b) in *.
  set (ya := vy * a) in *. set (yb := vy * b) in *.
  lra.
Qed.

Lemma add_zero_l (r : Z) (x : float) : PN r x -> (0 + x)%float = x.
Proof.
  intros (m & e & E & _). apply Prim2SF_inj. rewrite add_spec, E. reflexivity.
Qed.

Lemma zero_div_ofZ (d : Z) : (0 < d < 2 ^ 53)%Z -> (ofZ 0 / ofZ d)%float = ofZ 0.
Proof.
  intros H. apply Prim2SF_inj. rewrite div_spec.
  rewrite (Prim2SF_ofZ d) by (unfold safe; lia).
  destruct d as [|p|p]; try lia. rewrite Z2SF_pos by lia. reflexivity.
Qed.

Lemma zero_mul_ofZ (d : Z) : (0 < d < 2 ^ 53)%Z -> (ofZ 0 * ofZ d)%float = ofZ 0.
Proof.
  intros H. apply Prim2SF_inj. rewrite mul_spec.
  rewrite (Prim2SF_ofZ d) by (unfold safe; lia).
  destruct d as [|p|p]; try lia. rewrite Z2SF_pos by lia. reflexivity.
Qed.

Lemma PN_finite (r : Z) (x : float) : PN r x -> is_finite x = true.
Proof.
  intros (m & e & E & _). apply is_finite_spec. right. eauto.
Qed.

(** [PN], as a test. *)
Definition normal_within (r : Z) (x : float) : bool :=
  match Prim2SF x with
  | S754_finite false m e =>
      (Zpos (digits2_pos m) =? 53)%Z && (- r <=? e)%Z && (e <=? r)%Z
  | _ => false
  end.

Lemma normal_within_PN (r : Z) (x : float) : normal_within r x = true -> PN r x.
Proof.
  unfold normal_within, PN. destruct (Prim2SF x) as [| | |[|] m e]; try discriminate.
  intros H. apply andb_prop in H as [H H3]. apply andb_prop in H as [H1 H2].
  apply Z.eqb_eq in H1. apply Z.leb_le in H2. apply Z.leb_le in H3.
  exists m, e. repeat split; trivial.
Qed.

(** *** Closeness to an integer *)

(** The float [x] is a number within [2^-50] of the integer [z], relatively. *)
Definition close (x : float) (z : Z) : Prop :=
  is_finite x = true /\ Qabs (F2Q x - inject_Z z) <= 2 ^ (-50) * inject_Z z.

Lemma close_ofZ (z : Z) : (0 <= z < 2 ^ 53)%Z -> close (ofZ z) z.
Proof.
  intros H. assert (S : safe z) by (unfold safe; lia).
  split; [now apply ofZ_is_finite|].
  rewrite F2Q_ofZ by assumption.
  setoid_replace (inject_Z z - inject_Z z) with 0 by ring.
  assert (0 <= inject_Z z) by (change 0 with (inject_Z 0); rewrite <- Zle_Qle; lia).
  change (2 ^ (-50)) with (1 # 1125899906842624).
  rewrite Qabs_pos by lra. lra.
Qed.

Lemma approx_close (r : Z) (a b : Q) (x : float) (z : Z) :
  approx r a b x (inject_Z z) -> (0 < z)%Z ->
  1 - 2 ^ (-50) <= a -> b <= 1 + 2 ^ (-50) -> close x z.
Proof.
  intros [P [L U]] Hz A B. split; [now apply (PN_finite r)|].
  assert (Pz : 0 < inject_Z z) by (change 0 with (inject_Z 0); rewrite <- Zlt_Qlt; lia).
  apply (Qmult_le_l _ _ (inject_Z z)) in A; [|assumption].
  apply (Qmult_le_l _ _ (inject_Z z)) in B; [|assumption].
  change (2 ^ (-50)) with (1 # 1125899906842624) in *.
  set (v := inject_Z z) in *. set (va := v * a) in *. set (vb := v * b) in *.
  apply Qabs_Qle_condition. split; lra.
Qed.

(** *** Halving *)

(** A multiplication by 0.5 is exact. *)
Lemma mul_half (r : Z) (x : float) :
  PN r x -> (r <= 900)%Z ->
  PN (r + 1) (x * 0.5)%float /\ F2Q (x * 0.5)%float == F2Q x / 2.
Proof.
  intros (m & e & E & D & R) Hr.
  assert (M : Prim2SF (x * 0.5)%float = S754_finite false m (e - 1)).
  { rewrite mul_spec, E.
    change (Prim2SF 0.5) with (S754_finite false 4503599627370496 (-53)).
    unfold SF64mul, SFmul. cbn [xorb]. rewrite Pos.mul_comm.
    assert (Hc : fexp prec emax (Zpos (digits2_pos m) + (e - 1)) = (e - 1)%Z).
    { rewrite D. unfold fexp, SpecFloat.emin, prec, emax. lia. }
    unfold binary_round_aux, shr_fexp.
    cbn [Zdigits2 shr_record_of_loc]. rewrite digits_52.
    replace (Zpos (digits2_pos m) + 52 + (e + -53))%Z
      with (Zpos (digits2_pos m) + (e - 1))%Z by lia.
    rewrite Hc.
    replace (e - 1 - (e + -53))%Z with 52%Z by lia.
    unfold shr at 1. rewrite shr_52.
    cbn [shr_m loc_of_shr_record round_nearest_even Zdigits2].
    replace (e + -53 + 52)%Z with (e - 1)%Z by lia.
    rewrite Hc, Z.sub_diag. cbn [shr shr_m shr_record_of_loc].
    replace (e - 1 <=? emax - prec)%Z with true; [reflexivity|].
    symmetry. apply Z.leb_le. unfold emax, prec. lia. }
  split.
  - exists m, (e - 1)%Z. split; [assumption|]. split; [assumption|lia].
  - unfold F2Q. rewrite M, E. cbn [SF2Q]. rewrite pow2_sub.
    change (2 ^ 1) with 2. field.
Qed.

(** *** Comparisons of a number with itself *)

Lemma ltb_irrefl (x : float) : (x <? x)%float = false.
Proof.
  rewrite ltb_spec. unfold SFltb.
  destruct (Prim2SF x) as [s|s| |s m e] eqn:E; trivial;
    rewrite SFcompare_refl; trivial; discriminate.
Qed.

Lemma jseq_refl (x : float) : is_nan x = false -> Binary64.jseq x x.
Proof.
  intros H. unfold Binary64.jseq. apply eqb_key; trivial.
  unfold keq. auto.
Qed.

End FloatValue.

(** ** A reduction that keeps the better of two elements

    Both [extractBiggestFace] and [getClosestSupportedResolution] reduce an
    array with a callback that keeps [prev] when it strictly beats [curr] and
    takes [curr] otherwise. *)

Section KeepBetter.

Context {A : Type}.
Variable beats : A -> A -> bool.
Variable R : A -> A -> Prop.
Variable P : A -> Prop.

Hypothesis beats_spec : forall a b, P a -> P b -> (beats a b = true <-> R a b).
Hypothesis R_trans : forall a b c, P a -> P b -> P c -> R a b -> R b c -> R a c.
Hypothesis R_neg_trans :
  forall a b c, P a -> P b -> P c -> ~ R a b -> ~ R b c -> ~ R a c.

Definition keep (prev curr : A) : A := if beats prev curr then prev else curr.

(** The result splits the array in two: nothing before it beats it, and it
    beats everything after it. *)
Lemma fold_keep (rest : list A) (first : A) :
  Forall P (first :: rest) ->
  exists pre post,
    first :: rest = pre ++ fold_left keep rest first :: post /\
    Forall (fun e => ~ R e (fold_left keep rest first)) pre /\
    Forall (fun e => R (fold_left keep rest first) e) post.
Proof.
  induction rest as [|c rest IH] using rev_ind; intros HP.
  - exists [], []. cbn. repeat split; constructor.
  - rewrite fold_left_app. cbn [fold_left].
    assert (HP' : Forall P (first :: rest)).
    { rewrite app_comm_cons in HP. apply Forall_app in HP. tauto. }
    assert (Pc : P c).
    { rewrite app_comm_cons in HP. apply Forall_app in HP.
      destruct HP as [_ HP]. now inversion HP. }
    destruct (IH HP') as (pre & post & Hsplit & Hpre & Hpost).
    set (r := fold_left keep rest first) in *.
    assert (Pr : P r).
    { rewrite Forall_forall in HP'. apply HP'. rewrite Hsplit.
      apply in_or_app. right. now left. }
    assert (Ppre : Forall P pre).
    { rewrite Hsplit in HP'. apply Forall_app in HP'. tauto. }
    assert (Ppost : Forall P post).
    { rewrite Hsplit in HP'. apply Forall_app in HP'. destruct HP' as [_ H].
      now inversion H. }
    destruct (beats r c) eqn:Hb.
    + replace (keep r c) with r by (unfold keep; now rewrite Hb).
      apply beats_spec in Hb; trivial.
      exists pre, (post ++ [c]). repeat split.
      * rewrite app_comm_cons, Hsplit, <- app_assoc. reflexivity.
      * assumption.
      * apply Forall_app. split; [assumption|]. now constructor.
    + replace (keep r c) with c by (unfold keep; now rewrite Hb).
      assert (Hn : ~ R r c).
      { intros H. apply beats_spec in H; trivial. congruence. }
      exists (first :: rest), []. repeat split.
      * rewrite Hsplit. apply Forall_app. split; [|constructor].
        -- rewrite Forall_forall in *. intros e He.
           apply R_neg_trans with (b := r); auto.
        -- assumption.
        -- rewrite Forall_forall in *. intros e He H.
           apply Hn. apply R_trans with (b := e); auto.
      * constructor.
Qed.

End KeepBetter.

(** ** Claims on the reductions: C10 and C2 *)

Module Reductions.

Import FloatOrder.
Local Open Scope float_scope.

Definition area_ok (f : Face float) : Prop := is_nan (getBBoxArea (bbox f)) = false.

Definition bigger (prev curr : Face float) : bool :=
  getBBoxArea (bbox curr) <? getBBoxArea (bbox prev).

Lemma extractBiggestFace_fold (first : Face float) (rest : list (Face float)) :
  extractBiggestFace (first :: rest) = Return (fold_left (keep bigger) rest first).
Proof. reflexivity. Qed.

(** C10, as the code has it: on a non-empty array of faces whose areas are
    numbers (no area is NaN), [extractBiggestFace] returns an element of the
    array whose area, as [getBBoxArea] computes it, is greater than or equal
    to the area of every element; on the empty array it throws. *)
Theorem extractBiggestFace_biggest (faces : list (Face float)) :
  (faces = [] -> extractBiggestFace faces = Throw TypeError) /\
  (faces <> [] -> Forall area_ok faces ->
   exists f, extractBiggestFace faces = Return f /\ In f faces /\
             forall g, In g faces ->
                       Binary64.jsle (getBBoxArea (bbox g)) (getBBoxArea (bbox f))).
Proof.
  split; [intros ->; reflexivity|].
  destruct faces as [|first rest]; [congruence|]. intros _ Hok.
  rewrite extractBiggestFace_fold.
  destruct (@fold_keep (Face float) bigger
              (fun p c => klt (fkey (getBBoxArea (bbox c))) (fkey (getBBoxArea (bbox p))))
              area_ok) with (rest := rest) (first := first)
    as (pre & post & Hsplit & Hpre & Hpost); trivial.
  - intros a b Ha Hb. unfold bigger. now apply ltb_key.
  - unfold klt. intros; lia.
  - unfold klt. intros; lia.
  - set (r := fold_left (keep bigger) rest first) in *.
    assert (Hr : In r (first :: rest)).
    { rewrite Hsplit. apply in_or_app. right. now left. }
    exists r. repeat split; trivial.
    intros g Hg. unfold Binary64.jsle.
    rewrite Forall_forall in Hok, Hpre, Hpost.
    apply leb_key; [now apply Hok | now apply Hok |].
    rewrite Hsplit in Hg. apply in_app_or in Hg as [Hg | [<- | Hg]].
    + now apply Hpre.
    + unfold klt. lia.
    + specialize (Hpost g Hg). unfold klt in *. lia.
Qed.

Definition two_faces : list (Face float) :=
  [ mkFace [] (mkBBox 10 10 110 60) 0.5 0 30;
    mkFace [] (mkBBox 200 40 400 240) 0.75 1 41 ].

Lemma extractBiggestFace_biggest_witness :
  exists f, extractBiggestFace two_faces = Return f /\ In f two_faces /\
            forall g, In g two_faces ->
                      Binary64.jsle (getBBoxArea (bbox g)) (getBBoxArea (bbox f)).
Proof.
  apply (extractBiggestFace_biggest two_faces).
  - discriminate.
  - repeat constructor.
Defined.

(** C10 as stated fails when an area is NaN.  The second box is so wide
    that its width overflows to [Infinity] while its height is 0, so its
    area is [Infinity * 0 = NaN]; every comparison with NaN is false, so the
    callback takes [curr] twice and the face of area 1 is returned, although
    the first face has area 200. *)
Definition nan_area_faces : list (Face float) :=
  [ mkFace [] (mkBBox 0 0 10 20) 0.5 0 30;
    mkFace [] (mkBBox (-0x1.ep1023) 0 0x1.ep1023 0) 0.5 0 30;
    mkFace [] (mkBBox 0 0 1 1) 0.5 0 30 ].

Lemma extractBiggestFace_nan_area :
  map (fun f => getBBoxArea (bbox f)) nan_area_faces = [200; nan; 1] /\
  extractBiggestFace nan_area_faces = Return (mkFace [] (mkBBox 0 0 1 1) 0.5 0 30) /\
  ~ (exists f, extractBiggestFace nan_area_faces = Return f /\
               forall g, In g nan_area_faces ->
                         Binary64.jsle (getBBoxArea (bbox g)) (getBBoxArea (bbox f))).
Proof.
  split; [reflexivity|]. split; [reflexivity|].
  intros (f & E & H). injection E as <-.
  specialize (H (mkFace [] (mkBBox 0 0 10 20) 0.5 0 30) (or_introl eq_refl)).
  vm_compute in H. discriminate.
Qed.

Definition dist_ok (ar : float) (res : Vector2 float) : Prop :=
  is_nan (arDistance ar res) = false.

Definition closer (ar : float) (prev curr : Vector2 float) : bool :=
  arDistance ar prev <? arDistance ar curr.

Lemma getClosestSupportedResolution_fold (imageWidth imageHeight : float)
    (first : Vector2 float) (rest : list (Vector2 float)) :
  getClosestSupportedResolution imageWidth imageHeight (first :: rest)
  = Return (fold_left (keep (closer (imageWidth / imageHeight))) rest first).
Proof. reflexivity. Qed.

(** C2, as the code has it: on a non-empty catalog whose distances to the
    image ratio are numbers, [getClosestSupportedResolution] returns an entry
    of minimal distance [Math.max(a, ar) / Math.min(a, ar)], and among the
    entries of minimal distance the LAST one in the order of the catalog:
    no entry before it is strictly closer, every entry after it is strictly
    farther. *)
Theorem getClosestSupportedResolution_last_minimal
    (imageWidth imageHeight : float) (catalog : list (Vector2 float)) :
  catalog <> [] ->
  Forall (dist_ok (imageWidth / imageHeight)) catalog ->
  exists pre r post,
    catalog = pre ++ r :: post /\
    getClosestSupportedResolution imageWidth imageHeight catalog = Return r /\
    (forall e, In e catalog ->
       Binary64.jsle (arDistance (imageWidth / imageHeight) r)
                     (arDistance (imageWidth / imageHeight) e)) /\
    (forall e, In e post ->
       (arDistance (imageWidth / imageHeight) r
        <? arDistance (imageWidth / imageHeight) e) = true).
Proof.
  destruct catalog as [|first rest]; [congruence|]. intros _ Hok.
  rewrite getClosestSupportedResolution_fold.
  set (ar := imageWidth / imageHeight) in *.
  destruct (@fold_keep (Vector2 float) (closer ar)
              (fun p c => klt (fkey (arDistance ar p)) (fkey (arDistance ar c)))
              (dist_ok ar)) with (rest := rest) (first := first)
    as (pre & post & Hsplit & Hpre & Hpost); trivial.
  - intros a b Ha Hb. unfold closer. now apply ltb_key.
  - unfold klt. intros; lia.
  - unfold klt. intros; lia.
  - set (r := fold_left (keep (closer ar)) rest first) in *.
    assert (Hr : In r (first :: rest)).
    { rewrite Hsplit. apply in_or_app. right. now left. }
    rewrite Forall_forall in Hok, Hpre, Hpost.
    exists pre, r, post. repeat split; trivial.
    + intros e He. unfold Binary64.jsle.
      apply leb_key; [now apply Hok | now apply Hok |].
      rewrite Hsplit in He. apply in_app_or in He as [He | [<- | He]].
      * now apply Hpre.
      * unfold klt. lia.
      * specialize (Hpost e He). unfold klt in *. lia.
    + intros e He. apply ltb_key.
      * now apply Hok.
      * apply Hok. rewrite Hsplit. apply in_or_app. right. now right.
      * now apply Hpost.
Qed.

(** [SUPPORTED_RESOLUTIONS] of the constants file. *)
Definition SUPPORTED_RESOLUTIONS : list (Vector2 float) :=
  [ (768, 512); (640, 512); (512, 512); (512, 640); (512, 768) ].

Lemma getClosestSupportedResolution_last_minimal_witness :
  exists pre r post,
    SUPPORTED_RESOLUTIONS = pre ++ r :: post /\
    getClosestSupportedResolution 1500 500 SUPPORTED_RESOLUTIONS = Return r /\
    (forall e, In e SUPPORTED_RESOLUTIONS ->
       Binary64.jsle (arDistance (1500 / 500) r) (arDistance (1500 / 500) e)) /\
    (forall e, In e post ->
       (arDistance (1500 / 500) r <? arDistance (1500 / 500) e) = true).
Proof.
  apply (getClosestSupportedResolution_last_minimal 1500 500 SUPPORTED_RESOLUTIONS).
  - discriminate.
  - repeat constructor.
Defined.

(** The claim C2 says that a tie goes to the first entry.  On a catalog of
    one landscape and one portrait resolution and a square image both
    entries are at distance 1.5, and the second one is returned. *)
Lemma getClosestSupportedResolution_tie_takes_last :
  arDistance (1000 / 1000) (768, 512) = 1.5 /\
  arDistance (1000 / 1000) (512, 768) = 1.5 /\
  getClosestSupportedResolution 1000 1000 [ (768, 512); (512, 768) ]
  = Return (512, 768) /\
  getClosestSupportedResolution 1000 1000 [ (768, 512); (512, 768) ]
  <> Return (768, 512).
Proof.
  repeat split; try reflexivity.
  vm_compute. intros H. inversion H.
Qed.

End Reductions.

(** ** Exact arithmetic: comparisons, division and rounding *)

Module ExactFacts.

Import Exact.
Local Open Scope Q_scope.

Lemma Qltb_true (p q : Q) : Qltb p q = true <-> p < q.
Proof.
  unfold Qltb. rewrite negb_true_iff. split.
  - intros H. apply Qnot_le_lt. intros Hle. apply Qle_bool_iff in Hle. congruence.
  - intros H. destruct (Qle_bool q p) eqn:E; [|reflexivity].
    apply Qle_bool_iff in E. exfalso. apply (Qlt_not_le _ _ H E).
Qed.

Lemma Qltb_false (p q : Q) : Qltb p q = false <-> q <= p.
Proof.
  unfold Qltb. rewrite negb_false_iff. apply Qle_bool_iff.
Qed.

(** Case analysis on every comparison of the goal, the outcomes turned into
    inequalities. *)
Ltac qltb_cases :=
  repeat match goal with
         | H : Qltb _ _ = true |- _ => apply Qltb_true in H
         | H : Qltb _ _ = false |- _ => apply Qltb_false in H
         | |- context [Qltb ?a ?b] =>
             let E := fresh "E" in destruct (Qltb a b) eqn:E
         end.

Lemma xdiv_some (p q : Q) : ~ q == 0 -> xdiv (Some p) (Some q) = Some (p / q).
Proof.
  intros H. unfold xdiv. destruct (Qeq_bool q 0) eqn:E; [|reflexivity].
  apply Qeq_bool_iff in E. contradiction.
Qed.

Lemma Qround_bounds (q : Q) : q - (1 # 2) < Qround q /\ Qround q <= q + (1 # 2).
Proof.
  unfold Qround. split.
  - pose proof (Qlt_floor (q + (1 # 2))) as H.
    rewrite inject_Z_plus in H. change (inject_Z 1) with 1 in H. lra.
  - apply Qfloor_le.
Qed.

Lemma Qround_Z (z : Z) : Qround (inject_Z z) == inject_Z z.
Proof.
  unfold Qround.
  assert (H : Qfloor (inject_Z z + (1 # 2)) = z).
  { assert (Hlo : (z <= Qfloor (inject_Z z + (1 # 2)))%Z).
    { rewrite <- (Qfloor_Z z) at 1. apply Qfloor_resp_le. lra. }
    assert (Hhi : (Qfloor (inject_Z z + (1 # 2)) < z + 1)%Z).
    { rewrite Zlt_Qlt, inject_Z_plus. change (inject_Z 1) with 1.
      pose proof (Qfloor_le (inject_Z z + (1 # 2))). lra. }
    lia. }
  now rewrite H.
Qed.

#[global] Instance Qround_proper : Proper (Qeq ==> Qeq) Qround.
Proof.
  intros p q H. unfold Qround. now rewrite H.
Qed.

End ExactFacts.

(** ** Claims on the alpha encoding and on interpolation: C8, C9, C3 *)

Module Interpolation.

Import Exact ExactFacts FloatOrder FloatArith FloatInt Pixels FloatValue.
Local Open Scope Q_scope.

(** *** The round trip in exact arithmetic *)

Lemma getBBoxFromAlpha_getAlphaFromBBox_exact (bx1 by1 bx2 by2 W H : Q) :
  bx2 - bx1 < W -> by2 - by1 < H ->
  bbox_xeq
    (getBBoxFromAlpha (Some W) (Some H) (Some (bx2 - bx1)) (Some (by2 - by1))
       (getAlphaFromBBox (box bx1 by1 bx2 by2) (Some W) (Some H)))
    (box bx1 by1 bx2 by2).
Proof.
  intros Hw Hh.
  unfold getAlphaFromBBox, getBBoxFromAlpha, lerpBBox, lerp, box, bbox_xeq.
  cbn -[Qplus Qminus Qmult Qdiv xdiv].
  rewrite !xdiv_some by lra.
  cbn -[Qplus Qminus Qmult Qdiv].
  repeat split; field; lra.
Qed.

(** *** The round trip in binary64 *)

(** One axis: the box spans [[c1, c2]] in a frame of size [S]. *)
Lemma alpha_round_trip_axis (c1 c2 S : Z) :
  (0 <= c1 <= c2)%Z -> (c2 - c1 < S < 2 ^ 53)%Z -> (c2 < 2 ^ 53)%Z ->
  let size := (ofZ c2 - ofZ c1)%float in
  let alpha := (ofZ c1 / (ofZ S - size))%float in
  close (lerp 0%float (ofZ S - size)%float alpha) c1 /\
  close (lerp size (ofZ S) alpha) c2.
Proof.
  intros H1 HS H2 size alpha. unfold lerp. cbn [nadd nmul nsub Binary64.number].
  assert (Es : size = ofZ (c2 - c1)) by (apply ofZ_sub; unfold safe; lia).
  assert (Ed : (ofZ S - size)%float = ofZ (S - (c2 - c1))).
  { rewrite Es. apply ofZ_sub; unfold safe; lia. }
  set (d := (S - (c2 - c1))%Z) in *.
  assert (Hd : (0 < d < 2 ^ 53)%Z) by (unfold d; lia).
  assert (Ed0 : (ofZ d - 0)%float = ofZ d).
  { change 0%float with (ofZ 0). rewrite ofZ_sub by (unfold safe; lia).
    f_equal. lia. }
  unfold alpha. rewrite Ed, Ed0, Es.
  destruct (Z.eq_dec c1 0) as [->|N1].
  - (* at the edge: alpha is 0 *)
    rewrite zero_div_ofZ, zero_mul_ofZ by assumption.
    change 0%float with (ofZ 0).
    rewrite !ofZ_add by (unfold safe; lia).
    split.
    + apply (close_ofZ 0). lia.
    + replace (c2 - 0 + 0)%Z with c2 by lia. apply close_ofZ. lia.
  - assert (P1 : (0 : Q) < 1) by reflexivity.
    assert (Pc : 0 < inject_Z c1) by (change 0 with (inject_Z 0); rewrite <- Zlt_Qlt; lia).
    assert (Pd : 0 < inject_Z d) by (change 0 with (inject_Z 0); rewrite <- Zlt_Qlt; lia).
    pose proof (approx_ofZ c1 ltac:(lia)) as A1.
    pose proof (approx_ofZ d Hd) as Ad.
    pose proof (approx_div _ _ _ _ _ _ _ _ _ _ A1 Ad ltac:(lia) ltac:(lia) ltac:(lia)
                  Pc Pd P1 P1 P1) as Aal.
    assert (Pal : 0 < inject_Z c1 / inject_Z d) by (apply Qlt_shift_div_l; lra).
    pose proof (approx_mul _ _ _ _ _ _ _ _ _ _ Aal Ad ltac:(lia) ltac:(lia) ltac:(lia)
                  Pal Pd ltac:(qconst) P1) as Ap.
    apply (approx_value _ _ _ _ _ (inject_Z c1)) in Ap; [|field; lra].
    rewrite (add_zero_l _ _ (proj1 Ap)).
    split; [apply (approx_close _ _ _ _ _ Ap); [lia|qconst|qconst]|].
    destruct (Z.eq_dec c2 c1) as [->|N2].
    + replace (c1 - c1)%Z with 0%Z by lia. change (ofZ 0) with 0%float.
      rewrite (add_zero_l _ _ (proj1 Ap)).
      apply (approx_close _ _ _ _ _ Ap); [lia|qconst|qconst].
    + pose proof (approx_ofZ (c2 - c1) ltac:(lia)) as Aw.
      assert (Pw : 0 <= inject_Z (c2 - c1))
        by (change 0 with (inject_Z 0); rewrite <- Zle_Qle; lia).
      assert (Aw' : approx 52 (1 / 1 * (1 - eps) * 1 * (1 - eps))
                              (1 / 1 * (1 + eps) * 1 * (1 + eps))
                              (ofZ (c2 - c1)) (inject_Z (c2 - c1))).
      { apply (approx_weaken _ _ _ _ _ _ _ _ Aw Pw); [lia|qconst|qconst]. }
      pose proof (approx_add _ _ _ _ _ _ _ _ Aw' Ap ltac:(lia) ltac:(lia)) as Ac.
      apply (approx_value _ _ _ _ _ (inject_Z c2)) in Ac.
      * apply (approx_close _ _ _ _ _ Ac); [lia|qconst|qconst].
      * rewrite <- inject_Z_plus.
        replace (c2 - c1 + c1)%Z with c2 by lia. reflexivity.
Qed.

Lemma getBBoxFromAlpha_getAlphaFromBBox_close (zx1 zy1 zx2 zy2 zW zH : Z) :
  (0 <= zx1 <= zx2)%Z -> (0 <= zy1 <= zy2)%Z ->
  (zx2 - zx1 < zW < 2 ^ 53)%Z -> (zy2 - zy1 < zH < 2 ^ 53)%Z ->
  (zx2 < 2 ^ 53)%Z -> (zy2 < 2 ^ 53)%Z ->
  let r := getBBoxFromAlpha (ofZ zW) (ofZ zH)
             (ofZ zx2 - ofZ zx1)%float (ofZ zy2 - ofZ zy1)%float
             (getAlphaFromBBox (Zbox zx1 zy1 zx2 zy2) (ofZ zW) (ofZ zH)) in
  close (x1 r) zx1 /\ close (y1 r) zy1 /\ close (x2 r) zx2 /\ close (y2 r) zy2.
Proof.
  intros Hx Hy HW HH Bx By.
  destruct (alpha_round_trip_axis zx1 zx2 zW Hx HW Bx) as [X1 X2].
  destruct (alpha_round_trip_axis zy1 zy2 zH Hy HH By) as [Y1 Y2].
  cbv zeta in X1, X2, Y1, Y2.
  unfold getBBoxFromAlpha, getAlphaFromBBox, lerpBBox, Zbox.
  cbn [x1 y1 x2 y2 fst snd nsub ndiv num0 Binary64.number].
  auto.
Qed.

(** C8, as the code has it: for a box of width [w] and height [h] in an
    image of width [W] and height [H] with [w < W] and [h < H],
    [getBBoxFromAlpha(W, H, w, h, getAlphaFromBBox(bbox, W, H))] is the box
    again in exact arithmetic; in binary64, for integer pixel coordinates
    from 0 and below [2^53], each coordinate of the result is a number
    within [2^-50] of the original one, relatively. *)
Theorem getBBoxFromAlpha_getAlphaFromBBox (bx1 by1 bx2 by2 W H : Q)
    (zx1 zy1 zx2 zy2 zW zH : Z) :
  (bx2 - bx1 < W -> by2 - by1 < H ->
   bbox_xeq
     (getBBoxFromAlpha (Some W) (Some H) (Some (bx2 - bx1)) (Some (by2 - by1))
        (getAlphaFromBBox (box bx1 by1 bx2 by2) (Some W) (Some H)))
     (box bx1 by1 bx2 by2)) /\
  ((0 <= zx1 <= zx2)%Z -> (0 <= zy1 <= zy2)%Z ->
   (zx2 - zx1 < zW < 2 ^ 53)%Z -> (zy2 - zy1 < zH < 2 ^ 53)%Z ->
   (zx2 < 2 ^ 53)%Z -> (zy2 < 2 ^ 53)%Z ->
   let r := getBBoxFromAlpha (ofZ zW) (ofZ zH)
              (ofZ zx2 - ofZ zx1)%float (ofZ zy2 - ofZ zy1)%float
              (getAlphaFromBBox (Zbox zx1 zy1 zx2 zy2) (ofZ zW) (ofZ zH)) in
   close (x1 r) zx1 /\ close (y1 r) zy1 /\ close (x2 r) zx2 /\ close (y2 r) zy2).
Proof.
  split.
  - apply getBBoxFromAlpha_getAlphaFromBBox_exact.
  - apply getBBoxFromAlpha_getAlphaFromBBox_close.
Qed.

Lemma getBBoxFromAlpha_getAlphaFromBBox_witness :
  bbox_xeq
    (getBBoxFromAlpha (Some 50) (Some 50) (Some (2 - 1)) (Some (2 - 1))
       (getAlphaFromBBox (box 1 1 2 2) (Some 50) (Some 50)))
    (box 1 1 2 2) /\
  (let r := getBBoxFromAlpha (ofZ 50) (ofZ 50)
              (ofZ 2 - ofZ 1)%float (ofZ 2 - ofZ 1)%float
              (getAlphaFromBBox (Zbox 1 1 2 2) (ofZ 50) (ofZ 50)) in
   close (x1 r) 1 /\ close (y1 r) 1 /\ close (x2 r) 2 /\ close (y2 r) 2).
Proof.
  destruct (getBBoxFromAlpha_getAlphaFromBBox 1 1 2 2 50 50 1 1 2 2 50 50) as [E F].
  split.
  - apply E; reflexivity.
  - apply F; lia.
Defined.


(** C8 as stated fails in binary64: the box [[1, 1, 2, 2]] in a 50 x 50
    image has alpha [1 / 49], and [(1 / 49) * 49] rounds to
    [0.99999999999999989], not to [1]. *)
Lemma getBBoxFromAlpha_getAlphaFromBBox_binary64 :
  (getBBoxFromAlpha 50 50 (2 - 1) (2 - 1)
     (getAlphaFromBBox (mkBBox 1 1 2 2) 50 50)
   = mkBBox 0x1.fffffffffffffp-1 0x1.fffffffffffffp-1 2 2)%float /\
  ~ Binary64.bbox_jseq
      (getBBoxFromAlpha 50 50 (2 - 1) (2 - 1)
         (getAlphaFromBBox (mkBBox 1 1 2 2) 50 50))%float
      (mkBBox 1 1 2 2)%float.
Proof.
  split; [reflexivity|].
  unfold Binary64.bbox_jseq, Binary64.jseq. vm_compute. intros [H _]. discriminate.
Qed.

(** *** Interpolation *)

(** The differences [end - start] that [lerpBBox] forms are finite. *)
Definition finite_differences (a b : BBox float) : Prop :=
  is_finite (x1 b - x1 a)%float = true /\ is_finite (y1 b - y1 a)%float = true /\
  is_finite (x2 b - x2 a)%float = true /\ is_finite (y2 b - y2 a)%float = true.

Lemma lerp_0 (a b : float) :
  is_finite (b - a)%float = true -> Binary64.jseq (lerp a b 0%float) a.
Proof.
  intros Hd. unfold lerp, Binary64.jseq. cbn.
  apply add_zero_r.
  - destruct (is_nan a) eqn:E; [|reflexivity].
    apply (sub_nan_r b) in E. apply is_finite_not_nan in Hd. congruence.
  - now apply mul_zero_l.
Qed.

Lemma lerp_1 (a b : float) : lerp a b 1%float = (a + (b - a))%float.
Proof. unfold lerp. cbn. now rewrite mul_one_l. Qed.

Lemma lerp_exact (a b t : Q) :
  lerp (Some a) (Some b) (Some t) = Some (a + t * (b - a)).
Proof. reflexivity. Qed.

(** 0.1 and 2^54 as binary64 values. *)
Definition tenth : float := 0x1.999999999999ap-4%float.
Definition two_54 : float := 18014398509481984%float.

(** C9 as stated fails in binary64 at alpha (1, 1): [0.5 + 1 * (0.1 - 0.5)]
    is [0.09999999999999998], and [2^54 + 1 * (1 - 2^54)] is [0], because
    the differences are rounded. *)
Lemma lerpBBox_1_1_binary64 :
  (lerpBBox (mkBBox 0.5 two_54 0.5 two_54) (mkBBox tenth 1 tenth 1) (1, 1)
   = mkBBox 0x1.9999999999998p-4 0 0x1.9999999999998p-4 0)%float /\
  ~ Binary64.bbox_jseq
      (lerpBBox (mkBBox 0.5 two_54 0.5 two_54) (mkBBox tenth 1 tenth 1) (1, 1))%float
      (mkBBox tenth 1 tenth 1)%float.
Proof.
  split; [reflexivity|].
  unfold Binary64.bbox_jseq, Binary64.jseq. vm_compute. intros [H _]. discriminate.
Qed.

(** At alpha 1 and on integer pixel coordinates nothing is rounded. *)
Lemma lerp_1_pixel (a b : Z) : pixel a -> pixel b -> lerp (ofZ a) (ofZ b) 1%float = ofZ b.
Proof.
  intros Ha Hb. rewrite lerp_1.
  rewrite ofZ_sub by auto using pixel_safe, pixel_sub_safe.
  rewrite ofZ_add.
  - f_equal. lia.
  - now apply pixel_safe.
  - now apply pixel_sub_safe.
  - replace (a + (b - a))%Z with b by lia. now apply pixel_safe.
Qed.

(** C9, as the code has it.  In binary64: [lerpBBox(a, b, (0, 0))] is [a]
    whenever the differences [b[i] - a[i]] are finite;
    [lerpBBox(a, b, (1, 1))[i]] is the rounded sum [a[i] + (b[i] - a[i])],
    which is [b[i]] when the coordinates are integers in pixel range.  In
    exact arithmetic the result at (0, 0) is [a], the result at (1, 1) is
    [b], and every alpha, inside [0, 1] or not, gives the point
    [a[i] + alpha * (b[i] - a[i])] of the line through them. *)
Theorem lerpBBox_endpoints (a b : BBox float)
    (za1 za2 za3 za4 zb1 zb2 zb3 zb4 : Z)
    (a1 a2 a3 a4 b1 b2 b3 b4 tx ty : Q) :
  (finite_differences a b -> Binary64.bbox_jseq (lerpBBox a b (0, 0)%float) a) /\
  lerpBBox a b (1, 1)%float
  = mkBBox (x1 a + (x1 b - x1 a))%float (y1 a + (y1 b - y1 a))%float
           (x2 a + (x2 b - x2 a))%float (y2 a + (y2 b - y2 a))%float /\
  (Forall pixel [za1; za2; za3; za4; zb1; zb2; zb3; zb4] ->
   lerpBBox (Zbox za1 za2 za3 za4) (Zbox zb1 zb2 zb3 zb4) (1, 1)%float
   = Zbox zb1 zb2 zb3 zb4) /\
  bbox_xeq (lerpBBox (box a1 a2 a3 a4) (box b1 b2 b3 b4) (Some 0, Some 0))
           (box a1 a2 a3 a4) /\
  bbox_xeq (lerpBBox (box a1 a2 a3 a4) (box b1 b2 b3 b4) (Some 1, Some 1))
           (box b1 b2 b3 b4) /\
  lerpBBox (box a1 a2 a3 a4) (box b1 b2 b3 b4) (Some tx, Some ty)
  = box (a1 + tx * (b1 - a1)) (a2 + ty * (b2 - a2))
        (a3 + tx * (b3 - a3)) (a4 + ty * (b4 - a4)).
Proof.
  split; [|split; [|split; [|split; [|split]]]].
  - intros (H1 & H2 & H3 & H4). unfold lerpBBox, Binary64.bbox_jseq.
    cbn [x1 y1 x2 y2 fst snd]. repeat split; now apply lerp_0.
  - unfold lerpBBox. cbn [x1 y1 x2 y2 fst snd]. now rewrite !lerp_1.
  - intros HP.
    repeat match goal with
           | H : Forall pixel (_ :: _) |- _ => inversion H; subst; clear H
           end.
    unfold lerpBBox, Zbox. cbn [x1 y1 x2 y2 fst snd].
    now rewrite !lerp_1_pixel by assumption.
  - unfold bbox_xeq, lerpBBox, lerp, box. cbn. repeat split; ring.
  - unfold bbox_xeq, lerpBBox, lerp, box. cbn. repeat split; ring.
  - reflexivity.
Qed.

Lemma lerpBBox_endpoints_witness :
  Binary64.bbox_jseq
    (lerpBBox (mkBBox 10 20 110 220) (mkBBox 0 0 50 50) (0, 0))%float
    (mkBBox 10 20 110 220)%float /\
  lerpBBox (Zbox 10 20 110 220) (Zbox 0 0 50 50) (1, 1)%float = Zbox 0 0 50 50.
Proof.
  split.
  - apply (lerpBBox_endpoints (mkBBox 10 20 110 220)%float (mkBBox 0 0 50 50)%float
             0 0 0 0 0 0 0 0 0 0 0 0 0 0 0 0 0 0).
    repeat split.
  - apply (lerpBBox_endpoints (mkBBox 0 0 0 0)%float (mkBBox 0 0 0 0)%float
             10 20 110 220 0 0 50 50 0 0 0 0 0 0 0 0 0 0).
    repeat constructor; discriminate.
Defined.

(** *** Division by zero in the alpha encoding *)

Lemma eqb_sym (x y : float) : (x =? y)%float = (y =? x)%float.
Proof.
  rewrite !eqb_spec. unfold SFeqb.
  destruct (Prim2SF x) as [[|]|[|]| |[|] m e], (Prim2SF y) as [[|]|[|]| |[|] m' e'];
    cbn; try reflexivity;
    change (Pos.compare_cont Eq m m') with (Pos.compare m m');
    change (Pos.compare_cont Eq m' m) with (Pos.compare m' m);
    rewrite (Z.compare_antisym e e'), (Pos.compare_antisym m m');
    destruct (e ?= e')%Z, (m ?= m')%positive; reflexivity.
Qed.

(** What [x / d] is when [d] is a zero: never the number 0. *)
Definition nan_or_infinity (x q : float) : Prop :=
  (if is_zero x || is_nan x then is_nan q else is_infinity q) = true /\
  (q =? 0)%float = false.

Lemma div_by_zero_not_zero (x d : float) :
  is_zero d = true -> nan_or_infinity x (x / d)%float.
Proof.
  intros Hd. pose proof (div_by_zero x d Hd) as H. split; [exact H|].
  rewrite eqb_spec. change (Prim2SF 0) with (S754_zero false).
  destruct (is_zero x || is_nan x).
  - apply is_nan_spec in H. now rewrite H.
  - apply is_infinity_spec in H as [s H]. rewrite H. now destruct s.
Qed.

(** C3 as stated fails: with a box as wide as the image the first alpha is
    [0 / 0], which is NaN, and with a box as tall as the image and [y1 = 10]
    the second one is [10 / 0], which is [Infinity]. *)
Lemma getAlphaFromBBox_full_size_binary64 :
  getAlphaFromBBox (mkBBox 0 10 100 110)%float 100%float 100%float = (nan, infinity).
Proof. reflexivity. Qed.

(** C3, as the code has it: when the width of the box equals the width of
    the image, the first alpha is a quotient by zero: NaN if [x1] is zero or
    NaN, an infinity otherwise, and so never 0; the same holds of the height
    and the second alpha. *)
Theorem getAlphaFromBBox_division_by_zero (b : BBox float) (imageWidth imageHeight : float) :
  (is_finite imageWidth = true ->
   Binary64.jseq imageWidth (x2 b - x1 b)%float ->
   nan_or_infinity (x1 b) (fst (getAlphaFromBBox b imageWidth imageHeight))) /\
  (is_finite imageHeight = true ->
   Binary64.jseq imageHeight (y2 b - y1 b)%float ->
   nan_or_infinity (y1 b) (snd (getAlphaFromBBox b imageWidth imageHeight))).
Proof.
  unfold getAlphaFromBBox, Binary64.jseq. cbn [fst snd].
  split; intros Hf He; apply div_by_zero_not_zero; now apply sub_eq_zero.
Qed.

Lemma getAlphaFromBBox_division_by_zero_witness :
  nan_or_infinity 0%float
    (fst (getAlphaFromBBox (mkBBox 0 10 100 110)%float 100%float 100%float)) /\
  nan_or_infinity 10%float
    (snd (getAlphaFromBBox (mkBBox 0 10 100 110)%float 100%float 100%float)).
Proof.
  split;
    apply (getAlphaFromBBox_division_by_zero (mkBBox 0 10 100 110)%float 100%float 100%float);
    reflexivity.
Defined.

End Interpolation.

(** ** Claims on clipping: C4 *)

Module Clipping.

Import Exact ExactFacts FloatOrder FloatArith FloatInt Pixels.

(** [x2 >= x1] and [y2 >= y1]. *)
Definition wellFormed (b : BBox float) : Prop :=
  Binary64.jsle (x1 b) (x2 b) /\ Binary64.jsle (y1 b) (y2 b).

Lemma jsle_not_nan (a b : float) :
  Binary64.jsle a b -> is_nan a = false /\ is_nan b = false.
Proof.
  unfold Binary64.jsle. intros H. split.
  - destruct (is_nan a) eqn:E; [|reflexivity].
    rewrite (leb_nan_l a b E) in H. discriminate.
  - destruct (is_nan b) eqn:E; [|reflexivity].
    rewrite (leb_nan_r a b E) in H. discriminate.
Qed.

(** [Math.max(0, Math.min(v, size))] is monotone in [v]. *)
Lemma clamp_monotone (lo hi size : float) :
  is_nan size = false -> Binary64.jsle lo hi ->
  Binary64.jsle (Binary64.max 0 (Binary64.min lo size))
                (Binary64.max 0 (Binary64.min hi size)).
Proof.
  intros Hs Hle. destruct (jsle_not_nan lo hi Hle) as [Hlo Hhi].
  unfold Binary64.jsle in *.
  apply (leb_key lo hi Hlo Hhi) in Hle.
  pose proof (min_not_nan lo size Hlo Hs) as Nlo.
  pose proof (min_not_nan hi size Hhi Hs) as Nhi.
  assert (N0 : is_nan 0 = false) by reflexivity.
  apply leb_key; try (now apply max_not_nan).
  destruct (min_cases lo size Hlo Hs) as [[-> A]|[-> A]];
    destruct (min_cases hi size Hhi Hs) as [[-> B]|[-> B]];
    match goal with
    | |- ~ klt (fkey (Binary64.max 0 ?u)) (fkey (Binary64.max 0 ?v)) =>
        destruct (max_cases 0 u N0 ltac:(assumption)) as [[Eu C]|[Eu C]];
        destruct (max_cases 0 v N0 ltac:(assumption)) as [[Ev D]|[Ev D]];
        rewrite ?Eu, ?Ev
    end;
    unfold klt in *; lia.
Qed.

(** C4 as stated fails on an inverted box that lies inside the frame: each
    coordinate is clamped on its own, so the box comes back as it went in. *)
Lemma clipBBox_keeps_inverted :
  clipBBox (mkBBox 5 0 2 0)%float 10%float 10%float = (mkBBox 5 0 2 0)%float /\
  ~ wellFormed (clipBBox (mkBBox 5 0 2 0)%float 10%float 10%float).
Proof.
  split; [reflexivity|].
  unfold wellFormed, Binary64.jsle. vm_compute. intros [H _]. discriminate.
Qed.

(** A box of rationals lies outside the frame: it ends before the left or the
    top edge, or starts after the right or the bottom edge. *)
Definition outside (bx1 by1 bx2 by2 W H : Q) : Prop :=
  (bx2 <= 0 \/ W <= bx1 \/ by2 <= 0 \/ H <= by1)%Q.

Lemma clipBBox_exact (bx1 by1 bx2 by2 W H : Q) :
  clipBBox (box bx1 by1 bx2 by2) (Some W) (Some H)
  = box (Qmax 0 (Qmin bx1 W)) (Qmax 0 (Qmin by1 H))
        (Qmax 0 (Qmin bx2 W)) (Qmax 0 (Qmin by2 H)).
Proof. reflexivity. Qed.

Lemma Qclamp_monotone (lo hi size : Q) :
  (lo <= hi -> Qmax 0 (Qmin lo size) <= Qmax 0 (Qmin hi size))%Q.
Proof.
  intros Hle. unfold Qmax, Qmin.
  destruct (Qltb lo size) eqn:E1; destruct (Qltb hi size) eqn:E2;
    qltb_cases; lra.
Qed.

Lemma Qclamp_outside (lo hi size : Q) :
  (lo <= hi -> hi <= 0 \/ size <= lo ->
   Qmax 0 (Qmin hi size) - Qmax 0 (Qmin lo size) == 0)%Q.
Proof.
  intros Hle Hout. unfold Qmax, Qmin.
  destruct (Qltb lo size) eqn:E1; destruct (Qltb hi size) eqn:E2;
    qltb_cases; lra.
Qed.

(** The clip of a box of integer pixel coordinates, in binary64. *)
Lemma clipBBox_pixels (bx1 by1 bx2 by2 W H : Z) :
  Forall pixel [bx1; by1; bx2; by2; W; H] ->
  clipBBox (Zbox bx1 by1 bx2 by2) (ofZ W) (ofZ H)
  = Zbox (Z.max 0 (Z.min bx1 W)) (Z.max 0 (Z.min by1 H))
         (Z.max 0 (Z.min bx2 W)) (Z.max 0 (Z.min by2 H)).
Proof.
  intros HP.
  repeat match goal with
         | H : Forall pixel (_ :: _) |- _ => inversion H; subst; clear H
         end.
  unfold clipBBox, Zbox. cbn [x1 y1 x2 y2 Math_max Math_min num0 Binary64.number].
  change 0%float with (ofZ 0).
  assert (S0 : safe 0) by (unfold safe; lia).
  assert (Smin : forall a b, pixel a -> pixel b -> safe (Z.min a b)).
  { unfold pixel, safe. intros; lia. }
  rewrite !ofZ_min, !ofZ_max by auto using pixel_safe. reflexivity.
Qed.

Definition outsideZ (bx1 by1 bx2 by2 W H : Z) : Prop :=
  (bx2 <= 0 \/ W <= bx1 \/ by2 <= 0 \/ H <= by1)%Z.

Lemma clipBBox_pixels_outside (bx1 by1 bx2 by2 W H : Z) :
  Forall pixel [bx1; by1; bx2; by2; W; H] ->
  (bx1 <= bx2)%Z -> (by1 <= by2)%Z -> outsideZ bx1 by1 bx2 by2 W H ->
  Binary64.jseq (getBBoxArea (clipBBox (Zbox bx1 by1 bx2 by2) (ofZ W) (ofZ H))) 0%float.
Proof.
  intros HP Hx Hy Hout. rewrite clipBBox_pixels by assumption.
  repeat match goal with
         | H : Forall pixel (_ :: _) |- _ => inversion H; subst; clear H
         end.
  unfold getBBoxArea, Zbox, Binary64.jseq. cbn [x1 y1 x2 y2 nsub nmul Binary64.number].
  assert (P : forall a b, pixel a -> pixel b -> pixel (Z.max 0 (Z.min a b))).
  { unfold pixel. intros; lia. }
  rewrite !ofZ_sub by auto using pixel_safe, pixel_sub_safe.
  apply ofZ_mul_zero; auto using pixel_sub_safe.
  unfold outsideZ in Hout. lia.
Qed.

(** C4, as the code has it: [clipBBox] maps a well-formed box, in a frame
    whose sizes are numbers, to a well-formed box; and the clip of a
    well-formed box that lies outside the frame has area 0, in binary64 for
    integer pixel coordinates and in exact arithmetic for all rationals. *)
Theorem clipBBox_well_formed (b : BBox float) (imageWidth imageHeight : float)
    (zx1 zy1 zx2 zy2 zW zH : Z) (bx1 by1 bx2 by2 W H : Q) :
  (is_nan imageWidth = false -> is_nan imageHeight = false -> wellFormed b ->
   wellFormed (clipBBox b imageWidth imageHeight)) /\
  (Forall pixel [zx1; zy1; zx2; zy2; zW; zH] ->
   (zx1 <= zx2)%Z -> (zy1 <= zy2)%Z -> outsideZ zx1 zy1 zx2 zy2 zW zH ->
   Binary64.jseq
     (getBBoxArea (clipBBox (Zbox zx1 zy1 zx2 zy2) (ofZ zW) (ofZ zH))) 0%float) /\
  ((bx1 <= bx2)%Q -> (by1 <= by2)%Q -> outside bx1 by1 bx2 by2 W H ->
   xeq (getBBoxArea (clipBBox (box bx1 by1 bx2 by2) (Some W) (Some H))) (Some 0%Q)).
Proof.
  split; [|split].
  - intros Hw Hh [Hx Hy]. unfold wellFormed, clipBBox. cbn [x1 y1 x2 y2].
    split; now apply clamp_monotone.
  - apply clipBBox_pixels_outside.
  - intros Hx Hy Hout. rewrite clipBBox_exact. unfold getBBoxArea, box, xeq.
    cbn [x1 y1 x2 y2 nsub nmul number lift2].
    destruct Hout as [Ho|[Ho|[Ho|Ho]]].
    + rewrite (Qclamp_outside bx1 bx2 W Hx (or_introl Ho)). ring.
    + rewrite (Qclamp_outside bx1 bx2 W Hx (or_intror Ho)). ring.
    + rewrite (Qclamp_outside by1 by2 H Hy (or_introl Ho)). ring.
    + rewrite (Qclamp_outside by1 by2 H Hy (or_intror Ho)). ring.
Qed.

Lemma clipBBox_well_formed_witness :
  wellFormed (clipBBox (mkBBox (-20) 30 40 500)%float 100%float 200%float) /\
  Binary64.jseq
    (getBBoxArea (clipBBox (Zbox 120 30 150 60) (ofZ 100) (ofZ 200))) 0%float /\
  xeq (getBBoxArea (clipBBox (box 120 30 150 60) (Some 100%Q) (Some 200%Q))) (Some 0%Q).
Proof.
  split; [|split].
  - apply (clipBBox_well_formed (mkBBox (-20) 30 40 500)%float 100%float 200%float
             0 0 0 0 0 0 0 0 0 0 0 0); try reflexivity. split; reflexivity.
  - apply (clipBBox_well_formed (mkBBox 0 0 0 0)%float 0%float 0%float
             120 30 150 60 100 200 0 0 0 0 0 0).
    + repeat constructor; discriminate.
    + discriminate.
    + discriminate.
    + right. left. discriminate.
  - apply (clipBBox_well_formed (mkBBox 0 0 0 0)%float 0%float 0%float
             0 0 0 0 0 0 120 30 150 60 100 200).
    + discriminate.
    + discriminate.
    + right. left. discriminate.
Defined.

End Clipping.

(** ** Claims on shifting a box into the frame: C7 *)

Module Shifting.

Import Exact ExactFacts FloatOrder FloatArith FloatInt Pixels.

(** What [shiftCoordinates] does on one axis: the overrun at the low edge is
    fixed first, the overrun at the high edge is then looked for on the
    coordinates this left. *)
Definition shiftAxis {num : Type} {N : Number num} (lo hi size : num) : num * num :=
  let extent := (hi - lo)%js in
  let '(lo, hi) := if (lo <? num0)%js then (num0, (num0 + extent)%js) else (lo, hi) in
  if (hi >? size)%js then ((size - extent)%js, size) else (lo, hi).

(** Each axis is handled on its own. *)
Lemma shiftCoordinates_axes {num : Type} {N : Number num}
    (b : BBox num) (imageWidth imageHeight : num) :
  shiftCoordinates b imageWidth imageHeight
  = mkBBox (fst (shiftAxis (x1 b) (x2 b) imageWidth))
           (fst (shiftAxis (y1 b) (y2 b) imageHeight))
           (snd (shiftAxis (x1 b) (x2 b) imageWidth))
           (snd (shiftAxis (y1 b) (y2 b) imageHeight)).
Proof.
  unfold shiftCoordinates, shiftAxis.
  destruct (x1 b <? num0)%js, (y1 b <? num0)%js; cbv beta iota;
    repeat match goal with
           | |- context [if ?c then _ else _] => destruct c
           end; reflexivity.
Qed.

Local Open Scope Q_scope.

(** On one axis, in exact arithmetic: the extent is kept and the result
    lies in [[0, size]]. *)
Lemma shiftAxis_exact (lo hi size : Q) :
  lo <= hi -> hi - lo <= size ->
  exists lo' hi',
    shiftAxis (Some lo) (Some hi) (Some size) = (Some lo', Some hi') /\
    hi' - lo' == hi - lo /\ 0 <= lo' /\ hi' <= size.
Proof.
  intros Hle Hfit. unfold shiftAxis.
  cbn [nlt nadd nsub num0 number lift2 xlt].
  destruct (Qltb lo 0) eqn:E1.
  - destruct (Qltb size (0 + (hi - lo))) eqn:E2; qltb_cases.
    + exfalso. lra.
    + eexists _, _. split; [reflexivity|]. split; [|split]; lra.
  - destruct (Qltb size hi) eqn:E2; qltb_cases.
    + eexists _, _. split; [reflexivity|]. split; [|split]; lra.
    + eexists _, _. split; [reflexivity|]. split; [|split]; lra.
Qed.

Local Close Scope Q_scope.
Local Open Scope Z_scope.

(** [shiftAxis] on integers. *)
Definition shiftAxisZ (lo hi size : Z) : Z * Z :=
  let extent := hi - lo in
  let '(lo, hi) := if lo <? 0 then (0, 0 + extent) else (lo, hi) in
  if size <? hi then (size - extent, size) else (lo, hi).

(** On integer pixel coordinates binary64 computes what the integers do. *)
Lemma shiftAxis_pixels (lo hi size : Z) :
  pixel lo -> pixel hi -> pixel size ->
  shiftAxis (ofZ lo) (ofZ hi) (ofZ size)
  = (ofZ (fst (shiftAxisZ lo hi size)), ofZ (snd (shiftAxisZ lo hi size))).
Proof.
  intros Hlo Hhi Hsize. unfold shiftAxis, shiftAxisZ.
  cbn [nlt nadd nsub num0 Binary64.number].
  change 0%float with (ofZ 0).
  assert (S0 : safe 0) by (unfold safe; lia).
  assert (Se : safe (hi - lo)) by now apply pixel_sub_safe.
  assert (Sa : safe (0 + (hi - lo))) by (unfold safe, pixel in *; lia).
  assert (Ss : safe (size - (hi - lo))) by (unfold safe, pixel in *; lia).
  rewrite (ofZ_sub hi lo) by auto using pixel_safe.
  rewrite (ofZ_ltb lo 0) by auto using pixel_safe.
  rewrite (ofZ_add 0 (hi - lo)) by assumption.
  rewrite (ofZ_sub size (hi - lo)) by auto using pixel_safe.
  destruct (lo <? 0).
  - rewrite (ofZ_ltb size (0 + (hi - lo))) by auto using pixel_safe.
    now destruct (size <? 0 + (hi - lo)).
  - rewrite (ofZ_ltb size hi) by auto using pixel_safe.
    now destruct (size <? hi).
Qed.

Lemma shiftAxisZ_into_bounds (lo hi size : Z) :
  lo <= hi -> hi - lo <= size ->
  snd (shiftAxisZ lo hi size) - fst (shiftAxisZ lo hi size) = hi - lo /\
  0 <= fst (shiftAxisZ lo hi size) /\ snd (shiftAxisZ lo hi size) <= size.
Proof.
  intros Hle Hfit. unfold shiftAxisZ.
  destruct (Z.ltb_spec lo 0).
  - destruct (Z.ltb_spec size (0 + (hi - lo))); cbn [fst snd]; lia.
  - destruct (Z.ltb_spec size hi); cbn [fst snd]; lia.
Qed.

Local Close Scope Z_scope.
Local Open Scope Q_scope.

(** C7: for a well-formed box whose width and height do not exceed those of
    the image, [shiftCoordinates] returns a box of the same width and height
    that lies within [[0, imageWidth] x [0, imageHeight]]; each axis is
    handled on its own, the overrun at the left or top edge before the one
    at the right or bottom edge.  Proved in exact arithmetic for all
    rationals, and in binary64 for integer pixel coordinates. *)
Theorem shiftCoordinates_into_bounds (bx1 by1 bx2 by2 W H : Q)
    (zx1 zy1 zx2 zy2 zW zH : Z) :
  (bx1 <= bx2 -> by1 <= by2 -> bx2 - bx1 <= W -> by2 - by1 <= H ->
   exists rx1 ry1 rx2 ry2,
     shiftCoordinates (box bx1 by1 bx2 by2) (Some W) (Some H) = box rx1 ry1 rx2 ry2 /\
     (Some rx1, Some rx2) = shiftAxis (Some bx1) (Some bx2) (Some W) /\
     (Some ry1, Some ry2) = shiftAxis (Some by1) (Some by2) (Some H) /\
     rx2 - rx1 == bx2 - bx1 /\ ry2 - ry1 == by2 - by1 /\
     0 <= rx1 /\ rx2 <= W /\ 0 <= ry1 /\ ry2 <= H) /\
  (Forall pixel [zx1; zy1; zx2; zy2; zW; zH] ->
   (zx1 <= zx2)%Z -> (zy1 <= zy2)%Z -> (zx2 - zx1 <= zW)%Z -> (zy2 - zy1 <= zH)%Z ->
   exists rx1 ry1 rx2 ry2,
     shiftCoordinates (Zbox zx1 zy1 zx2 zy2) (ofZ zW) (ofZ zH) = Zbox rx1 ry1 rx2 ry2 /\
     (ofZ rx1, ofZ rx2) = shiftAxis (ofZ zx1) (ofZ zx2) (ofZ zW) /\
     (ofZ ry1, ofZ ry2) = shiftAxis (ofZ zy1) (ofZ zy2) (ofZ zH) /\
     (rx2 - rx1 = zx2 - zx1)%Z /\ (ry2 - ry1 = zy2 - zy1)%Z /\
     (0 <= rx1)%Z /\ (rx2 <= zW)%Z /\ (0 <= ry1)%Z /\ (ry2 <= zH)%Z).
Proof.
  split.
  - intros Hx Hy Hw Hh.
    destruct (shiftAxis_exact bx1 bx2 W Hx Hw) as (rx1 & rx2 & Ex & Hxw & Hx0 & HxW).
    destruct (shiftAxis_exact by1 by2 H Hy Hh) as (ry1 & ry2 & Ey & Hyh & Hy0 & HyH).
    exists rx1, ry1, rx2, ry2.
    rewrite shiftCoordinates_axes. unfold box. cbn [x1 y1 x2 y2].
    rewrite Ex, Ey. cbn [fst snd].
    split; [reflexivity|]. split; [reflexivity|]. split; [reflexivity|]. tauto.
  - intros HP Hx Hy Hw Hh.
    repeat match goal with
           | H : Forall pixel (_ :: _) |- _ => inversion H; subst; clear H
           end.
    destruct (shiftAxisZ_into_bounds zx1 zx2 zW Hx Hw) as (Exw & Ex0 & ExW).
    destruct (shiftAxisZ_into_bounds zy1 zy2 zH Hy Hh) as (Eyh & Ey0 & EyH).
    exists (fst (shiftAxisZ zx1 zx2 zW)), (fst (shiftAxisZ zy1 zy2 zH)),
           (snd (shiftAxisZ zx1 zx2 zW)), (snd (shiftAxisZ zy1 zy2 zH)).
    rewrite shiftCoordinates_axes. unfold Zbox. cbn [x1 y1 x2 y2].
    rewrite !shiftAxis_pixels by assumption. cbn [fst snd].
    split; [reflexivity|]. split; [reflexivity|]. split; [reflexivity|]. tauto.
Qed.

Lemma shiftCoordinates_into_bounds_witness :
  (exists rx1 ry1 rx2 ry2,
     shiftCoordinates (box (-30) 80 70 130) (Some 200) (Some 100) = box rx1 ry1 rx2 ry2 /\
     (Some rx1, Some rx2) = shiftAxis (Some (-30)) (Some 70) (Some 200) /\
     (Some ry1, Some ry2) = shiftAxis (Some 80) (Some 130) (Some 100) /\
     rx2 - rx1 == 70 - (-30) /\ ry2 - ry1 == 130 - 80 /\
     0 <= rx1 /\ rx2 <= 200 /\ 0 <= ry1 /\ ry2 <= 100) /\
  (exists rx1 ry1 rx2 ry2,
     shiftCoordinates (Zbox (-30) 80 70 130) (ofZ 200) (ofZ 100) = Zbox rx1 ry1 rx2 ry2 /\
     (ofZ rx1, ofZ rx2) = shiftAxis (ofZ (-30)) (ofZ 70) (ofZ 200) /\
     (ofZ ry1, ofZ ry2) = shiftAxis (ofZ 80) (ofZ 130) (ofZ 100) /\
     (rx2 - rx1 = 70 - (-30))%Z /\ (ry2 - ry1 = 130 - 80)%Z /\
     (0 <= rx1)%Z /\ (rx2 <= 200)%Z /\ (0 <= ry1)%Z /\ (ry2 <= 100)%Z).
Proof.
  split.
  - apply (shiftCoordinates_into_bounds (-30) 80 70 130 200 100 0 0 0 0 0 0);
      discriminate.
  - apply (shiftCoordinates_into_bounds 0 0 0 0 0 0 (-30) 80 70 130 200 100);
      try discriminate.
    repeat constructor; discriminate.
Defined.

(** The same box in binary64. *)
Example shiftCoordinates_binary64 :
  shiftCoordinates (mkBBox (-30) 80 70 130)%float 200%float 100%float
  = (mkBBox 0 50 100 100)%float.
Proof. reflexivity. Qed.

End Shifting.

(** ** Claims on the crop planners: C1, C5, C6 *)

Module Cropping.

Import Exact ExactFacts FloatOrder FloatArith FloatInt FloatValue.
Local Open Scope Q_scope.

(** [getMaxCropSize] in exact arithmetic: a pair of the target ratio, one
    side of which is the side of the image while the other fits in it. *)
Lemma getMaxCropSize_exact (W H ar : Q) :
  0 < W -> 0 < H -> 0 < ar ->
  exists cw ch,
    getMaxCropSize (Some W) (Some H) (Some ar) = (Some cw, Some ch) /\
    cw == ar * ch /\ ((cw == W /\ ch <= H) \/ (ch == H /\ cw <= W)).
Proof.
  intros HW HH Har. unfold getMaxCropSize.
  cbn [ndiv nmul nlt number lift2].
  rewrite (xdiv_some W H) by lra. cbn [xlt].
  destruct (Qltb ar (W / H)) eqn:E; qltb_cases.
  - exists (H * ar), H. split; [reflexivity|]. split; [ring|].
    right. split; [reflexivity|].
    assert (E' : ar * H < W / H * H) by (apply Qmult_lt_compat_r; assumption).
    assert (Eq : W / H * H == W) by (field; lra).
    rewrite Eq in E'. lra.
  - rewrite (xdiv_some W ar) by lra.
    exists W, (W / ar). split; [reflexivity|]. split; [field; lra|].
    left. split; [reflexivity|].
    apply Qle_shift_div_r; [assumption|].
    assert (E' : W / H * H <= ar * H) by (apply Qmult_le_compat_r; lra).
    assert (Eq : W / H * H == W) by (field; lra).
    rewrite Eq in E'. lra.
Qed.

(** The pair [(w, h)] has the ratio [ar] up to rounding to integer pixels:
    each side is within half a pixel of a pair of that exact ratio. *)
Definition near_ratio (ar w h : Q) : Prop :=
  exists w' h', w' == ar * h' /\ Qabs (w - w') <= 1 # 2 /\ Qabs (h - h') <= 1 # 2.

Lemma Qround_near (q : Q) : Qabs (Qround q - q) <= 1 # 2.
Proof.
  destruct (Qround_bounds q). apply Qabs_Qle_condition. split; lra.
Qed.

Lemma near_ratio_round (ar cw ch : Q) :
  cw == ar * ch -> near_ratio ar (Qround cw) (Qround ch).
Proof.
  intros E. exists cw, ch. split; [assumption|]. split; apply Qround_near.
Qed.


Lemma Qround_of_Z (q : Q) (z : Z) : q == inject_Z z -> Qround q == inject_Z z.
Proof. intros E. rewrite E. apply Qround_Z. Qed.

(** The sides that the legacy planner returns. *)
Lemma getResponsiveCropRegion_sides (W H ar cw ch : Q) (b : BBox xnum) :
  getMaxCropSize (Some W) (Some H) (Some ar) = (Some cw, Some ch) ->
  Region.width (getResponsiveCropRegion (Some W) (Some H) (Some ar) b)
  = Some (Qround cw) /\
  Region.height (getResponsiveCropRegion (Some W) (Some H) (Some ar) b)
  = Some (Qround ch).
Proof.
  intros E. unfold getResponsiveCropRegion. rewrite E. split; reflexivity.
Qed.

(** The unrounded window of the current planner, with [z = 1 / zoom]. *)
Lemma relativeCrop_exact (W H ar cw ch zoom : Q) (bx1 by1 bx2 by2 : Q) :
  0 < W -> 0 < H -> 0 < zoom ->
  getMaxCropSize (Some W) (Some H) (Some ar) = (Some cw, Some ch) ->
  let x := (bx1 + bx2) / 2 in
  let y := (by1 + by2) / 2 in
  let left_ := x - x / W * cw in
  let top_ := y - y / H * ch in
  let z := 1 / zoom in
  relativeCrop (Some W) (Some H) (Some ar) (box bx1 by1 bx2 by2) (Some zoom)
  = if Qltb z 1
    then (Some (x - (x - left_) * z), Some (y - (y - top_) * z),
          Some (cw * z), Some (ch * z))
    else (Some left_, Some top_, Some cw, Some ch).
Proof.
  intros HW HH Hz E. unfold relativeCrop. rewrite E.
  cbn [x1 y1 x2 y2 box nadd nsub nmul ndiv nlt num1 num2 number lift2].
  rewrite (xdiv_some (bx1 + bx2) 2) by lra.
  rewrite (xdiv_some (by1 + by2) 2) by lra.
  rewrite (xdiv_some ((bx1 + bx2) / 2) W) by lra.
  rewrite (xdiv_some ((by1 + by2) / 2) H) by lra.
  rewrite (xdiv_some 1 zoom) by lra.
  cbn [lift2 xlt]. destruct (Qltb (1 / zoom) 1); reflexivity.
Qed.

Lemma getRelativeCropRegion_round (W H ar : xnum) (b : BBox xnum) (zoom : xnum)
    (l t w h : Q) :
  relativeCrop W H ar b zoom = (Some l, Some t, Some w, Some h) ->
  getRelativeCropRegion W H ar b zoom
  = Region.mk (Some (Qround l)) (Some (Qround t)) (Some (Qround w)) (Some (Qround h)).
Proof.
  intros E. unfold getRelativeCropRegion. now rewrite E.
Qed.

(** C1: the code breaks the claim, and the [@returns] of
    [getRelativeCropRegion] ("At least one side of the crop region will be
    equal to the original image size"), at zoom 2: for a 1000 x 1000 image
    at ratio 1 and the box [[400, 400, 600, 600]] it returns the region
    [{left: 250, top: 250, width: 500, height: 500}], neither side of which
    is a side of the image. *)
Lemma getRelativeCropRegion_zoom_not_maximal :
  (getRelativeCropRegion 1000 1000 1 (mkBBox 400 400 600 600) 2
   = Region.mk 250 250 500 500)%float /\
  (Region.width (getRelativeCropRegion 1000 1000 1 (mkBBox 400 400 600 600) 2)
   =? 1000)%float = false /\
  (Region.height (getRelativeCropRegion 1000 1000 1 (mkBBox 400 400 600 600) 2)
   =? 1000)%float = false.
Proof. repeat split. Qed.

(** In binary64, whatever the inputs: one side of the legacy window is the
    rounded side of the image, and so is one side of the current window at
    zoom 1. *)
Lemma planners_maximal_binary64 (W H ar : float) (b : BBox float) :
  let legacy := getResponsiveCropRegion W H ar b in
  let current := getRelativeCropRegion W H ar b 1%float in
  (Region.width legacy = Binary64.round W \/ Region.height legacy = Binary64.round H) /\
  (Region.width current = Binary64.round W \/ Region.height current = Binary64.round H).
Proof.
  unfold getResponsiveCropRegion, getRelativeCropRegion, relativeCrop, getMaxCropSize.
  cbn [nlt ndiv nmul num1 Binary64.number].
  change (1 / 1 <? 1)%float with false.
  destruct (ar <? W / H)%float; cbn; auto.
Qed.

(** *** The ratio of the sides, in binary64 *)

(** The largest window of the target ratio: both sides are positive normal
    numbers, and the width is the ratio times the height within one
    rounding. *)
Lemma getMaxCropSize_float (W H : Z) (ar : float) :
  (0 < W < 2 ^ 53)%Z -> (0 < H < 2 ^ 53)%Z -> PN 300 ar ->
  exists cw ch,
    getMaxCropSize (ofZ W) (ofZ H) ar = (cw, ch) /\
    PN 406 ch /\
    approx 406 (1 - eps) (/ (1 - eps)) cw (F2Q ar * F2Q ch).
Proof.
  intros HW HH Par.
  pose proof (approx_ofZ W HW) as AW. pose proof (approx_ofZ H HH) as AH.
  pose proof (approx_self _ _ Par) as Aar. pose proof (PN_value _ _ Par) as PA.
  assert (Pw : 0 < inject_Z W) by (change 0 with (inject_Z 0); rewrite <- Zlt_Qlt; lia).
  assert (Ph : 0 < inject_Z H) by (change 0 with (inject_Z 0); rewrite <- Zlt_Qlt; lia).
  assert (P1 : (0 : Q) < 1) by reflexivity.
  unfold getMaxCropSize. cbn [nlt ndiv nmul Binary64.number].
  destruct (ar <? ofZ W / ofZ H)%float.
  - exists (ofZ H * ar)%float, (ofZ H). split; [reflexivity|].
    split; [apply (PN_weaken 52); [lia|apply AH]|].
    pose proof (approx_mul _ _ _ _ _ _ _ _ _ _ AH Aar ltac:(lia) ltac:(lia) ltac:(lia)
                  Ph PA P1 P1) as Acw.
    apply (approx_value _ _ _ _ (F2Q ar * inject_Z H));
      [now rewrite (F2Q_ofZ H) by (unfold safe; lia)|].
    apply (approx_value _ _ _ _ _ (F2Q ar * inject_Z H)) in Acw; [|ring].
    apply (approx_weaken _ _ _ _ _ _ _ _ Acw); [|lia|qconst|qconst].
    apply Qlt_le_weak. now apply Qmult_lt_0_compat.
  - exists (ofZ W), (ofZ W / ar)%float. split; [reflexivity|].
    pose proof (approx_div _ _ _ _ _ _ _ _ _ _ AW Aar ltac:(lia) ltac:(lia) ltac:(lia)
                  Pw PA P1 P1 P1) as Ach.
    split; [apply (PN_weaken (52 + 300 + 53)); [lia|apply Ach]|].
    split; [apply (PN_weaken 52); [lia|apply AW]|].
    rewrite (F2Q_ofZ W) by (unfold safe; lia).
    destruct Ach as [_ [L U]].
    apply (Qmult_le_l _ _ (F2Q ar)) in L; [|assumption].
    apply (Qmult_le_l _ _ (F2Q ar)) in U; [|assumption].
    setoid_replace (F2Q ar * (inject_Z W / F2Q ar * (1 / 1 * (1 - eps))))
      with (inject_Z W * (1 - eps)) in L by (field; lra).
    setoid_replace (F2Q ar * (inject_Z W / F2Q ar * (1 / 1 * (1 + eps))))
      with (inject_Z W * (1 + eps)) in U by (field; lra).
    unfold eps in *. change (2 ^ (-52)) with (1 # 4503599627370496) in *.
    change (/ (1 - (1 # 4503599627370496)))
      with (4503599627370496 # 4503599627370495).
    set (X := F2Q ar * F2Q (ofZ W / ar)%float) in *. set (w := inject_Z W) in *.
    lra.
Qed.

(** The sides of a returned region are numbers, and they have the ratio
    [ar] up to rounding to integer pixels. *)
Definition sides_near (ar : Q) (r : Region.t float) : Prop :=
  is_finite (Region.width r) = true /\ is_finite (Region.height r) = true /\
  near_ratio ar (F2Q (Region.width r)) (F2Q (Region.height r)).

Lemma rounded_sides_near (r1 r2 : Z) (a1 b1 a2 b2 : Q) (sw sh : float) (A v : Q)
    (l t : float) :
  approx r1 a1 b1 sw (A * v) -> approx r2 a2 b2 sh v ->
  0 < A -> 0 < v -> 0 < a1 -> 0 < a2 -> 0 < b2 ->
  1 - 2 ^ (-50) <= a1 / b2 -> b1 / a2 <= 1 + 2 ^ (-50) ->
  exists ar', Qabs (ar' - A) <= 2 ^ (-50) * A /\
              sides_near ar' (roundRegion l t sw sh).
Proof.
  intros Ax Ay PA Pv A1 A2 B2 Lo Hi.
  destruct (approx_ratio _ _ _ _ _ _ _ _ _ _ Ax Ay PA Pv A1 A2 B2) as [L U].
  destruct Ax as [Px _], Ay as [Py _].
  pose proof (PN_value _ _ Py) as Vy.
  destruct (round_error sw (PN_finite _ _ Px)) as [Fw Ew].
  destruct (round_error sh (PN_finite _ _ Py)) as [Fh Eh].
  exists (F2Q sw / F2Q sh). split.
  - apply (Qmult_le_l _ _ A) in Lo; [|assumption].
    apply (Qmult_le_l _ _ A) in Hi; [|assumption].
    change (2 ^ (-50)) with (1 # 1125899906842624) in *.
    set (q := F2Q sw / F2Q sh) in *.
    set (c1 := A * (a1 / b2)) in *. set (c2 := A * (b1 / a2)) in *.
    apply Qabs_Qle_condition. split; lra.
  - unfold sides_near, roundRegion. cbn [Region.width Region.height Math_round Binary64.number].
    split; [assumption|]. split; [assumption|].
    exists (F2Q sw), (F2Q sh). split; [field; lra|]. split; assumption.
Qed.

(** The ratio of the sides of both planners in binary64, for an image of
    integer size, a target ratio and a zoom that are positive normal
    numbers between 2^-248 and 2^353: the sides are within half a pixel of
    a pair whose ratio is the target ratio up to 2^-50 of it. *)
Lemma planners_ratio_binary64 (W H : Z) (ar zoom : float) (b : BBox float) :
  (0 < W < 2 ^ 53)%Z -> (0 < H < 2 ^ 53)%Z -> PN 300 ar -> PN 300 zoom ->
  (exists ar', Qabs (ar' - F2Q ar) <= 2 ^ (-50) * F2Q ar /\
               sides_near ar' (getResponsiveCropRegion (ofZ W) (ofZ H) ar b)) /\
  (exists ar', Qabs (ar' - F2Q ar) <= 2 ^ (-50) * F2Q ar /\
               sides_near ar' (getRelativeCropRegion (ofZ W) (ofZ H) ar b zoom)).
Proof.
  intros HW HH Par Pzoom.
  destruct (getMaxCropSize_float W H ar HW HH Par) as (cw & ch & E & Pch & Acw).
  pose proof (approx_self _ _ Pch) as Ach.
  pose proof (PN_value _ _ Par) as PA. pose proof (PN_value _ _ Pch) as PC.
  assert (P1 : (0 : Q) < 1) by reflexivity.
  split.
  - unfold getResponsiveCropRegion. rewrite E.
    apply (rounded_sides_near _ _ _ _ _ _ _ _ _ _ _ _ Acw Ach PA PC); qconst.
  - unfold getRelativeCropRegion, relativeCrop. rewrite E.
    cbn [nlt ndiv nmul nsub nadd num1 num2 Binary64.number].
    pose proof (approx_ofZ 1 ltac:(lia)) as A1. change (ofZ 1) with 1%float in A1.
    pose proof (PN_value _ _ Pzoom) as PZ.
    pose proof (approx_div _ _ _ _ _ _ _ _ _ _ A1 (approx_self _ _ Pzoom)
                  ltac:(lia) ltac:(lia) ltac:(lia) P1 PZ P1 P1 P1) as Az.
    pose proof (PN_value _ _ (proj1 Az)) as Pz.
    pose proof (approx_self _ _ (proj1 Az)) as Az'.
    destruct (1 / zoom <? 1)%float.
    + assert (PACh : 0 < F2Q ar * F2Q ch) by now apply Qmult_lt_0_compat.
      pose proof (approx_mul _ _ _ _ _ _ _ _ _ _ Acw Az' ltac:(lia) ltac:(lia) ltac:(lia)
                    PACh Pz ltac:(qconst) P1) as Aw.
      pose proof (approx_mul _ _ _ _ _ _ _ _ _ _ Ach Az' ltac:(lia) ltac:(lia) ltac:(lia)
                    PC Pz P1 P1) as Ah.
      apply (approx_value _ _ _ _ _ (F2Q ar * (F2Q ch * F2Q (1 / zoom)%float))) in Aw; [|ring].
      assert (Pv : 0 < F2Q ch * F2Q (1 / zoom)%float) by now apply Qmult_lt_0_compat.
      apply (rounded_sides_near _ _ _ _ _ _ _ _ _ _ _ _ Aw Ah PA Pv); qconst.
    + apply (rounded_sides_near _ _ _ _ _ _ _ _ _ _ _ _ Acw Ach PA PC); qconst.
Qed.

(** X1: what the planners do keep.  For an image of [W] by [H] pixels, a
    target ratio [ar > 0], any region of interest and any zoom [>= 1], in
    exact arithmetic: the sides of the window of either planner have the ratio
    [ar] up to rounding to integer pixels; one side of the legacy window is
    a side of the image, and so is one side of the current window when the
    zoom is 1.  In binary64 the last two facts hold for all inputs whose
    image sizes are integers, and the sides of either planner are within
    half a pixel of a pair whose ratio is the target ratio up to [2^-50] of
    it, whenever the ratio and the zoom are positive normal numbers between
    [2^-248] and [2^353]. *)
Theorem crop_regions_ratio_and_maximality
    (W H : Z) (ar zoom bx1 by1 bx2 by2 : Q) (fW fH far fzoom : float)
    (fb : BBox float) :
  (0 < W)%Z -> (0 < H)%Z -> 0 < ar -> 1 <= zoom ->
  let b := box bx1 by1 bx2 by2 in
  let iW := Some (inject_Z W) in
  let iH := Some (inject_Z H) in
  (exists w h,
     Region.width (getResponsiveCropRegion iW iH (Some ar) b) = Some w /\
     Region.height (getResponsiveCropRegion iW iH (Some ar) b) = Some h /\
     near_ratio ar w h /\ (w == inject_Z W \/ h == inject_Z H)) /\
  (exists w h,
     Region.width (getRelativeCropRegion iW iH (Some ar) b (Some zoom)) = Some w /\
     Region.height (getRelativeCropRegion iW iH (Some ar) b (Some zoom)) = Some h /\
     near_ratio ar w h /\ (zoom == 1 -> w == inject_Z W \/ h == inject_Z H)) /\
  (Binary64.round fW = fW -> Binary64.round fH = fH ->
   (Region.width (getResponsiveCropRegion fW fH far fb) = fW \/
    Region.height (getResponsiveCropRegion fW fH far fb) = fH) /\
   (Region.width (getRelativeCropRegion fW fH far fb 1%float) = fW \/
    Region.height (getRelativeCropRegion fW fH far fb 1%float) = fH)) /\
  ((W < 2 ^ 53)%Z -> (H < 2 ^ 53)%Z ->
   normal_within 300 far = true -> normal_within 300 fzoom = true ->
   (exists ar', Qabs (ar' - F2Q far) <= 2 ^ (-50) * F2Q far /\
                sides_near ar' (getResponsiveCropRegion (ofZ W) (ofZ H) far fb)) /\
   (exists ar', Qabs (ar' - F2Q far) <= 2 ^ (-50) * F2Q far /\
                sides_near ar' (getRelativeCropRegion (ofZ W) (ofZ H) far fb fzoom))).
Proof.
  intros HW HH Har Hzoom b iW iH.
  assert (HW' : 0 < inject_Z W) by (change 0 with (inject_Z 0); now rewrite <- Zlt_Qlt).
  assert (HH' : 0 < inject_Z H) by (change 0 with (inject_Z 0); now rewrite <- Zlt_Qlt).
  destruct (getMaxCropSize_exact (inject_Z W) (inject_Z H) ar HW' HH' Har)
    as (cw & ch & E & Hratio & Hside).
  assert (Hmax : Qround cw == inject_Z W \/ Qround ch == inject_Z H).
  { destruct Hside as [[Hs _]|[Hs _]]; [left|right]; now apply Qround_of_Z. }
  split; [|split; [|split]].
  - destruct (getResponsiveCropRegion_sides (inject_Z W) (inject_Z H) ar cw ch b E)
      as [Ew Eh].
    exists (Qround cw), (Qround ch). repeat split; trivial.
    now apply near_ratio_round.
  - assert (Hz : 0 < zoom) by lra.
    pose proof (relativeCrop_exact (inject_Z W) (inject_Z H) ar cw ch zoom
                  bx1 by1 bx2 by2 HW' HH' Hz E) as Ecrop.
    cbv zeta in Ecrop. fold b iW iH in Ecrop.
    destruct (Qltb (1 / zoom) 1) eqn:Ez; qltb_cases.
    + rewrite (getRelativeCropRegion_round _ _ _ _ _ _ _ _ _ Ecrop).
      exists (Qround (cw * (1 / zoom))), (Qround (ch * (1 / zoom))).
      cbn [Region.width Region.height]. repeat split; trivial.
      * apply near_ratio_round. rewrite Hratio. ring.
      * intros Hone. exfalso. rewrite Hone in Ez. now apply (Qlt_irrefl 1).
    + rewrite (getRelativeCropRegion_round _ _ _ _ _ _ _ _ _ Ecrop).
      exists (Qround cw), (Qround ch).
      cbn [Region.width Region.height]. repeat split; trivial.
      now apply near_ratio_round.
  - intros RW RH.
    destruct (planners_maximal_binary64 fW fH far fb) as [Hl Hc].
    rewrite RW, RH in Hl, Hc. now split.
  - intros BW BH Nar Nzoom.
    apply planners_ratio_binary64; try lia; now apply normal_within_PN.
Qed.

Lemma crop_regions_ratio_and_maximality_witness :
  (exists w h,
     Region.width (getResponsiveCropRegion (Some (inject_Z 1000)) (Some (inject_Z 500))
                     (Some 1) (box 400 200 600 300)) = Some w /\
     Region.height (getResponsiveCropRegion (Some (inject_Z 1000)) (Some (inject_Z 500))
                      (Some 1) (box 400 200 600 300)) = Some h /\
     near_ratio 1 w h /\ (w == inject_Z 1000 \/ h == inject_Z 500)) /\
  (exists w h,
     Region.width (getRelativeCropRegion (Some (inject_Z 1000)) (Some (inject_Z 500))
                     (Some 1) (box 400 200 600 300) (Some 2)) = Some w /\
     Region.height (getRelativeCropRegion (Some (inject_Z 1000)) (Some (inject_Z 500))
                      (Some 1) (box 400 200 600 300) (Some 2)) = Some h /\
     near_ratio 1 w h /\ (2 == 1 -> w == inject_Z 1000 \/ h == inject_Z 500)) /\
  ((Region.width (getResponsiveCropRegion 1000 500 1 (mkBBox 400 200 600 300)) = 1000 \/
    Region.height (getResponsiveCropRegion 1000 500 1 (mkBBox 400 200 600 300)) = 500) /\
   (Region.width (getRelativeCropRegion 1000 500 1 (mkBBox 400 200 600 300) 1) = 1000 \/
    Region.height (getRelativeCropRegion 1000 500 1 (mkBBox 400 200 600 300) 1) = 500))%float /\
  ((exists ar', Qabs (ar' - F2Q 1%float) <= 2 ^ (-50) * F2Q 1%float /\
                sides_near ar' (getResponsiveCropRegion (ofZ 1000) (ofZ 500) 1%float
                                  (mkBBox 400 200 600 300)%float)) /\
   (exists ar', Qabs (ar' - F2Q 1%float) <= 2 ^ (-50) * F2Q 1%float /\
                sides_near ar' (getRelativeCropRegion (ofZ 1000) (ofZ 500) 1%float
                                  (mkBBox 400 200 600 300)%float 2%float))).
Proof.
  destruct (crop_regions_ratio_and_maximality 1000 500 1 2 400 200 600 300
              1000%float 500%float 1%float 2%float (mkBBox 400 200 600 300)%float)
    as (A & B & C & D); try first [reflexivity | discriminate].
  split; [exact A|]. split; [exact B|].
  split; [apply C; reflexivity|apply D; reflexivity].
Defined.

(** *** Zoom *)

(** C5 as stated fails on an odd side: the window of a 501 x 501 image at
    ratio 1 is 501 wide at zoom 1 and [Math.round(250.5) = 251] wide at
    zoom 2, which is not half of 501. *)
Lemma getRelativeCropRegion_zoom_2_not_half :
  (getRelativeCropRegion 501 501 1 (mkBBox 200.5 200.5 300.5 300.5) 1
   = Region.mk 0 0 501 501)%float /\
  (getRelativeCropRegion 501 501 1 (mkBBox 200.5 200.5 300.5 300.5) 2
   = Region.mk 125 125 251 251)%float /\
  (Region.width (getRelativeCropRegion 501 501 1 (mkBBox 200.5 200.5 300.5 300.5) 1) / 2
   =? Region.width (getRelativeCropRegion 501 501 1 (mkBBox 200.5 200.5 300.5 300.5) 2))%float
  = false.
Proof. repeat split. Qed.

(** In exact arithmetic, for a region of interest centred in the image. *)
Lemma relativeCrop_zoom_2_exact (W H ar bx1 by1 bx2 by2 : Q) :
  0 < W -> 0 < H -> 0 < ar ->
  (bx1 + bx2) / 2 == W / 2 -> (by1 + by2) / 2 == H / 2 ->
  let b := box bx1 by1 bx2 by2 in
  exists l1 t1 w1 h1 l2 t2 w2 h2,
    relativeCrop (Some W) (Some H) (Some ar) b (Some 1)
    = (Some l1, Some t1, Some w1, Some h1) /\
    relativeCrop (Some W) (Some H) (Some ar) b (Some 2)
    = (Some l2, Some t2, Some w2, Some h2) /\
    w2 == w1 / 2 /\ h2 == h1 / 2 /\
    l2 + w2 / 2 == l1 + w1 / 2 /\ t2 + h2 / 2 == t1 + h1 / 2 /\
    getRelativeCropRegion (Some W) (Some H) (Some ar) b (Some 1)
    = Region.mk (Some (Qround l1)) (Some (Qround t1)) (Some (Qround w1)) (Some (Qround h1)) /\
    getRelativeCropRegion (Some W) (Some H) (Some ar) b (Some 2)
    = Region.mk (Some (Qround l2)) (Some (Qround t2)) (Some (Qround w2)) (Some (Qround h2)).
Proof.
  intros HW HH Har Hcx Hcy b.
  destruct (getMaxCropSize_exact W H ar HW HH Har) as (cw & ch & E & _ & _).
  assert (H1 : 0 < 1) by reflexivity. assert (H2 : 0 < 2) by reflexivity.
  pose proof (relativeCrop_exact W H ar cw ch 1 bx1 by1 bx2 by2 HW HH H1 E) as E1.
  pose proof (relativeCrop_exact W H ar cw ch 2 bx1 by1 bx2 by2 HW HH H2 E) as E2.
  cbv zeta in E1, E2. fold b in E1, E2.
  change (Qltb (1 / 1) 1) with false in E1.
  change (Qltb (1 / 2) 1) with true in E2.
  cbv iota in E1, E2.
  eexists _, _, _, _, _, _, _, _.
  split; [exact E1|]. split; [exact E2|].
  split; [field|]. split; [field|].
  split; [rewrite Hcx; field; lra|]. split; [rewrite Hcy; field; lra|].
  split; apply getRelativeCropRegion_round; assumption.
Qed.

(** The sides of the window of [getRelativeCropRegion] before rounding, in
    binary64: [1 / 2] is 0.5 and the multiplication by it is exact, so the
    sides at zoom 2 are exactly half the sides at zoom 1. *)
Lemma relativeCrop_zoom_2_sides_binary64 (W H : Z) (ar : float) (b : BBox float) :
  (0 < W < 2 ^ 53)%Z -> (0 < H < 2 ^ 53)%Z -> PN 300 ar ->
  exists l1 t1 w1 h1 l2 t2 w2 h2,
    relativeCrop (ofZ W) (ofZ H) ar b 1%float = (l1, t1, w1, h1) /\
    relativeCrop (ofZ W) (ofZ H) ar b 2%float = (l2, t2, w2, h2) /\
    is_finite w1 = true /\ is_finite h1 = true /\
    is_finite w2 = true /\ is_finite h2 = true /\
    F2Q w2 == F2Q w1 / 2 /\ F2Q h2 == F2Q h1 / 2 /\
    getRelativeCropRegion (ofZ W) (ofZ H) ar b 1%float = roundRegion l1 t1 w1 h1 /\
    getRelativeCropRegion (ofZ W) (ofZ H) ar b 2%float = roundRegion l2 t2 w2 h2.
Proof.
  intros HW HH Par.
  destruct (getMaxCropSize_float W H ar HW HH Par) as (cw & ch & E & Pch & [Pcw _]).
  destruct (mul_half _ _ Pcw ltac:(lia)) as [Pw2 Ew2].
  destruct (mul_half _ _ Pch ltac:(lia)) as [Ph2 Eh2].
  unfold getRelativeCropRegion, relativeCrop. rewrite E.
  cbn [nlt ndiv nmul nsub nadd num1 num2 Binary64.number].
  change (1 / 1 <? 1)%float with false.
  change (1 / 2)%float with 0.5%float.
  change (0.5 <? 1)%float with true. cbv iota.
  eexists _, _, _, _, _, _, _, _.
  split; [reflexivity|]. split; [reflexivity|].
  split; [exact (PN_finite _ _ Pcw)|]. split; [exact (PN_finite _ _ Pch)|].
  split; [exact (PN_finite _ _ Pw2)|]. split; [exact (PN_finite _ _ Ph2)|].
  split; [exact Ew2|]. split; [exact Eh2|].
  split; reflexivity.
Qed.

(** C5, as the code has it.  In exact arithmetic, for a region of interest
    centred in the image, the window of [getRelativeCropRegion] before
    rounding has at zoom 2 exactly half the width and half the height it has
    at zoom 1, and both windows have the same centre; the [Region] returned
    is that window with each field rounded to an integer.  In binary64, for
    an image of integer size and a ratio that is a positive normal number,
    the sides before rounding are numbers and are halved exactly as well,
    whatever the region of interest. *)
Theorem getRelativeCropRegion_zoom_2_halves (W H ar bx1 by1 bx2 by2 : Q)
    (zW zH : Z) (far : float) (fb : BBox float) :
  (0 < W -> 0 < H -> 0 < ar ->
   (bx1 + bx2) / 2 == W / 2 -> (by1 + by2) / 2 == H / 2 ->
   let b := box bx1 by1 bx2 by2 in
   exists l1 t1 w1 h1 l2 t2 w2 h2,
     relativeCrop (Some W) (Some H) (Some ar) b (Some 1)
     = (Some l1, Some t1, Some w1, Some h1) /\
     relativeCrop (Some W) (Some H) (Some ar) b (Some 2)
     = (Some l2, Some t2, Some w2, Some h2) /\
     w2 == w1 / 2 /\ h2 == h1 / 2 /\
     l2 + w2 / 2 == l1 + w1 / 2 /\ t2 + h2 / 2 == t1 + h1 / 2 /\
     getRelativeCropRegion (Some W) (Some H) (Some ar) b (Some 1)
     = Region.mk (Some (Qround l1)) (Some (Qround t1)) (Some (Qround w1)) (Some (Qround h1)) /\
     getRelativeCropRegion (Some W) (Some H) (Some ar) b (Some 2)
     = Region.mk (Some (Qround l2)) (Some (Qround t2)) (Some (Qround w2)) (Some (Qround h2))) /\
  ((0 < zW < 2 ^ 53)%Z -> (0 < zH < 2 ^ 53)%Z -> normal_within 300 far = true ->
   exists l1 t1 w1 h1 l2 t2 w2 h2,
     relativeCrop (ofZ zW) (ofZ zH) far fb 1%float = (l1, t1, w1, h1) /\
     relativeCrop (ofZ zW) (ofZ zH) far fb 2%float = (l2, t2, w2, h2) /\
     is_finite w1 = true /\ is_finite h1 = true /\
     is_finite w2 = true /\ is_finite h2 = true /\
     F2Q w2 == F2Q w1 / 2 /\ F2Q h2 == F2Q h1 / 2 /\
     getRelativeCropRegion (ofZ zW) (ofZ zH) far fb 1%float = roundRegion l1 t1 w1 h1 /\
     getRelativeCropRegion (ofZ zW) (ofZ zH) far fb 2%float = roundRegion l2 t2 w2 h2).
Proof.
  split.
  - apply relativeCrop_zoom_2_exact.
  - intros HW HH Nar.
    apply relativeCrop_zoom_2_sides_binary64; trivial. now apply normal_within_PN.
Qed.

Lemma getRelativeCropRegion_zoom_2_halves_witness :
  (exists l1 t1 w1 h1 l2 t2 w2 h2,
     relativeCrop (Some 501) (Some 501) (Some 1) (box 200.5 200.5 300.5 300.5) (Some 1)
     = (Some l1, Some t1, Some w1, Some h1) /\
     relativeCrop (Some 501) (Some 501) (Some 1) (box 200.5 200.5 300.5 300.5) (Some 2)
     = (Some l2, Some t2, Some w2, Some h2) /\
     w2 == w1 / 2 /\ h2 == h1 / 2 /\
     l2 + w2 / 2 == l1 + w1 / 2 /\ t2 + h2 / 2 == t1 + h1 / 2 /\
     getRelativeCropRegion (Some 501) (Some 501) (Some 1) (box 200.5 200.5 300.5 300.5) (Some 1)
     = Region.mk (Some (Qround l1)) (Some (Qround t1)) (Some (Qround w1)) (Some (Qround h1)) /\
     getRelativeCropRegion (Some 501) (Some 501) (Some 1) (box 200.5 200.5 300.5 300.5) (Some 2)
     = Region.mk (Some (Qround l2)) (Some (Qround t2)) (Some (Qround w2)) (Some (Qround h2))) /\
  (exists l1 t1 w1 h1 l2 t2 w2 h2,
     relativeCrop (ofZ 501) (ofZ 501) 1%float (mkBBox 200.5 200.5 300.5 300.5)%float 1%float
     = (l1, t1, w1, h1) /\
     relativeCrop (ofZ 501) (ofZ 501) 1%float (mkBBox 200.5 200.5 300.5 300.5)%float 2%float
     = (l2, t2, w2, h2) /\
     is_finite w1 = true /\ is_finite h1 = true /\
     is_finite w2 = true /\ is_finite h2 = true /\
     F2Q w2 == F2Q w1 / 2 /\ F2Q h2 == F2Q h1 / 2 /\
     getRelativeCropRegion (ofZ 501) (ofZ 501) 1%float
       (mkBBox 200.5 200.5 300.5 300.5)%float 1%float = roundRegion l1 t1 w1 h1 /\
     getRelativeCropRegion (ofZ 501) (ofZ 501) 1%float
       (mkBBox 200.5 200.5 300.5 300.5)%float 2%float = roundRegion l2 t2 w2 h2).
Proof.
  destruct (getRelativeCropRegion_zoom_2_halves 501 501 1 200.5 200.5 300.5 300.5
              501 501 1%float (mkBBox 200.5 200.5 300.5 300.5)%float) as [E F].
  split.
  - apply E; reflexivity.
  - apply F; first [lia | reflexivity].
Defined.

(** *** The full image *)

(** In exact arithmetic the centre, the sides and the ratio cancel. *)
Lemma getRelativeCropRegion_full_image_exact (W H : Z) (ar bx1 by1 bx2 by2 : Q) :
  (0 < W)%Z -> (0 < H)%Z -> ar == inject_Z W / inject_Z H ->
  (bx1 + bx2) / 2 == inject_Z W / 2 -> (by1 + by2) / 2 == inject_Z H / 2 ->
  region_xeq
    (getRelativeCropRegion (Some (inject_Z W)) (Some (inject_Z H)) (Some ar)
       (box bx1 by1 bx2 by2) (Some 1))
    (Region.mk (Some 0) (Some 0) (Some (inject_Z W)) (Some (inject_Z H))).
Proof.
  intros HW HH Har Hcx Hcy.
  assert (HW' : 0 < inject_Z W) by (change 0 with (inject_Z 0); now rewrite <- Zlt_Qlt).
  assert (HH' : 0 < inject_Z H) by (change 0 with (inject_Z 0); now rewrite <- Zlt_Qlt).
  assert (Har' : 0 < ar).
  { rewrite Har. apply Qlt_shift_div_l; [assumption|]. lra. }
  assert (E : getMaxCropSize (Some (inject_Z W)) (Some (inject_Z H)) (Some ar)
              = (Some (inject_Z W), Some (inject_Z W / ar))).
  { unfold getMaxCropSize. cbn [ndiv nmul nlt number lift2].
    rewrite (xdiv_some (inject_Z W) (inject_Z H)) by lra. cbn [xlt].
    replace (Qltb ar (inject_Z W / inject_Z H)) with false.
    - now rewrite (xdiv_some (inject_Z W) ar) by lra.
    - symmetry. apply Qltb_false. rewrite Har. apply Qle_refl. }
  assert (H1 : 0 < 1) by reflexivity.
  pose proof (relativeCrop_exact (inject_Z W) (inject_Z H) ar _ _ 1
                bx1 by1 bx2 by2 HW' HH' H1 E) as Ecrop.
  cbv zeta in Ecrop. change (Qltb (1 / 1) 1) with false in Ecrop. cbv iota in Ecrop.
  rewrite (getRelativeCropRegion_round _ _ _ _ _ _ _ _ _ Ecrop).
  unfold region_xeq, xeq. cbn [Region.left Region.top Region.width Region.height].
  assert (Hh : inject_Z W / ar == inject_Z H) by (rewrite Har; field; lra).
  split; [|split; [|split]].
  - change 0 with (inject_Z 0). apply Qround_of_Z. rewrite Hcx.
    change (inject_Z 0) with 0. field. lra.
  - change 0 with (inject_Z 0). apply Qround_of_Z. rewrite Hcy, Hh.
    change (inject_Z 0) with 0. field. lra.
  - apply Qround_Z.
  - now apply Qround_of_Z.
Qed.

(** In binary64 they do not cancel: the ratio, the centre, its share of
    the image and the height of the crop are each rounded.  For an image of
    integer size below 2^48 the errors add up to less than half a pixel, and
    [Math.round] removes them.  The box is centred when the centre the code
    computes, [(x1 + x2) / 2], is that of the image. *)
Lemma getRelativeCropRegion_full_image_float (W H : Z) (b : BBox float) :
  (0 < W < 2 ^ 48)%Z -> (0 < H < 2 ^ 48)%Z ->
  ((x1 b + x2 b) / 2 = ofZ W / 2)%float ->
  ((y1 b + y2 b) / 2 = ofZ H / 2)%float ->
  Binary64.region_jseq
    (getRelativeCropRegion (ofZ W) (ofZ H) (ofZ W / ofZ H)%float b 1%float)
    (Region.mk 0%float 0%float (ofZ W) (ofZ H)).
Proof.
  intros HW HH Cx Cy.
  unfold getRelativeCropRegion, relativeCrop, getMaxCropSize.
  cbn [nlt ndiv nmul nsub nadd num1 num2 Binary64.number].
  rewrite Cx, Cy, ltb_irrefl.
  change (1 / 1 <? 1)%float with false. cbv iota.
  unfold roundRegion, Binary64.region_jseq.
  cbn [Region.left Region.top Region.width Region.height Math_round Binary64.number].
  set (fW := ofZ W). set (fH := ofZ H).
  set (w := inject_Z W). set (h := inject_Z H).
  assert (Pw : 0 < w) by (change 0 with (inject_Z 0); unfold w; rewrite <- Zlt_Qlt; lia).
  assert (Ph : 0 < h) by (change 0 with (inject_Z 0); unfold h; rewrite <- Zlt_Qlt; lia).
  assert (Bw : w <= 2 ^ 48).
  { rewrite <- pow2_Z by lia. unfold w. rewrite <- Zle_Qle. lia. }
  assert (Bh : h <= 2 ^ 48).
  { rewrite <- pow2_Z by lia. unfold h. rewrite <- Zle_Qle. lia. }
  assert (AW : approx 52 1 1 fW w) by (apply approx_ofZ; lia).
  assert (AH : approx 52 1 1 fH h) by (apply approx_ofZ; lia).
  assert (A2 : approx 52 1 1 2%float 2) by (apply (approx_ofZ 2); lia).
  assert (P1 : (0 : Q) < 1) by reflexivity.
  assert (P2 : (0 : Q) < 2) by reflexivity.
  assert (Pw2 : 0 < w / 2) by (apply Qlt_shift_div_l; lra).
  assert (Ph2 : 0 < h / 2) by (apply Qlt_shift_div_l; lra).
  assert (Pwh : 0 < w / h) by (apply Qlt_shift_div_l; lra).
  (* the ratio and the centre *)
  pose proof (approx_div _ _ _ _ _ _ _ _ _ _ AW AH ltac:(lia) ltac:(lia) ltac:(lia)
                Pw Ph P1 P1 P1) as Aar.
  pose proof (approx_div _ _ _ _ _ _ _ _ _ _ AW A2 ltac:(lia) ltac:(lia) ltac:(lia)
                Pw P2 P1 P1 P1) as Acx.
  pose proof (approx_div _ _ _ _ _ _ _ _ _ _ AH A2 ltac:(lia) ltac:(lia) ltac:(lia)
                Ph P2 P1 P1 P1) as Acy.
  (* the centre as a fraction of the image *)
  pose proof (approx_div _ _ _ _ _ _ _ _ _ _ Acx AW ltac:(lia) ltac:(lia) ltac:(lia)
                Pw2 Pw ltac:(qconst) P1 P1) as Axp.
  pose proof (approx_div _ _ _ _ _ _ _ _ _ _ Acy AH ltac:(lia) ltac:(lia) ltac:(lia)
                Ph2 Ph ltac:(qconst) P1 P1) as Ayp.
  (* the height of the crop *)
  pose proof (approx_div _ _ _ _ _ _ _ _ _ _ AW Aar ltac:(lia) ltac:(lia) ltac:(lia)
                Pw Pwh P1 ltac:(qconst) ltac:(qconst)) as Ach.
  apply (approx_value _ _ _ _ _ h) in Ach; [|field; split; lra].
  (* the crop's share left of and above the centre *)
  assert (Pxp : 0 < w / 2 / w) by (apply Qlt_shift_div_l; lra).
  assert (Pyp : 0 < h / 2 / h) by (apply Qlt_shift_div_l; lra).
  pose proof (approx_mul _ _ _ _ _ _ _ _ _ _ Axp AW ltac:(lia) ltac:(lia) ltac:(lia)
                Pxp Pw ltac:(qconst) P1) as Apx.
  pose proof (approx_mul _ _ _ _ _ _ _ _ _ _ Ayp Ach ltac:(lia) ltac:(lia) ltac:(lia)
                Pyp Ph ltac:(qconst) ltac:(qconst)) as Apy.
  apply (approx_value _ _ _ _ _ (w / 2)) in Apx; [|field; lra].
  apply (approx_value _ _ _ _ _ (h / 2)) in Apy; [|field; lra].
  assert (Bw2 : 0 < w / 2 <= 2 ^ 47).
  { split; [assumption|]. apply Qle_shift_div_r; [reflexivity|].
    change (2 ^ 47 * 2) with (2 ^ 48). assumption. }
  assert (Bh2 : 0 < h / 2 <= 2 ^ 47).
  { split; [assumption|]. apply Qle_shift_div_r; [reflexivity|].
    change (2 ^ 47 * 2) with (2 ^ 48). assumption. }
  destruct (approx_sub_small _ _ _ _ _ _ _ _ _ _ Acx Apx ltac:(lia) ltac:(lia) Bw2
              ltac:(qconst) ltac:(qconst) ltac:(qconst) ltac:(qconst)) as [Fl Sl].
  destruct (approx_sub_small _ _ _ _ _ _ _ _ _ _ Acy Apy ltac:(lia) ltac:(lia) Bh2
              ltac:(qconst) ltac:(qconst) ltac:(qconst) ltac:(qconst)) as [Ft St].
  pose proof (approx_near _ _ _ _ _ _ Ach (conj Ph Bh)
                ltac:(qconst) ltac:(qconst) ltac:(qconst) ltac:(qconst)) as Nh.
  assert (SW : safe W) by (unfold safe; lia).
  assert (SH : safe H) by (unfold safe; lia).
  split; [|split; [|split]].
  - apply (round_small _ Fl Sl).
  - apply (round_small _ Ft St).
  - rewrite (round_near fW W).
    + apply jseq_refl. now apply ofZ_not_nan.
    + now apply ofZ_is_finite.
    + lia.
    + unfold fW. rewrite F2Q_ofZ by assumption.
      setoid_replace (inject_Z W - inject_Z W) with 0 by ring. reflexivity.
  - rewrite (round_near _ H).
    + apply jseq_refl. now apply ofZ_not_nan.
    + destruct Ach as [(m & e & E & _) _]. apply is_finite_spec. eauto.
    + lia.
    + exact Nh.
Qed.

(** C6: when the region of interest is centred in the image, the target
    ratio is the ratio of the image and the zoom is 1,
    [getRelativeCropRegion] returns the full image,
    [{left: 0, top: 0, width: imageWidth, height: imageHeight}]: in exact
    arithmetic, and in binary64 for every image of integer width and height
    below 2^48 and every box whose computed centre is that of the image. *)
Theorem getRelativeCropRegion_full_image (W H : Z) (ar bx1 by1 bx2 by2 : Q)
    (b : BBox float) :
  ((0 < W)%Z -> (0 < H)%Z -> ar == inject_Z W / inject_Z H ->
   (bx1 + bx2) / 2 == inject_Z W / 2 -> (by1 + by2) / 2 == inject_Z H / 2 ->
   region_xeq
     (getRelativeCropRegion (Some (inject_Z W)) (Some (inject_Z H)) (Some ar)
        (box bx1 by1 bx2 by2) (Some 1))
     (Region.mk (Some 0) (Some 0) (Some (inject_Z W)) (Some (inject_Z H)))) /\
  ((0 < W < 2 ^ 48)%Z -> (0 < H < 2 ^ 48)%Z ->
   ((x1 b + x2 b) / 2 = ofZ W / 2)%float ->
   ((y1 b + y2 b) / 2 = ofZ H / 2)%float ->
   Binary64.region_jseq
     (getRelativeCropRegion (ofZ W) (ofZ H) (ofZ W / ofZ H)%float b 1%float)
     (Region.mk 0%float 0%float (ofZ W) (ofZ H))).
Proof.
  split.
  - apply getRelativeCropRegion_full_image_exact.
  - apply getRelativeCropRegion_full_image_float.
Qed.

Lemma getRelativeCropRegion_full_image_witness :
  region_xeq
    (getRelativeCropRegion (Some (inject_Z 1000)) (Some (inject_Z 333))
       (Some (1000 # 333)) (box 400 100 600 233) (Some 1))
    (Region.mk (Some 0) (Some 0) (Some (inject_Z 1000)) (Some (inject_Z 333))) /\
  Binary64.region_jseq
    (getRelativeCropRegion (ofZ 1000) (ofZ 333) (ofZ 1000 / ofZ 333)%float
       (mkBBox 400 100 600 233)%float 1%float)
    (Region.mk 0%float 0%float (ofZ 1000) (ofZ 333)).
Proof.
  destruct (getRelativeCropRegion_full_image 1000 333 (1000 # 333) 400 100 600 233
              (mkBBox 400 100 600 233)%float) as [E F].
  split.
  - apply E; reflexivity.
  - apply F; first [lia | reflexivity].
Defined.

(** The same image in binary64, and one whose ratio is not a binary64
    value: the rounding of the sides absorbs the rounding of the ratio. *)
Example getRelativeCropRegion_full_image_evaluated :
  (getRelativeCropRegion 1000 333 (1000 / 333) (mkBBox 400 100 600 233) 1
   = Region.mk 0 0 1000 333)%float /\
  (getRelativeCropRegion 1920 1080 (1920 / 1080) (mkBBox 900 500 1020 580) 1
   = Region.mk 0 0 1920 1080)%float.
Proof. split; reflexivity. Qed.

End Cropping.

(** ** The enclosing box: [getEnclosingBBox] *)

Module Enclosing.

Import FloatOrder FloatArith.
Local Open Scope Z_scope.

(** [Array.prototype.reduce] with an initial value: the callback runs on
    every element from left to right, and an empty array returns the
    initial value. *)
Definition reduce_from {A B : Type} (callback : B -> A -> B) (initialValue : B)
    (arr : list A) : B :=
  fold_left callback arr initialValue.

Definition getEnclosingBBox (bboxes : list (BBox float)) : BBox float :=
  reduce_from
    (fun acc b =>
       mkBBox (Math_min (x1 acc) (x1 b)) (Math_min (y1 acc) (y1 b))
              (Math_max (x2 acc) (x2 b)) (Math_max (y2 acc) (y2 b)))
    (mkBBox infinity infinity (- infinity)%float (- infinity)%float)
    bboxes.

(** No coordinate of the box is NaN. *)
Definition numbers (b : BBox float) : bool :=
  negb (is_nan (x1 b)) && negb (is_nan (y1 b)) &&
  negb (is_nan (x2 b)) && negb (is_nan (y2 b)).

Definition encloses (outer b : BBox float) : Prop :=
  Binary64.jsle (x1 outer) (x1 b) /\ Binary64.jsle (y1 outer) (y1 b) /\
  Binary64.jsle (x2 b) (x2 outer) /\ Binary64.jsle (y2 b) (y2 outer).

Lemma nan_unique (x : float) : is_nan x = true -> x = nan.
Proof.
  intros H. apply is_nan_spec in H. apply Prim2SF_inj. now rewrite H.
Qed.

(** [Infinity] is neutral for [Math.min], [-Infinity] for [Math.max]. *)
Lemma min_infinity_l (x : float) : Binary64.min infinity x = x.
Proof.
  unfold Binary64.min. change (is_nan infinity) with false. cbn [orb].
  destruct (is_nan x) eqn:Nx; [symmetry; now apply nan_unique|].
  assert (L : (infinity <? x)%float = false).
  { rewrite ltb_spec. change (Prim2SF infinity) with (S754_infinity false).
    now destruct (Prim2SF x) as [[|]|[|]| |[|] m e]. }
  rewrite L. change (get_sign infinity) with false.
  now destruct (x <? infinity)%float.
Qed.

Lemma max_neg_infinity_l (x : float) : Binary64.max (- infinity) x = x.
Proof.
  unfold Binary64.max. change (is_nan (- infinity)) with false. cbn [orb].
  destruct (is_nan x) eqn:Nx; [symmetry; now apply nan_unique|].
  assert (L : (x <? - infinity)%float = false).
  { rewrite ltb_spec. change (Prim2SF (- infinity)) with (S754_infinity true).
    now destruct (Prim2SF x) as [[|]|[|]| |[|] m e]. }
  rewrite L. destruct (- infinity <? x)%float eqn:G; [reflexivity|].
  (* neither is below the other: [x] is [-Infinity] *)
  change (get_sign (- infinity)) with true. cbv iota. reflexivity.
Qed.

(** The running minimum and maximum of a list of numbers. *)
Lemma fold_min_spec (l : list float) (a : float) :
  is_nan a = false -> Forall (fun x => is_nan x = false) l ->
  let r := fold_left Binary64.min l a in
  is_nan r = false /\ ~ klt (fkey a) (fkey r) /\
  Forall (fun x => ~ klt (fkey x) (fkey r)) l /\ In r (a :: l).
Proof.
  revert a. induction l as [|x l IH]; intros a Na Nl; cbn [fold_left].
  - repeat split; auto. { unfold klt. lia. } now left.
  - inversion Nl as [|x' l' Nx Nl']; subst.
    destruct (IH (Binary64.min a x) (min_not_nan a x Na Nx) Nl') as (Nr & Ra & Rl & Rin).
    split; [assumption|].
    destruct (min_cases a x Na Nx) as [[E C]|[E C]]; rewrite E in *.
    + split; [assumption|]. split.
      * constructor; [|assumption]. unfold klt in *. lia.
      * destruct Rin as [<-|Rin]; [now left|right; now right].
    + split; [unfold klt in *; lia|]. split.
      * constructor; assumption.
      * right. destruct Rin as [<-|Rin]; [now left|now right].
Qed.

Lemma fold_max_spec (l : list float) (a : float) :
  is_nan a = false -> Forall (fun x => is_nan x = false) l ->
  let r := fold_left Binary64.max l a in
  is_nan r = false /\ ~ klt (fkey r) (fkey a) /\
  Forall (fun x => ~ klt (fkey r) (fkey x)) l /\ In r (a :: l).
Proof.
  revert a. induction l as [|x l IH]; intros a Na Nl; cbn [fold_left].
  - repeat split; auto. { unfold klt. lia. } now left.
  - inversion Nl as [|x' l' Nx Nl']; subst.
    destruct (IH (Binary64.max a x) (max_not_nan a x Na Nx) Nl') as (Nr & Ra & Rl & Rin).
    split; [assumption|].
    destruct (max_cases a x Na Nx) as [[E C]|[E C]]; rewrite E in *.
    + split; [assumption|]. split.
      * constructor; [|assumption]. unfold klt in *. lia.
      * destruct Rin as [<-|Rin]; [now left|right; now right].
    + split; [unfold klt in *; lia|]. split.
      * constructor; assumption.
      * right. destruct Rin as [<-|Rin]; [now left|now right].
Qed.

(** Each coordinate of the result is a fold over that coordinate. *)
Lemma getEnclosingBBox_folds (l : list (BBox float)) (init : BBox float) :
  let r := fold_left
             (fun acc b =>
                mkBBox (Math_min (x1 acc) (x1 b)) (Math_min (y1 acc) (y1 b))
                       (Math_max (x2 acc) (x2 b)) (Math_max (y2 acc) (y2 b)))
             l init in
  x1 r = fold_left Binary64.min (map x1 l) (x1 init) /\
  y1 r = fold_left Binary64.min (map y1 l) (y1 init) /\
  x2 r = fold_left Binary64.max (map x2 l) (x2 init) /\
  y2 r = fold_left Binary64.max (map y2 l) (y2 init).
Proof.
  revert init. induction l as [|b l IH]; intros init; cbn [fold_left map].
  - auto.
  - apply IH.
Qed.

Lemma numbers_spec (b : BBox float) :
  numbers b = true <->
  is_nan (x1 b) = false /\ is_nan (y1 b) = false /\
  is_nan (x2 b) = false /\ is_nan (y2 b) = false.
Proof.
  unfold numbers. rewrite !andb_true_iff, !negb_true_iff. tauto.
Qed.

Lemma numbers_map (l : list (BBox float)) (c : BBox float -> float) :
  (forall b, numbers b = true -> is_nan (c b) = false) ->
  forallb numbers l = true -> Forall (fun x => is_nan x = false) (map c l).
Proof.
  intros Hc H. rewrite forallb_forall in H. apply Forall_forall.
  intros x Hx. apply in_map_iff in Hx as (b & <- & Hb). auto.
Qed.

(** The four folds of a list of boxes of numbers that starts with [first]. *)
Lemma getEnclosingBBox_cons (first : BBox float) (rest : list (BBox float)) :
  let r := getEnclosingBBox (first :: rest) in
  x1 r = fold_left Binary64.min (map x1 rest) (x1 first) /\
  y1 r = fold_left Binary64.min (map y1 rest) (y1 first) /\
  x2 r = fold_left Binary64.max (map x2 rest) (x2 first) /\
  y2 r = fold_left Binary64.max (map y2 rest) (y2 first).
Proof.
  unfold getEnclosingBBox, reduce_from. cbn [fold_left].
  cbn [x1 y1 x2 y2 Math_min Math_max Binary64.number].
  rewrite !min_infinity_l, !max_neg_infinity_l.
  apply (getEnclosingBBox_folds rest (mkBBox (x1 first) (y1 first) (x2 first) (y2 first))).
Qed.

Lemma klt_jsle (a b : float) :
  is_nan a = false -> is_nan b = false -> ~ klt (fkey b) (fkey a) -> Binary64.jsle a b.
Proof. intros Na Nb H. now apply leb_key. Qed.

(** X2: for a nonempty array of boxes whose coordinates are numbers,
    [getEnclosingBBox] returns a box of numbers that encloses every box of
    the array, and each of its four coordinates is the coordinate of some
    box of the array: it is the smallest such box. *)
Theorem getEnclosingBBox_smallest_enclosing (bboxes : list (BBox float)) :
  bboxes <> [] -> forallb numbers bboxes = true ->
  let r := getEnclosingBBox bboxes in
  numbers r = true /\
  (forall b, In b bboxes -> encloses r b) /\
  (exists b, In b bboxes /\ x1 r = x1 b) /\ (exists b, In b bboxes /\ y1 r = y1 b) /\
  (exists b, In b bboxes /\ x2 r = x2 b) /\ (exists b, In b bboxes /\ y2 r = y2 b).
Proof.
  destruct bboxes as [|first rest]; [congruence|]. intros _ HN r.
  destruct (getEnclosingBBox_cons first rest) as (E1 & E2 & E3 & E4). fold r in E1, E2, E3, E4.
  assert (HN' := HN). cbn [forallb] in HN'. apply andb_prop in HN' as [Nf Nr].
  apply numbers_spec in Nf as (F1 & F2 & F3 & F4).
  pose proof (numbers_map rest x1 (fun b Hb => proj1 (proj1 (numbers_spec b) Hb)) Nr) as L1.
  pose proof (numbers_map rest y1
                (fun b Hb => proj1 (proj2 (proj1 (numbers_spec b) Hb))) Nr) as L2.
  pose proof (numbers_map rest x2
                (fun b Hb => proj1 (proj2 (proj2 (proj1 (numbers_spec b) Hb)))) Nr) as L3.
  pose proof (numbers_map rest y2
                (fun b Hb => proj2 (proj2 (proj2 (proj1 (numbers_spec b) Hb)))) Nr) as L4.
  destruct (fold_min_spec _ _ F1 L1) as (N1 & A1 & B1 & I1).
  destruct (fold_min_spec _ _ F2 L2) as (N2 & A2 & B2 & I2).
  destruct (fold_max_spec _ _ F3 L3) as (N3 & A3 & B3 & I3).
  destruct (fold_max_spec _ _ F4 L4) as (N4 & A4 & B4 & I4).
  rewrite <- E1 in N1, A1, B1, I1. rewrite <- E2 in N2, A2, B2, I2.
  rewrite <- E3 in N3, A3, B3, I3. rewrite <- E4 in N4, A4, B4, I4.
  rewrite Forall_forall in B1, B2, B3, B4.
  assert (Attained : forall (c : BBox float -> float),
             In (c r) (c first :: map c rest) ->
             exists b, In b (first :: rest) /\ c r = c b).
  { intros c [H|H].
    - exists first. split; [now left|congruence].
    - apply in_map_iff in H as (b & Hb & Hin). exists b. split; [now right|congruence]. }
  split; [apply numbers_spec; tauto|].
  split; [|repeat split; now apply Attained].
  intros b [<-|Hb].
  - repeat split; now apply klt_jsle.
  - rewrite forallb_forall in Nr. apply Nr in Hb as Nb.
    apply numbers_spec in Nb as (G1 & G2 & G3 & G4).
    repeat split; apply klt_jsle; trivial;
      [apply B1|apply B2|apply B3|apply B4]; now apply in_map.
Qed.

Lemma getEnclosingBBox_smallest_enclosing_witness :
  let l := [mkBBox 10 20 30 40; mkBBox 5 25 20 60; mkBBox 8 0 50 10]%float in
  let r := getEnclosingBBox l in
  numbers r = true /\
  (forall b, In b l -> encloses r b) /\
  (exists b, In b l /\ x1 r = x1 b) /\ (exists b, In b l /\ y1 r = y1 b) /\
  (exists b, In b l /\ x2 r = x2 b) /\ (exists b, In b l /\ y2 r = y2 b).
Proof.
  apply (getEnclosingBBox_smallest_enclosing
           [mkBBox 10 20 30 40; mkBBox 5 25 20 60; mkBBox 8 0 50 10]%float);
    [discriminate|reflexivity].
Defined.

(** X3: the empty array gives [[Infinity, Infinity, -Infinity, -Infinity]]
    rather than an error, and that box never shows in the result of a
    nonempty array: an array of one box gives that box, whatever its
    coordinates, and a longer array gives the same as the array with its
    first two boxes merged. *)
Theorem getEnclosingBBox_initial_value (b c : BBox float) (rest : list (BBox float)) :
  getEnclosingBBox [] = mkBBox infinity infinity neg_infinity neg_infinity /\
  getEnclosingBBox [b] = b /\
  getEnclosingBBox (b :: c :: rest) = getEnclosingBBox (getEnclosingBBox [b; c] :: rest).
Proof.
  assert (One : forall a, getEnclosingBBox [a] = a).
  { intros a. unfold getEnclosingBBox, reduce_from. cbn [fold_left].
    cbn [x1 y1 x2 y2 Math_min Math_max Binary64.number].
    rewrite !min_infinity_l, !max_neg_infinity_l. now destruct a. }
  split; [reflexivity|]. split; [apply One|].
  unfold getEnclosingBBox, reduce_from. cbn [fold_left].
  cbn [x1 y1 x2 y2 Math_min Math_max Binary64.number].
  now rewrite !min_infinity_l, !max_neg_infinity_l.
Qed.

Lemma min_nan (a x : float) :
  is_nan a = true \/ is_nan x = true -> is_nan (Binary64.min a x) = true.
Proof.
  intros H. unfold Binary64.min.
  replace (is_nan a || is_nan x) with true; [reflexivity|].
  symmetry. apply orb_true_iff. exact H.
Qed.

Lemma max_nan (a x : float) :
  is_nan a = true \/ is_nan x = true -> is_nan (Binary64.max a x) = true.
Proof.
  intros H. unfold Binary64.max.
  replace (is_nan a || is_nan x) with true; [reflexivity|].
  symmetry. apply orb_true_iff. exact H.
Qed.

Lemma fold_nan (f : float -> float -> float) (l : list float) (a : float) :
  (forall a x, is_nan a = true \/ is_nan x = true -> is_nan (f a x) = true) ->
  is_nan a = true \/ Exists (fun x => is_nan x = true) l ->
  is_nan (fold_left f l a) = true.
Proof.
  intros Hf. revert a. induction l as [|x l IH]; intros a H; cbn [fold_left].
  - destruct H as [H|H]; [assumption|inversion H].
  - apply IH. destruct H as [H|H].
    + left. apply Hf. now left.
    + inversion H as [? ? Hx|? ? Hl]; subst.
      * left. apply Hf. now right.
      * now right.
Qed.

Lemma fold_is_nan (f : float -> float -> float) (l : list float) (a : float) :
  (forall a x, is_nan a = true \/ is_nan x = true -> is_nan (f a x) = true) ->
  (forall a x, is_nan a = false -> is_nan x = false -> is_nan (f a x) = false) ->
  is_nan a = false ->
  is_nan (fold_left f l a) = existsb is_nan l.
Proof.
  intros Hn Hf. revert a. induction l as [|x l IH]; intros a Na; cbn [fold_left existsb].
  - assumption.
  - destruct (is_nan x) eqn:Nx; cbn [orb].
    + apply fold_nan; [assumption|]. left. apply Hn. now right.
    + apply IH. now apply Hf.
Qed.

Lemma existsb_map (c : BBox float -> float) (l : list (BBox float)) :
  existsb (fun b => is_nan (c b)) l = existsb is_nan (map c l).
Proof.
  induction l as [|b l IH]; cbn [existsb map]; [reflexivity|]. now rewrite IH.
Qed.

(** X4: NaN is absorbing, coordinate by coordinate: a coordinate of the
    enclosing box is NaN exactly when that coordinate of some box of the
    array is NaN. *)
Theorem getEnclosingBBox_nan (bboxes : list (BBox float)) :
  let r := getEnclosingBBox bboxes in
  is_nan (x1 r) = existsb (fun b => is_nan (x1 b)) bboxes /\
  is_nan (y1 r) = existsb (fun b => is_nan (y1 b)) bboxes /\
  is_nan (x2 r) = existsb (fun b => is_nan (x2 b)) bboxes /\
  is_nan (y2 r) = existsb (fun b => is_nan (y2 b)) bboxes.
Proof.
  intros r.
  destruct (getEnclosingBBox_folds bboxes
              (mkBBox infinity infinity (- infinity)%float (- infinity)%float))
    as (E1 & E2 & E3 & E4).
  unfold r, getEnclosingBBox, reduce_from. rewrite E1, E2, E3, E4, !existsb_map.
  cbn [x1 y1 x2 y2].
  repeat split; apply fold_is_nan;
    auto using min_nan, max_nan, min_not_nan, max_not_nan.
Qed.

(** The least and the greatest element of a list of numbers do not depend
    on the order of the list. *)
Lemma fold_min_perm (l l' : list float) (a : float) :
  Permutation l l' -> is_nan a = false -> Forall (fun x => is_nan x = false) l ->
  Binary64.jseq (fold_left Binary64.min l a) (fold_left Binary64.min l' a).
Proof.
  intros P Na Nl.
  assert (Nl' : Forall (fun x => is_nan x = false) l').
  { apply Forall_forall. intros x Hx. rewrite Forall_forall in Nl. apply Nl.
    now apply (Permutation_in _ (Permutation_sym P)). }
  destruct (fold_min_spec l a Na Nl) as (N & A & B & I).
  destruct (fold_min_spec l' a Na Nl') as (N' & A' & B' & I').
  rewrite Forall_forall in B, B'.
  apply eqb_key; trivial.
  assert (L : ~ klt (fkey (fold_left Binary64.min l a)) (fkey (fold_left Binary64.min l' a))).
  { destruct I as [<-|I]; [assumption|]. apply B'. now apply (Permutation_in _ P). }
  assert (R : ~ klt (fkey (fold_left Binary64.min l' a)) (fkey (fold_left Binary64.min l a))).
  { destruct I' as [<-|I']; [assumption|]. apply B.
    now apply (Permutation_in _ (Permutation_sym P)). }
  unfold klt, keq in *. lia.
Qed.

Lemma fold_max_perm (l l' : list float) (a : float) :
  Permutation l l' -> is_nan a = false -> Forall (fun x => is_nan x = false) l ->
  Binary64.jseq (fold_left Binary64.max l a) (fold_left Binary64.max l' a).
Proof.
  intros P Na Nl.
  assert (Nl' : Forall (fun x => is_nan x = false) l').
  { apply Forall_forall. intros x Hx. rewrite Forall_forall in Nl. apply Nl.
    now apply (Permutation_in _ (Permutation_sym P)). }
  destruct (fold_max_spec l a Na Nl) as (N & A & B & I).
  destruct (fold_max_spec l' a Na Nl') as (N' & A' & B' & I').
  rewrite Forall_forall in B, B'.
  apply eqb_key; trivial.
  assert (L : ~ klt (fkey (fold_left Binary64.max l' a)) (fkey (fold_left Binary64.max l a))).
  { destruct I as [<-|I]; [assumption|]. apply B'. now apply (Permutation_in _ P). }
  assert (R : ~ klt (fkey (fold_left Binary64.max l a)) (fkey (fold_left Binary64.max l' a))).
  { destruct I' as [<-|I']; [assumption|]. apply B.
    now apply (Permutation_in _ (Permutation_sym P)). }
  unfold klt, keq in *. lia.
Qed.

(** X5: the enclosing box does not depend on the order of the array: two
    arrays of boxes of numbers with the same boxes in another order have
    enclosing boxes with [==] coordinates. *)
Theorem getEnclosingBBox_order (bboxes bboxes' : list (BBox float)) :
  Permutation bboxes bboxes' -> forallb numbers bboxes = true ->
  Binary64.bbox_jseq (getEnclosingBBox bboxes) (getEnclosingBBox bboxes').
Proof.
  intros P HN.
  set (init := mkBBox infinity infinity (- infinity)%float (- infinity)%float).
  destruct (getEnclosingBBox_folds bboxes init) as (E1 & E2 & E3 & E4).
  destruct (getEnclosingBBox_folds bboxes' init) as (E1' & E2' & E3' & E4').
  unfold Binary64.bbox_jseq, getEnclosingBBox, reduce_from. fold init.
  rewrite E1, E2, E3, E4, E1', E2', E3', E4'.
  pose proof (numbers_map bboxes x1 (fun b Hb => proj1 (proj1 (numbers_spec b) Hb)) HN) as L1.
  pose proof (numbers_map bboxes y1
                (fun b Hb => proj1 (proj2 (proj1 (numbers_spec b) Hb))) HN) as L2.
  pose proof (numbers_map bboxes x2
                (fun b Hb => proj1 (proj2 (proj2 (proj1 (numbers_spec b) Hb)))) HN) as L3.
  pose proof (numbers_map bboxes y2
                (fun b Hb => proj2 (proj2 (proj2 (proj1 (numbers_spec b) Hb)))) HN) as L4.
  repeat split;
    [apply fold_min_perm|apply fold_min_perm|apply fold_max_perm|apply fold_max_perm];
    trivial; now apply Permutation_map.
Qed.

Lemma getEnclosingBBox_order_witness :
  Binary64.bbox_jseq
    (getEnclosingBBox [mkBBox 10 20 30 40; mkBBox 5 25 20 60; mkBBox 8 0 50 10]%float)
    (getEnclosingBBox [mkBBox 8 0 50 10; mkBBox 10 20 30 40; mkBBox 5 25 20 60]%float).
Proof.
  apply getEnclosingBBox_order; [|reflexivity].
  apply Permutation_sym, (Permutation_cons_app [_; _] []). apply Permutation_refl.
Defined.

End Enclosing.

(** ** Moving boxes between frames: [cropBBox] and [resizeBBox] *)

Module Boxes.

Import FloatOrder FloatArith FloatInt Pixels FloatValue.
Local Open Scope Z_scope.

(** A region of integer pixel coordinates. *)
Definition Zregion (l t w h : Z) : Region.t float :=
  Region.mk (ofZ l) (ofZ t) (ofZ w) (ofZ h).

(** [Math.max(0, Math.min(v, size))] on integers. *)
Definition clampZ (v size : Z) : Z := Z.max 0 (Z.min v size).

Ltac pixels :=
  repeat match goal with
         | H : Forall pixel (_ :: _) |- _ => inversion H; subst; clear H
         | H : Forall pixel [] |- _ => clear H
         end.

Lemma clamp_ofZ (v size : Z) :
  safe v -> safe size ->
  Binary64.max 0 (Binary64.min (ofZ v) (ofZ size)) = ofZ (clampZ v size).
Proof.
  intros Hv Hs. unfold clampZ. change 0%float with (ofZ 0).
  rewrite ofZ_min by assumption.
  apply ofZ_max; unfold safe in *; lia.
Qed.

(** [cropBBox] on integer pixel coordinates: the subtractions and the
    clamps are exact. *)
Lemma cropBBox_pixels (zx1 zy1 zx2 zy2 l t w h : Z) :
  Forall pixel [zx1; zy1; zx2; zy2; l; t; w; h] ->
  cropBBox (Zbox zx1 zy1 zx2 zy2) (Zregion l t w h)
  = Zbox (clampZ (zx1 - l) w) (clampZ (zy1 - t) h)
         (clampZ (zx2 - l) w) (clampZ (zy2 - t) h).
Proof.
  intros HP. pixels.
  unfold cropBBox, clipBBox, Zbox, Zregion.
  cbn [x1 y1 x2 y2 Region.left Region.top Region.width Region.height
       nsub Math_max Math_min num0 Binary64.number].
  rewrite !ofZ_sub by auto using pixel_safe, pixel_sub_safe.
  now rewrite !clamp_ofZ by auto using pixel_safe, pixel_sub_safe.
Qed.

Lemma clampZ_pixel (v size : Z) : pixel size -> pixel (clampZ v size).
Proof. unfold pixel, clampZ. lia. Qed.

Ltac all_pixels :=
  repeat (apply Forall_cons; [auto using clampZ_pixel|]); apply Forall_nil.

(** X6: on integer pixel coordinates, for a well-formed box and a region
    whose width and height are not negative, [cropBBox] returns a
    well-formed box of integer coordinates that lies within the region's
    own frame [[0, width] x [0, height]]. *)
Theorem cropBBox_in_region (zx1 zy1 zx2 zy2 l t w h : Z) :
  Forall pixel [zx1; zy1; zx2; zy2; l; t; w; h] ->
  zx1 <= zx2 -> zy1 <= zy2 -> 0 <= w -> 0 <= h ->
  exists rx1 ry1 rx2 ry2,
    cropBBox (Zbox zx1 zy1 zx2 zy2) (Zregion l t w h) = Zbox rx1 ry1 rx2 ry2 /\
    0 <= rx1 <= rx2 /\ rx2 <= w /\ 0 <= ry1 <= ry2 /\ ry2 <= h.
Proof.
  intros HP Hx Hy Hw Hh.
  exists (clampZ (zx1 - l) w), (clampZ (zy1 - t) h),
         (clampZ (zx2 - l) w), (clampZ (zy2 - t) h).
  split; [now apply cropBBox_pixels|]. unfold clampZ. lia.
Qed.

Lemma cropBBox_in_region_witness :
  exists rx1 ry1 rx2 ry2,
    cropBBox (Zbox 50 60 400 300) (Zregion 100 100 200 150) = Zbox rx1 ry1 rx2 ry2 /\
    0 <= rx1 <= rx2 /\ rx2 <= 200 /\ 0 <= ry1 <= ry2 /\ ry2 <= 150.
Proof.
  apply (cropBBox_in_region 50 60 400 300 100 100 200 150); try lia.
  repeat constructor; unfold pixel; lia.
Defined.

(** X7: a box that lies inside the region is only translated, by
    [(-left, -top)], and keeps its area. *)
Theorem cropBBox_inside (zx1 zy1 zx2 zy2 l t w h : Z) :
  Forall pixel [zx1; zy1; zx2; zy2; l; t; w; h] ->
  l <= zx1 -> zx1 <= zx2 -> zx2 <= l + w ->
  t <= zy1 -> zy1 <= zy2 -> zy2 <= t + h ->
  cropBBox (Zbox zx1 zy1 zx2 zy2) (Zregion l t w h)
  = Zbox (zx1 - l) (zy1 - t) (zx2 - l) (zy2 - t) /\
  getBBoxArea (cropBBox (Zbox zx1 zy1 zx2 zy2) (Zregion l t w h))
  = getBBoxArea (Zbox zx1 zy1 zx2 zy2).
Proof.
  intros HP A1 A2 A3 B1 B2 B3.
  rewrite cropBBox_pixels by assumption. pixels.
  replace (clampZ (zx1 - l) w) with (zx1 - l) by (unfold clampZ; lia).
  replace (clampZ (zx2 - l) w) with (zx2 - l) by (unfold clampZ; lia).
  replace (clampZ (zy1 - t) h) with (zy1 - t) by (unfold clampZ; lia).
  replace (clampZ (zy2 - t) h) with (zy2 - t) by (unfold clampZ; lia).
  split; [reflexivity|].
  unfold getBBoxArea, Zbox. cbn [x1 y1 x2 y2 nsub nmul Binary64.number].
  assert (S : forall a b, pixel a -> pixel b -> safe (a - b)) by apply pixel_sub_safe.
  assert (P : forall a b, l <= a -> a <= b -> b <= l + w -> pixel w -> safe (a - l) /\ safe (b - l) /\
                          safe (b - l - (a - l))).
  { unfold pixel, safe. intros. lia. }
  rewrite !ofZ_sub; auto using pixel_safe; try (unfold pixel, safe in *; lia).
  f_equal; f_equal; lia.
Qed.

Lemma cropBBox_inside_witness :
  cropBBox (Zbox 150 160 250 200) (Zregion 100 100 200 150) = Zbox 50 60 150 100 /\
  getBBoxArea (cropBBox (Zbox 150 160 250 200) (Zregion 100 100 200 150))
  = getBBoxArea (Zbox 150 160 250 200).
Proof.
  apply (cropBBox_inside 150 160 250 200 100 100 200 150); try lia.
  repeat constructor; unfold pixel; lia.
Defined.

(** X8: crops compose: cropping to a region and then to a second region
    that lies inside the frame of the first is cropping once, to the second
    region placed in the original frame. *)
Theorem cropBBox_twice (zx1 zy1 zx2 zy2 l1 t1 w1 h1 l2 t2 w2 h2 : Z) :
  Forall pixel [zx1; zy1; zx2; zy2; l1; t1; w1; h1; l2; t2; w2; h2; l1 + l2; t1 + t2] ->
  0 <= l2 -> 0 <= w2 -> l2 + w2 <= w1 ->
  0 <= t2 -> 0 <= h2 -> t2 + h2 <= h1 ->
  cropBBox (cropBBox (Zbox zx1 zy1 zx2 zy2) (Zregion l1 t1 w1 h1)) (Zregion l2 t2 w2 h2)
  = cropBBox (Zbox zx1 zy1 zx2 zy2) (Zregion (l1 + l2) (t1 + t2) w2 h2).
Proof.
  intros HP A1 A2 A3 B1 B2 B3. pixels.
  rewrite (cropBBox_pixels zx1 zy1 zx2 zy2 l1 t1 w1 h1) by all_pixels.
  rewrite cropBBox_pixels by all_pixels.
  rewrite cropBBox_pixels by all_pixels.
  unfold Zbox. f_equal; f_equal; unfold clampZ; lia.
Qed.

Lemma cropBBox_twice_witness :
  cropBBox (cropBBox (Zbox 50 60 400 300) (Zregion 100 100 200 150)) (Zregion 20 30 100 100)
  = cropBBox (Zbox 50 60 400 300) (Zregion (100 + 20) (100 + 30) 100 100).
Proof.
  apply (cropBBox_twice 50 60 400 300 100 100 200 150 20 30 100 100); try lia.
  repeat constructor; unfold pixel; lia.
Defined.

(** *** [resizeBBox] *)

Local Open Scope Q_scope.

(** The float [x] is a number within [t] of [v], relatively. *)
Definition near (t : Q) (x : float) (v : Q) : Prop :=
  is_finite x = true /\ Qabs (F2Q x - v) <= t * v.

(** A coordinate and a size in pixels, as integers that binary64 holds. *)
Definition coordinate (z : Z) : Prop := (0 <= z < 2 ^ 53)%Z.
Definition size (z : Z) : Prop := (0 < z < 2 ^ 53)%Z.

Lemma approx_within (r : Z) (a b : Q) (x : float) (v t : Q) :
  approx r a b x v -> 0 < v -> 1 - t <= a -> b <= 1 + t -> near t x v.
Proof.
  intros [P [L U]] Pv A B. split; [now apply (PN_finite r)|].
  apply (Qmult_le_l _ _ v) in A; [|assumption].
  apply (Qmult_le_l _ _ v) in B; [|assumption].
  setoid_replace (v * (1 - t)) with (v - t * v) in A by ring.
  setoid_replace (v * (1 + t)) with (v + t * v) in B by ring.
  set (tv := t * v) in *. set (va := v * a) in *. set (vb := v * b) in *.
  apply Qabs_Qle_condition. split; lra.
Qed.

Lemma near_zero (t v : Q) : v == 0 -> near t (ofZ 0) v.
Proof.
  intros E. split; [reflexivity|]. rewrite E.
  change (F2Q (ofZ 0)) with 0.
  setoid_replace (0 - 0) with 0 by ring. setoid_replace (t * 0) with 0 by ring.
  discriminate.
Qed.

(** One coordinate through [(c * newSize) / originalSize]. *)
Lemma resize_step (r : Z) (a b : Q) (c : float) (v : Q) (n o : Z) :
  approx r a b c v -> 0 < v -> 0 < a -> (0 <= r <= 700)%Z -> size n -> size o ->
  approx (r + 52 + 54 + 52 + 53)
         (a * 1 * (1 - eps) / 1 * (1 - eps)) (b * 1 * (1 + eps) / 1 * (1 + eps))
         (c * ofZ n / ofZ o)%float (v * inject_Z n / inject_Z o).
Proof.
  intros Ac Pv Pa Hr Hn Ho. unfold size in *.
  assert (Pn : 0 < inject_Z n) by (change 0 with (inject_Z 0); rewrite <- Zlt_Qlt; lia).
  assert (Po : 0 < inject_Z o) by (change 0 with (inject_Z 0); rewrite <- Zlt_Qlt; lia).
  assert (P1 : (0 : Q) < 1) by reflexivity.
  pose proof (approx_mul _ _ _ _ _ _ _ _ _ _ Ac (approx_ofZ n Hn)
                ltac:(lia) ltac:(lia) ltac:(lia) Pv Pn Pa P1) as Am.
  assert (Pvn : 0 < v * inject_Z n) by now apply Qmult_lt_0_compat.
  assert (Pa' : 0 < a * 1 * (1 - eps)).
  { unfold eps. change (2 ^ (-52)) with (1 # 4503599627370496). lra. }
  exact (approx_div _ _ _ _ _ _ _ _ _ _ Am (approx_ofZ o Ho)
           ltac:(lia) ltac:(lia) ltac:(lia) Pvn Po Pa' P1 P1).
Qed.

Lemma resize_coordinate (z n o : Z) :
  coordinate z -> size n -> size o ->
  near (2 ^ (-50)) (ofZ z * ofZ n / ofZ o)%float (inject_Z z * inject_Z n / inject_Z o).
Proof.
  intros Hz Hn Ho. unfold coordinate in Hz.
  assert (Po : 0 < inject_Z o).
  { unfold size in Ho. change 0 with (inject_Z 0). rewrite <- Zlt_Qlt. lia. }
  assert (Pn : 0 < inject_Z n).
  { unfold size in Hn. change 0 with (inject_Z 0). rewrite <- Zlt_Qlt. lia. }
  destruct (Z.eq_dec z 0) as [->|N].
  - rewrite zero_mul_ofZ, zero_div_ofZ by assumption.
    apply near_zero. change (inject_Z 0) with 0. field. lra.
  - assert (Pz : 0 < inject_Z z) by (change 0 with (inject_Z 0); rewrite <- Zlt_Qlt; lia).
    pose proof (resize_step _ _ _ _ _ n o (approx_ofZ z ltac:(lia)) Pz
                  ltac:(reflexivity) ltac:(lia) Hn Ho) as A.
    apply (approx_within _ _ _ _ _ _ A); [|qconst|qconst].
    apply Qlt_shift_div_l; [assumption|]. rewrite Qmult_0_l.
    now apply Qmult_lt_0_compat.
Qed.

(** X9: [resizeBBox] is accurate: for a box of integer pixel coordinates
    from 0 and image sizes that are positive integers, each coordinate of
    the result is a number within [2^-50] of the exact
    [coordinate * newSize / originalSize], relatively. *)
Theorem resizeBBox_accurate (zx1 zy1 zx2 zy2 ow oh nw nh : Z) :
  Forall coordinate [zx1; zy1; zx2; zy2] -> Forall size [ow; oh; nw; nh] ->
  let r := resizeBBox (Zbox zx1 zy1 zx2 zy2) (ofZ ow, ofZ oh) (ofZ nw, ofZ nh) in
  near (2 ^ (-50)) (x1 r) (inject_Z zx1 * inject_Z nw / inject_Z ow) /\
  near (2 ^ (-50)) (y1 r) (inject_Z zy1 * inject_Z nh / inject_Z oh) /\
  near (2 ^ (-50)) (x2 r) (inject_Z zx2 * inject_Z nw / inject_Z ow) /\
  near (2 ^ (-50)) (y2 r) (inject_Z zy2 * inject_Z nh / inject_Z oh).
Proof.
  intros HC HS.
  repeat match goal with
         | H : Forall _ (_ :: _) |- _ => inversion H; subst; clear H
         end.
  unfold resizeBBox, Zbox. cbn [x1 y1 x2 y2 fst snd nmul ndiv Binary64.number].
  repeat split; apply resize_coordinate; assumption.
Qed.

Lemma resizeBBox_accurate_witness :
  let r := resizeBBox (Zbox 10 20 300 400) (ofZ 1000, ofZ 750) (ofZ 512, ofZ 384) in
  near (2 ^ (-50)) (x1 r) (inject_Z 10 * inject_Z 512 / inject_Z 1000) /\
  near (2 ^ (-50)) (y1 r) (inject_Z 20 * inject_Z 384 / inject_Z 750) /\
  near (2 ^ (-50)) (x2 r) (inject_Z 300 * inject_Z 512 / inject_Z 1000) /\
  near (2 ^ (-50)) (y2 r) (inject_Z 400 * inject_Z 384 / inject_Z 750).
Proof.
  apply (resizeBBox_accurate 10 20 300 400 1000 750 512 384);
    repeat constructor; unfold coordinate, size; lia.
Defined.

Lemma resize_coordinate_back (z n o : Z) :
  coordinate z -> size n -> size o ->
  near (2 ^ (-49)) (ofZ z * ofZ n / ofZ o * ofZ o / ofZ n)%float (inject_Z z).
Proof.
  intros Hz Hn Ho. unfold coordinate in Hz.
  assert (Po : 0 < inject_Z o).
  { unfold size in Ho. change 0 with (inject_Z 0). rewrite <- Zlt_Qlt. lia. }
  assert (Pn : 0 < inject_Z n).
  { unfold size in Hn. change 0 with (inject_Z 0). rewrite <- Zlt_Qlt. lia. }
  destruct (Z.eq_dec z 0) as [->|N].
  - rewrite (zero_mul_ofZ n), (zero_div_ofZ o), (zero_mul_ofZ o), (zero_div_ofZ n)
      by assumption.
    now apply near_zero.
  - assert (Pz : 0 < inject_Z z) by (change 0 with (inject_Z 0); rewrite <- Zlt_Qlt; lia).
    pose proof (resize_step _ _ _ _ _ n o (approx_ofZ z ltac:(lia)) Pz
                  ltac:(reflexivity) ltac:(lia) Hn Ho) as A.
    assert (Pv : 0 < inject_Z z * inject_Z n / inject_Z o).
    { apply Qlt_shift_div_l; [assumption|]. rewrite Qmult_0_l.
      now apply Qmult_lt_0_compat. }
    pose proof (resize_step _ _ _ _ _ o n A Pv ltac:(qconst) ltac:(lia) Ho Hn) as B.
    apply (approx_value _ _ _ _ _ (inject_Z z)) in B; [|field; split; lra].
    apply (approx_within _ _ _ _ _ _ B); [assumption|qconst|qconst].
Qed.

(** X10: resizing a box to another image size and back returns it up to
    rounding: for integer pixel coordinates from 0 and positive integer
    sizes, each coordinate comes back as a number within [2^-49] of the
    original one, relatively. *)
Theorem resizeBBox_there_and_back (zx1 zy1 zx2 zy2 ow oh nw nh : Z) :
  Forall coordinate [zx1; zy1; zx2; zy2] -> Forall size [ow; oh; nw; nh] ->
  let r := resizeBBox
             (resizeBBox (Zbox zx1 zy1 zx2 zy2) (ofZ ow, ofZ oh) (ofZ nw, ofZ nh))
             (ofZ nw, ofZ nh) (ofZ ow, ofZ oh) in
  near (2 ^ (-49)) (x1 r) (inject_Z zx1) /\ near (2 ^ (-49)) (y1 r) (inject_Z zy1) /\
  near (2 ^ (-49)) (x2 r) (inject_Z zx2) /\ near (2 ^ (-49)) (y2 r) (inject_Z zy2).
Proof.
  intros HC HS.
  repeat match goal with
         | H : Forall _ (_ :: _) |- _ => inversion H; subst; clear H
         end.
  unfold resizeBBox, Zbox. cbn [x1 y1 x2 y2 fst snd nmul ndiv Binary64.number].
  repeat split; apply resize_coordinate_back; assumption.
Qed.

Lemma resizeBBox_there_and_back_witness :
  let r := resizeBBox
             (resizeBBox (Zbox 10 20 300 400) (ofZ 1000, ofZ 750) (ofZ 512, ofZ 384))
             (ofZ 512, ofZ 384) (ofZ 1000, ofZ 750) in
  near (2 ^ (-49)) (x1 r) (inject_Z 10) /\ near (2 ^ (-49)) (y1 r) (inject_Z 20) /\
  near (2 ^ (-49)) (x2 r) (inject_Z 300) /\ near (2 ^ (-49)) (y2 r) (inject_Z 400).
Proof.
  apply (resizeBBox_there_and_back 10 20 300 400 1000 750 512 384);
    repeat constructor; unfold coordinate, size; lia.
Defined.

(** X11: [resizeBBox] does not guard against an original size of 0 (what
    [getImageSize] gives for an invalid image): the coordinates along an
    axis whose original size is [0] or [-0] are NaN when the product
    [coordinate * newSize] is zero or NaN, and an infinity otherwise; they
    are never the number 0. *)
Theorem resizeBBox_zero_original_size (b : BBox float) (originalSize newSize : Vector2 float) :
  let r := resizeBBox b originalSize newSize in
  (is_zero (fst originalSize) = true ->
   Interpolation.nan_or_infinity (x1 b * fst newSize)%float (x1 r) /\
   Interpolation.nan_or_infinity (x2 b * fst newSize)%float (x2 r)) /\
  (is_zero (snd originalSize) = true ->
   Interpolation.nan_or_infinity (y1 b * snd newSize)%float (y1 r) /\
   Interpolation.nan_or_infinity (y2 b * snd newSize)%float (y2 r)).
Proof.
  unfold resizeBBox. cbn [x1 y1 x2 y2 nmul ndiv Binary64.number].
  split; intros Hz; split; now apply Interpolation.div_by_zero_not_zero.
Qed.

Lemma resizeBBox_zero_original_size_witness :
  let r := resizeBBox (mkBBox 0 20 300 400)%float (0, 0)%float (512, 384)%float in
  (Interpolation.nan_or_infinity (0 * 512)%float (x1 r) /\
   Interpolation.nan_or_infinity (300 * 512)%float (x2 r)) /\
  (Interpolation.nan_or_infinity (20 * 384)%float (y1 r) /\
   Interpolation.nan_or_infinity (400 * 384)%float (y2 r)).
Proof.
  destruct (resizeBBox_zero_original_size (mkBBox 0 20 300 400)%float
              (0, 0)%float (512, 384)%float) as [X Y].
  split; [apply X|apply Y]; reflexivity.
Defined.

End Boxes.

(** ** Checking the number of faces: [validateFaces] *)

Module Validation.

Import FloatOrder FloatArith FloatInt.
Import Stdlib.Strings.String.
Local Open Scope string_scope.

(** [new Error(message)], thrown. *)
Inductive exception : Type := Error (message : string).

(** A call that returns a value or throws an [Error]. *)
Inductive outcome (A : Type) : Type :=
| Returns (a : A)
| Throws (e : exception).
Arguments Returns {A} a.
Arguments Throws {A} e.

Definition FACE_EMB_SEQ_LEN : float := 5%float.

(** [faces.length], a number. *)
Definition length_of {A : Type} (arr : list A) : float := ofZ (Z.of_nat (List.length arr)).

Section ValidateFaces.

(** The conversion of a number to a string that a template literal applies,
    [Number::toString] of the engine. *)
Variable toString : float -> string.

(** [maxFaces] is [None] when the argument is left out or [undefined]. *)
Definition validateFaces (faces : list (Face float)) (maxFaces : option float)
    : outcome unit :=
  let maxFaces := match maxFaces with Some n => n | None => FACE_EMB_SEQ_LEN end in
  if (length_of faces =? 0)%float then
    Throws (Error "We could not find a face in the photo. Maybe the face is too close to the camera or too far away. Please try a different photo.")
  else if (maxFaces <? length_of faces)%float then
    Throws (Error (("Only " ++ toString maxFaces ++ " "
                    ++ (if (maxFaces =? 1)%float then "face is" else "faces are")
                    ++ " allowed but we detected")
                   ++ (" " ++ toString (length_of faces)
                       ++ " faces in your photo. Try a different photo with fewer faces.")))
  else Returns tt.

End ValidateFaces.

Local Open Scope Z_scope.

Lemma ofZ_eqb (a b : Z) : safe a -> safe b -> (ofZ a =? ofZ b)%float = (a =? b).
Proof.
  intros Ha Hb.
  pose proof (ofZ_not_nan a Ha) as Na. pose proof (ofZ_not_nan b Hb) as Nb.
  destruct (a =? b) eqn:E.
  - apply Z.eqb_eq in E. subst b. apply eqb_key; trivial. unfold keq. auto.
  - apply Z.eqb_neq in E.
    destruct (ofZ a =? ofZ b)%float eqn:F; [exfalso|reflexivity].
    apply (eqb_key _ _ Na Nb) in F.
    assert (L : a < b \/ b < a) by lia.
    destruct L as [L|L];
      [pose proof (proj2 (Z.ltb_lt a b) L) as T; rewrite <- (ofZ_ltb a b Ha Hb) in T;
       apply (ltb_key _ _ Na Nb) in T
      |pose proof (proj2 (Z.ltb_lt b a) L) as T; rewrite <- (ofZ_ltb b a Hb Ha) in T;
       apply (ltb_key _ _ Nb Na) in T];
      unfold klt, keq in *; lia.
Qed.

(** An empty array has length 0, whatever the length of a list may be. *)
Lemma length_of_nil {A : Type} : (@length_of A [] =? 0)%float = true.
Proof. reflexivity. Qed.

(** The length of a JavaScript array is below [2^32]. *)
Definition array {A : Type} (arr : list A) : Prop := Z.of_nat (List.length arr) < 2 ^ 32.

Lemma length_of_eqb_0 {A : Type} (arr : list A) :
  array arr -> (length_of arr =? 0)%float = (Z.of_nat (List.length arr) =? 0).
Proof.
  intros H. unfold array in H. unfold length_of. change 0%float with (ofZ 0).
  apply ofZ_eqb; unfold safe; lia.
Qed.

(** X12: which arrays [validateFaces] accepts.  With an integer limit [k] it
    returns for the arrays of 1 to [k] faces and throws for all others;
    without a limit the limit is 5; a limit of NaN switches the upper check
    off; and an empty array gets the error of the first check whatever the
    limit is, a limit of NaN or below 0 included. *)
Theorem validateFaces_accepts (toString : float -> string)
    (faces : list (Face float)) (k : Z) :
  array faces -> safe k ->
  let n := Z.of_nat (List.length faces) in
  (validateFaces toString faces (Some (ofZ k)) = Returns tt <-> 1 <= n <= k) /\
  (validateFaces toString faces None = Returns tt <-> 1 <= n <= 5) /\
  (validateFaces toString faces (Some nan) = Returns tt <-> 1 <= n) /\
  (n = 0 ->
   forall maxFaces,
     validateFaces toString faces maxFaces
     = Throws (Error "We could not find a face in the photo. Maybe the face is too close to the camera or too far away. Please try a different photo.")).
Proof.
  intros Harr Hk n.
  assert (Hn : safe n) by (unfold array in Harr; unfold safe, n; lia).
  assert (P : 0 <= n) by (unfold n; lia).
  pose proof (length_of_eqb_0 faces Harr) as Z0. fold n in Z0.
  assert (Limit : forall m : Z, safe m ->
            (validateFaces toString faces (Some (ofZ m)) = Returns tt <-> 1 <= n <= m)).
  { intros m Hm. unfold validateFaces. rewrite Z0.
    unfold length_of. fold n. rewrite ofZ_ltb by assumption.
    destruct (n =? 0) eqn:E0.
    - apply Z.eqb_eq in E0. split; [discriminate|lia].
    - apply Z.eqb_neq in E0. destruct (m <? n) eqn:L.
      + apply Z.ltb_lt in L. split; [discriminate|lia].
      + apply Z.ltb_ge in L. split; [lia|reflexivity]. }
  split; [now apply Limit|].
  split; [apply (Limit 5); unfold safe; lia|].
  split.
  - unfold validateFaces. rewrite Z0, (ltb_nan_l nan _ eq_refl).
    destruct (n =? 0) eqn:E0.
    + apply Z.eqb_eq in E0. split; [discriminate|lia].
    + apply Z.eqb_neq in E0. split; [lia|reflexivity].
  - intros E maxFaces. unfold validateFaces. rewrite Z0, E. reflexivity.
Qed.

(** A printer of numbers for the examples: the digits of 0 to 9, which is
    what [Number::toString] gives on them. *)
Definition toString_digit (x : float) : string :=
  if (x =? 0)%float then "0" else if (x =? 1)%float then "1"
  else if (x =? 2)%float then "2" else if (x =? 3)%float then "3"
  else if (x =? 4)%float then "4" else if (x =? 5)%float then "5"
  else if (x =? 6)%float then "6" else if (x =? 7)%float then "7"
  else if (x =? 8)%float then "8" else "9".

Lemma validateFaces_accepts_witness :
  let faces := [mkFace [] (mkBBox 0 0 10 10) 1 0 30; mkFace [] (mkBBox 5 5 20 30) 1 1 40]%float in
  let n := Z.of_nat (List.length faces) in
  (validateFaces toString_digit faces (Some (ofZ 3)) = Returns tt <-> 1 <= n <= 3) /\
  (validateFaces toString_digit faces None = Returns tt <-> 1 <= n <= 5) /\
  (validateFaces toString_digit faces (Some nan) = Returns tt <-> 1 <= n) /\
  (n = 0 ->
   forall maxFaces,
     validateFaces toString_digit faces maxFaces
     = Throws (Error "We could not find a face in the photo. Maybe the face is too close to the camera or too far away. Please try a different photo.")).
Proof.
  apply (validateFaces_accepts toString_digit
           [mkFace [] (mkBBox 0 0 10 10) 1 0 30; mkFace [] (mkBBox 5 5 20 30) 1 1 40]%float 3);
    [reflexivity | unfold safe; lia].
Defined.

(** X13: after [validateFaces] has returned, [extractBiggestFace] returns a
    face of the array; it cannot throw the [TypeError] of an empty
    [reduce]. *)
Theorem validateFaces_then_extractBiggestFace (toString : float -> string)
    (faces : list (Face float)) (maxFaces : option float) :
  validateFaces toString faces maxFaces = Returns tt ->
  exists face, extractBiggestFace faces = Return face /\ In face faces.
Proof.
  intros H. destruct faces as [|first rest].
  - unfold validateFaces in H. rewrite length_of_nil in H. discriminate.
  - unfold extractBiggestFace, reduce.
    eexists. split; [reflexivity|].
    clear H. revert first. induction rest as [|c rest IH]; intros first; cbn [fold_left].
    + now left.
    + match goal with
      | |- In (fold_left _ rest ?a) _ => destruct (IH a) as [E|E]
      end.
      * rewrite <- E.
        match goal with
        | |- In (if ?t then _ else _) _ => destruct t; [now left|right; now left]
        end.
      * right. now right.
Qed.

Lemma validateFaces_then_extractBiggestFace_witness :
  exists face,
    extractBiggestFace
      [mkFace [] (mkBBox 0 0 10 10) 1 0 30; mkFace [] (mkBBox 5 5 20 30) 1 1 40]%float
    = Return face /\
    In face [mkFace [] (mkBBox 0 0 10 10) 1 0 30; mkFace [] (mkBBox 5 5 20 30) 1 1 40]%float.
Proof.
  apply (validateFaces_then_extractBiggestFace toString_digit
           [mkFace [] (mkBBox 0 0 10 10) 1 0 30; mkFace [] (mkBBox 5 5 20 30) 1 1 40]%float
           None).
  reflexivity.
Defined.

End Validation.

(** ** The frame of [clipBBox] *)

Module Frames.

Import FloatOrder FloatArith.
Local Open Scope Z_scope.

(** Every coordinate of [b] lies in the frame [[0, W] x [0, H]]. *)
Definition inside (b : BBox float) (W H : float) : Prop :=
  Binary64.jsle 0 (x1 b) /\ Binary64.jsle (x1 b) W /\
  Binary64.jsle 0 (y1 b) /\ Binary64.jsle (y1 b) H /\
  Binary64.jsle 0 (x2 b) /\ Binary64.jsle (x2 b) W /\
  Binary64.jsle 0 (y2 b) /\ Binary64.jsle (y2 b) H.

(** [Math.max(0, Math.min(v, size))] lies between 0 and [size], and is [v]
    again when [v] does. *)
Lemma clamp_frame (v size : float) :
  is_nan v = false -> Binary64.jsle 0 size ->
  let c := Binary64.max 0 (Binary64.min v size) in
  Binary64.jsle 0 c /\ Binary64.jsle c size /\
  (Binary64.jsle 0 v -> Binary64.jsle v size -> Binary64.jseq c v).
Proof.
  intros Nv Hs c. subst c. destruct (Clipping.jsle_not_nan 0 size Hs) as [N0 Ns].
  unfold Binary64.jsle, Binary64.jseq in *.
  apply (leb_key 0 size N0 Ns) in Hs.
  pose proof (min_not_nan v size Nv Ns) as Nm.
  pose proof (max_not_nan 0 _ N0 Nm) as Nc.
  rewrite (leb_key 0 _ N0 Nc), (leb_key _ size Nc Ns), (leb_key 0 v N0 Nv),
    (leb_key v size Nv Ns), (eqb_key _ v Nc Nv).
  destruct (max_cases 0 _ N0 Nm) as [[E B]|[E B]]; rewrite E in *; clear E;
    destruct (min_cases v size Nv Ns) as [[E A]|[E A]]; rewrite ?E in *; clear E;
    unfold klt, keq in *; repeat split; intros; lia.
Qed.

(** X14: for a box whose coordinates are numbers and a frame whose sizes are
    numbers that are not negative, [clipBBox] returns a box inside the
    frame; a box that is inside the frame already comes back with [==]
    coordinates; so clipping twice is clipping once. *)
Theorem clipBBox_frame (b : BBox float) (imageWidth imageHeight : float) :
  Enclosing.numbers b = true ->
  Binary64.jsle 0 imageWidth -> Binary64.jsle 0 imageHeight ->
  let r := clipBBox b imageWidth imageHeight in
  inside r imageWidth imageHeight /\
  (inside b imageWidth imageHeight -> Binary64.bbox_jseq r b) /\
  Binary64.bbox_jseq (clipBBox r imageWidth imageHeight) r.
Proof.
  intros HN HW HH r. apply Enclosing.numbers_spec in HN as (N1 & N2 & N3 & N4).
  destruct (clamp_frame (x1 b) imageWidth N1 HW) as (A1 & B1 & C1).
  destruct (clamp_frame (y1 b) imageHeight N2 HH) as (A2 & B2 & C2).
  destruct (clamp_frame (x2 b) imageWidth N3 HW) as (A3 & B3 & C3).
  destruct (clamp_frame (y2 b) imageHeight N4 HH) as (A4 & B4 & C4).
  cbv zeta in *.
  assert (I : inside r imageWidth imageHeight).
  { unfold inside, r, clipBBox. cbn [x1 y1 x2 y2 Math_max Math_min num0 Binary64.number].
    tauto. }
  split; [exact I|]. split.
  - intros (I1 & I2 & I3 & I4 & I5 & I6 & I7 & I8).
    unfold Binary64.bbox_jseq, r, clipBBox.
    cbn [x1 y1 x2 y2 Math_max Math_min num0 Binary64.number]. auto.
  - destruct I as (I1 & I2 & I3 & I4 & I5 & I6 & I7 & I8).
    destruct (Clipping.jsle_not_nan _ _ I1) as [_ M1].
    destruct (Clipping.jsle_not_nan _ _ I3) as [_ M2].
    destruct (Clipping.jsle_not_nan _ _ I5) as [_ M3].
    destruct (Clipping.jsle_not_nan _ _ I7) as [_ M4].
    destruct (clamp_frame (x1 r) imageWidth M1 HW) as (_ & _ & K1).
    destruct (clamp_frame (y1 r) imageHeight M2 HH) as (_ & _ & K2).
    destruct (clamp_frame (x2 r) imageWidth M3 HW) as (_ & _ & K3).
    destruct (clamp_frame (y2 r) imageHeight M4 HH) as (_ & _ & K4).
    exact (conj (K1 I1 I2) (conj (K2 I3 I4) (conj (K3 I5 I6) (K4 I7 I8)))).
Qed.

Lemma clipBBox_frame_witness :
  let b := (mkBBox (-20) 30 40 500)%float in
  let r := clipBBox b 100%float 200%float in
  inside r 100%float 200%float /\
  (inside b 100%float 200%float -> Binary64.bbox_jseq r b) /\
  Binary64.bbox_jseq (clipBBox r 100%float 200%float) r.
Proof.
  apply (clipBBox_frame (mkBBox (-20) 30 40 500)%float 100%float 200%float);
    reflexivity.
Defined.

End Frames.

(** ** More on [shiftCoordinates]: boxes that fit, and boxes that do not *)

Module ShiftingEdges.

Import FloatOrder FloatArith FloatInt Pixels Shifting.
Local Open Scope Z_scope.

Lemma shiftCoordinates_pixels (zx1 zy1 zx2 zy2 zW zH : Z) :
  Forall pixel [zx1; zy1; zx2; zy2; zW; zH] ->
  shiftCoordinates (Zbox zx1 zy1 zx2 zy2) (ofZ zW) (ofZ zH)
  = Zbox (fst (shiftAxisZ zx1 zx2 zW)) (fst (shiftAxisZ zy1 zy2 zH))
         (snd (shiftAxisZ zx1 zx2 zW)) (snd (shiftAxisZ zy1 zy2 zH)).
Proof.
  intros HP.
  repeat match goal with
         | H : Forall pixel (_ :: _) |- _ => inversion H; subst; clear H
         end.
  rewrite shiftCoordinates_axes. unfold Zbox. cbn [x1 y1 x2 y2].
  now rewrite !shiftAxis_pixels by assumption.
Qed.

Lemma shiftAxisZ_pixel (lo hi size : Z) :
  pixel lo -> pixel hi -> pixel size -> lo <= hi -> hi - lo <= size ->
  pixel (fst (shiftAxisZ lo hi size)) /\ pixel (snd (shiftAxisZ lo hi size)).
Proof.
  intros Hlo Hhi Hs Hle Hfit.
  destruct (shiftAxisZ_into_bounds lo hi size Hle Hfit) as (E & L & U).
  unfold pixel in *. lia.
Qed.

(** X15: on integer pixel coordinates, [shiftCoordinates] leaves a
    well-formed box that lies within the image as it is, and shifting a
    box that fits in the image a second time changes nothing. *)
Theorem shiftCoordinates_fixed (zx1 zy1 zx2 zy2 zW zH : Z) :
  Forall pixel [zx1; zy1; zx2; zy2; zW; zH] ->
  zx1 <= zx2 -> zy1 <= zy2 -> zx2 - zx1 <= zW -> zy2 - zy1 <= zH ->
  let r := shiftCoordinates (Zbox zx1 zy1 zx2 zy2) (ofZ zW) (ofZ zH) in
  (0 <= zx1 -> zx2 <= zW -> 0 <= zy1 -> zy2 <= zH -> r = Zbox zx1 zy1 zx2 zy2) /\
  shiftCoordinates r (ofZ zW) (ofZ zH) = r.
Proof.
  intros HP Hx Hy Hw Hh r. unfold r. rewrite shiftCoordinates_pixels by assumption.
  repeat match goal with
         | H : Forall pixel (_ :: _) |- _ => inversion H; subst; clear H
         end.
  assert (Fix : forall lo hi size, 0 <= lo -> lo <= hi -> hi <= size ->
                                   shiftAxisZ lo hi size = (lo, hi)).
  { intros lo hi size A B C. unfold shiftAxisZ.
    destruct (Z.ltb_spec lo 0); [lia|]. destruct (Z.ltb_spec size hi); [lia|reflexivity]. }
  split.
  - intros A1 A2 B1 B2. now rewrite !Fix by assumption.
  - destruct (shiftAxisZ_into_bounds zx1 zx2 zW Hx Hw) as (Ex & Lx & Ux).
    destruct (shiftAxisZ_into_bounds zy1 zy2 zH Hy Hh) as (Ey & Ly & Uy).
    destruct (shiftAxisZ_pixel zx1 zx2 zW) as [Px1 Px2]; trivial.
    destruct (shiftAxisZ_pixel zy1 zy2 zH) as [Py1 Py2]; trivial.
    rewrite shiftCoordinates_pixels
      by (repeat (apply Forall_cons; [assumption|]); apply Forall_nil).
    rewrite (Fix (fst (shiftAxisZ zx1 zx2 zW)) (snd (shiftAxisZ zx1 zx2 zW)) zW) by lia.
    rewrite (Fix (fst (shiftAxisZ zy1 zy2 zH)) (snd (shiftAxisZ zy1 zy2 zH)) zH) by lia.
    reflexivity.
Qed.

Lemma shiftCoordinates_fixed_witness :
  let r := shiftCoordinates (Zbox 10 20 60 90) (ofZ 100) (ofZ 100) in
  r = Zbox 10 20 60 90 /\ shiftCoordinates r (ofZ 100) (ofZ 100) = r.
Proof.
  destruct (shiftCoordinates_fixed 10 20 60 90 100 100) as [A B]; try lia.
  - repeat constructor; unfold pixel; lia.
  - split; [apply A; lia|exact B].
Defined.

(** X16: [shiftCoordinates] does not check that the box fits.  A well-formed
    box that is wider than the image always ends with its right edge on
    the right edge of the image and its left edge outside, at
    [imageWidth - boxWidth < 0], wherever it was; likewise a box taller
    than the image ends at the bottom edge with its top outside. *)
Theorem shiftCoordinates_too_large (zx1 zy1 zx2 zy2 zW zH : Z) :
  Forall pixel [zx1; zy1; zx2; zy2; zW; zH] -> zx1 <= zx2 -> zy1 <= zy2 ->
  let r := shiftCoordinates (Zbox zx1 zy1 zx2 zy2) (ofZ zW) (ofZ zH) in
  (zW < zx2 - zx1 ->
   x1 r = ofZ (zW - (zx2 - zx1)) /\ x2 r = ofZ zW /\ zW - (zx2 - zx1) < 0) /\
  (zH < zy2 - zy1 ->
   y1 r = ofZ (zH - (zy2 - zy1)) /\ y2 r = ofZ zH /\ zH - (zy2 - zy1) < 0).
Proof.
  intros HP Hx Hy r. unfold r. rewrite shiftCoordinates_pixels by assumption.
  unfold Zbox. cbn [x1 y1 x2 y2].
  assert (Big : forall lo hi size, lo <= hi -> size < hi - lo ->
                                   shiftAxisZ lo hi size = (size - (hi - lo), size)).
  { intros lo hi size A B. unfold shiftAxisZ.
    destruct (Z.ltb_spec lo 0).
    - destruct (Z.ltb_spec size (0 + (hi - lo))); [reflexivity|lia].
    - destruct (Z.ltb_spec size hi); [reflexivity|lia]. }
  split; intros H; rewrite Big by assumption; cbn [fst snd]; repeat split; lia.
Qed.

Lemma shiftCoordinates_too_large_witness :
  let r := shiftCoordinates (Zbox 10 20 160 190) (ofZ 100) (ofZ 100) in
  (x1 r = ofZ (100 - (160 - 10)) /\ x2 r = ofZ 100 /\ 100 - (160 - 10) < 0) /\
  (y1 r = ofZ (100 - (190 - 20)) /\ y2 r = ofZ 100 /\ 100 - (190 - 20) < 0).
Proof.
  destruct (shiftCoordinates_too_large 10 20 160 190 100 100) as [A B]; try lia.
  - repeat constructor; unfold pixel; lia.
  - split; [apply A|apply B]; lia.
Defined.

End ShiftingEdges.
